(** * mtail: the type system of the program compiler, capture-group type
    inference, and the expression grammar.

    The development embeds four pieces of the repository:

    - [Types]: package [types] (types, unification variables with their
      mutable [Instance] field, [Root], [Equals], [occursInType], [Unify],
      [LeastUpperBound], [IsComplete], [FreshType], the [String]
      methods);
    - [Capref]: [InferCaprefType] and its helpers over [regexp/syntax] trees;
    - [Grammar]: the expression productions of [parser.y];
    - [Fuzz]: the cut of the fuzzing input in [fuzz.go].

    Go values that are pointers to mutable cells ([*Variable]) are addresses
    into an explicit heap; every function that calls [Root] threads that
    heap, because [Root] compresses paths.  Go functions that may panic
    (index out of range) or fail to return (a cyclic instance chain) return a
    [Res]. *)

From Stdlib Require Import ZArith Lia Bool.
From stdpp Require Import gmap strings list pretty.

Set Default Proof Using "Type".
Local Set Warnings "-register-all".
Local Open Scope Z_scope.

(** ** Results of running Go code *)

(** [Ok a]: the call returned [a].  [Panic]: a run-time panic (index out of
    range, nil dereference).  [OutOfFuel]: the recursion did not finish
    within the given number of nested calls; on a cyclic instance chain no
    amount of fuel suffices, as the Go code never returns there. *)
Inductive Res (A : Type) : Type :=
| Ok (a : A)
| Panic
| OutOfFuel.
Arguments Ok {A} a.
Arguments Panic {A}.
Arguments OutOfFuel {A}.

Module Types.

(** The three sentinel errors of the package. *)
Inductive errorKind : Type :=
| ErrRecursiveUnification
| ErrTypeMismatch
| ErrInternal.

(** [Type]: the interface implemented by [*Variable], [*Operator] and
    [*TypeError].  A [*Variable] is the address of its cell; operators and
    type errors are compared by content only, so they are values.  The
    fields of a [TypeError] may be nil ([Error = &TypeError{}]). *)
Inductive Ty : Type :=
| TVariable (p : nat)
| TOperator (Name : string) (Args : list Ty)
| TTypeError (error : option errorKind) (expected received : option Ty).

(** [type Variable struct { ID int; Instance Type }] *)
Record VariableCell : Type := mkVariable { ID : Z; Instance : option Ty }.

Abbreviation heap := (gmap nat VariableCell).

(** State-and-failure monad of the package's functions. *)
Definition M (A : Type) : Type := heap -> Res (A * heap).

Definition ret {A} (a : A) : M A := fun h => Ok (a, h).

Definition bind {A B} (m : M A) (k : A -> M B) : M B :=
  fun h =>
    match m h with
    | Ok (a, h') => k a h'
    | Panic => Panic
    | OutOfFuel => OutOfFuel
    end.

Definition panic {A} : M A := fun _ => Panic.
Definition diverge {A} : M A := fun _ => OutOfFuel.

Declare Scope go_scope.
Delimit Scope go_scope with go.
Notation "x <- m ;; k" := (bind m (fun x => k))
  (at level 100, m at next level, right associativity) : go_scope.
Notation "m ;;; k" := (bind m (fun _ => k))
  (at level 100, right associativity) : go_scope.
Local Open Scope go_scope.

(** Reading the cell behind a [*Variable]. *)
Definition load (p : nat) : M VariableCell :=
  fun h => match h !! p with Some c => Ok (c, h) | None => Panic end.

(** [func (t *Variable) SetInstance(t1 Type)] *)
Definition SetInstance (p : nat) (t1 : Ty) : M unit :=
  fun h =>
    match h !! p with
    | Some c => Ok (tt, <[p := mkVariable (ID c) (Some t1)]> h)
    | None => Panic
    end.

(** [Root] is a method of the interface [Type]: on an [Operator] and on a
    [TypeError] it returns the receiver; on a [Variable] it follows the
    instance and stores the result back in [Instance].  [Root] is the
    dispatch on the dynamic type, [VariableRoot] the method of a
    variable. *)
Fixpoint VariableRoot (fuel : nat) (p : nat) {struct fuel} : M Ty :=
  match fuel with
  | O => diverge
  | S fuel' =>
      c <- load p ;;
      match Instance c with
      | None => ret (TVariable p)
      | Some i =>
          r <- match i with
               | TVariable q => VariableRoot fuel' q
               | _ => ret i
               end ;;
          SetInstance p r ;;;
          ret r
      end
  end.

Definition Root (fuel : nat) (t : Ty) : M Ty :=
  match t with
  | TVariable p => VariableRoot fuel p
  | _ => ret t
  end.

Definition IsTypeError (t : Ty) : bool :=
  match t with TTypeError _ _ _ => true | _ => false end.

(** [Function] and [Dimension] *)
Definition Function (args : list Ty) : Ty := TOperator "→" args.
Definition Dimension (args : list Ty) : Ty := TOperator "⨯" args.

(** Builtin type constants. *)
Definition Error : Ty := TTypeError None None None.
Definition InternalError : Ty := TTypeError (Some ErrInternal) None None.
Definition Undef : Ty := TOperator "Undef" [].
Definition None_ : Ty := TOperator "None" [].
Definition Bool : Ty := TOperator "Bool" [].
Definition Int : Ty := TOperator "Int" [].
Definition Float : Ty := TOperator "Float" [].
Definition String : Ty := TOperator "String" [].
Definition Pattern : Ty := TOperator "Pattern" [].
Definition Buckets : Ty := TOperator "Buckets" [].

(** The loop of [Equals] over [t1.Args]: every element is compared with
    [t2.Args[2]], as the source has it; the index expression panics when
    [t2.Args] has fewer than three elements. *)
Fixpoint EqualsArgs (equals : Ty -> Ty -> M bool) (args1 args2 : list Ty) : M bool :=
  match args1 with
  | [] => ret true
  | a :: rest =>
      match args2 !! 2%nat with
      | None => panic
      | Some b =>
          e <- equals a b ;;
          if e then EqualsArgs equals rest args2 else ret false
      end
  end.

(** The loop of [occursIn]. *)
Fixpoint occursInLoop (occursInType : Ty -> M bool) (types : list Ty) : M bool :=
  match types with
  | [] => ret false
  | t2 :: rest =>
      o <- occursInType t2 ;;
      if o then ret true else occursInLoop occursInType rest
  end.

(** [Equals], [occursInType] and [occursIn] are mutually recursive. *)
Fixpoint Equals (fuel : nat) (t1 t2 : Ty) {struct fuel} : M bool :=
  match fuel with
  | O => diverge
  | S fuel' =>
      t1 <- Root fuel' t1 ;;
      t2 <- Root fuel' t2 ;;
      match t1 with
      | TVariable p1 =>
          match t2 with
          | TVariable p2 =>
              c1 <- load p1 ;;
              c2 <- load p2 ;;
              ret (ID c1 =? ID c2)
          | _ => occursInType fuel' t1 t2
          end
      | TOperator n1 args1 =>
          match t2 with
          | TOperator n2 args2 =>
              if negb (String.eqb n1 n2) then ret false
              else if negb (length args1 =? length args2)%nat then ret false
              else EqualsArgs (Equals fuel') args1 args2
          | _ => ret false
          end
      | TTypeError _ _ _ => ret false
      end
  end
with occursInType (fuel : nat) (v t2 : Ty) {struct fuel} : M bool :=
  match fuel with
  | O => diverge
  | S fuel' =>
      root <- Root fuel' t2 ;;
      e <- Equals fuel' root v ;;
      if e then ret true
      else match root with
           | TOperator _ args => occursIn fuel' v args
           | _ => ret false
           end
  end
with occursIn (fuel : nat) (v : Ty) (types : list Ty) {struct fuel} : M bool :=
  match fuel with
  | O => diverge
  | S fuel' => occursInLoop (occursInType fuel' v) types
  end.

(** Short-circuit [&&] and [||] over calls that thread the heap. *)
Definition andM (x y : M bool) : M bool := b <- x ;; if b then y else ret false.
Definition orM (x y : M bool) : M bool := b <- x ;; if b then ret true else y.

Definition isVariable (t : Ty) : bool :=
  match t with TVariable _ => true | _ => false end.

(** [LeastUpperBound].  [joinRoots] is the body of the function after its
    first statement [a1, b1 := a.Root(), b.Root()]. *)
Definition joinRoots (fuel : nat) (a b a1 b1 : Ty) : M Ty :=
  let eq := Equals fuel in
  e <- eq a1 b1 ;;
  if e then ret a1
  else if isVariable a1 then ret b1
  else if isVariable b1 then ret a1
  else
    e <- eq a1 Undef ;;
    if e then ret b1 else
    e <- eq b1 Undef ;;
    if e then ret a1 else
    e <- orM (andM (eq a1 Float) (eq b1 Int)) (andM (eq b1 Float) (eq a1 Int)) ;;
    if e then ret Float else
    e <- orM (andM (eq a1 String) (eq b1 Int))
         (orM (andM (eq b1 String) (eq a1 Int))
         (orM (andM (eq a1 String) (eq b1 Float))
              (andM (eq b1 String) (eq a1 Float)))) ;;
    if e then ret String else
    e <- orM (andM (eq a1 Pattern) (eq b1 Bool)) (andM (eq a1 Bool) (eq b1 Pattern)) ;;
    if e then ret Bool else
    e <- orM (andM (eq a1 Bool) (eq b1 Int)) (andM (eq a1 Int) (eq b1 Bool)) ;;
    if e then ret Int else
    e <- orM (andM (eq a1 String) (eq b1 Pattern)) (andM (eq a1 Pattern) (eq b1 String)) ;;
    if e then ret Pattern else
    e <- orM (andM (eq a1 Pattern) (eq b1 Int)) (andM (eq a1 Int) (eq b1 Pattern)) ;;
    if e then ret Bool else
    ret (TTypeError (Some ErrTypeMismatch) (Some a) (Some b)).

Definition LeastUpperBound (fuel : nat) (a b : Ty) : M Ty :=
  a1 <- Root fuel a ;;
  b1 <- Root fuel b ;;
  joinRoots fuel a b a1 b1.

(** The argument loop of [Unify]: [rType.Args[i] = Unify(argA, b2.Args[i])],
    leaving at the first type error.  [inl e] is that early return.  The
    slice [rType.Args] is fresh ([make]) and is filled from index 0 upwards,
    so the arguments unified so far are kept as a list. *)
Fixpoint UnifyArgs (unify : Ty -> Ty -> M Ty) (argsA : list Ty) (i : nat)
    (argsB : list Ty) (done : list Ty) : M (Ty + list Ty) :=
  match argsA with
  | [] => ret (inr done)
  | argA :: rest =>
      match argsB !! i with
      | None => panic
      | Some argB =>
          t <- unify argA argB ;;
          if IsTypeError t then ret (inl t)
          else UnifyArgs unify rest (S i) argsB (done ++ [t])
      end
  end.

(** [Unify] *)
Fixpoint Unify (fuel : nat) (a b : Ty) {struct fuel} : M Ty :=
  match fuel with
  | O => diverge
  | S fuel' =>
      a1 <- Root fuel' a ;;
      b1 <- Root fuel' b ;;
      match a1 with
      | TVariable pa =>
          match b1 with
          | TVariable pb =>
              ca <- load pa ;;
              cb <- load pb ;;
              if negb (ID ca =? ID cb) then SetInstance pa b1 ;;; ret b1
              else ret a1
          | TOperator _ _ =>
              occ <- occursInType fuel' a1 b1 ;;
              if occ
              then ret (TTypeError (Some ErrRecursiveUnification) (Some a1) (Some b1))
              else SetInstance pa b1 ;;; ret b1
          | TTypeError _ _ _ => ret (TTypeError (Some ErrInternal) (Some a) (Some b))
          end
      | TOperator nameA argsA =>
          match b1 with
          | TVariable _ =>
              t <- Unify fuel' b a ;;
              match t with
              | TTypeError _ expected received =>
                  ret (TTypeError (Some ErrTypeMismatch) received expected)
              | _ => ret t
              end
          | TOperator nameB argsB =>
              if negb (length argsA =? length argsB)%nat
              then ret (TTypeError (Some ErrTypeMismatch) (Some a1) (Some b1))
              else
                let fill (name : string) : M Ty :=
                  r <- UnifyArgs (Unify fuel') argsA 0 argsB [] ;;
                  match r with
                  | inl e => ret e
                  | inr args => ret (TOperator name args)
                  end in
                if negb (String.eqb nameA nameB) then
                  t <- LeastUpperBound fuel' a b ;;
                  match t with
                  | TTypeError _ _ _ => ret t
                  | TOperator name _ => fill name
                  | TVariable _ =>
                      ret (TTypeError (Some ErrInternal) (Some a1) (Some b1))
                  end
                else fill nameA
          | TTypeError _ _ _ => ret (TTypeError (Some ErrInternal) (Some a) (Some b))
          end
      | TTypeError _ _ _ => ret (TTypeError (Some ErrInternal) (Some a) (Some b))
      end
  end.

(** *** Instance chains

    [path h t ps r]: following [Instance] from [t] in the heap [h] passes
    the bound variables [ps], in this order, and ends at [r], which is an
    operator, a type error or an unbound variable.  A cyclic chain has no
    path. *)
Inductive path (h : heap) : Ty -> list nat -> Ty -> Prop :=
| path_operator name args :
    path h (TOperator name args) [] (TOperator name args)
| path_error e x y :
    path h (TTypeError e x y) [] (TTypeError e x y)
| path_unbound p c :
    h !! p = Some c -> Instance c = None ->
    path h (TVariable p) [] (TVariable p)
| path_bound p c i ps r :
    h !! p = Some c -> Instance c = Some i -> path h i ps r ->
    path h (TVariable p) (p :: ps) r.

(** The heap after [Instance] of every variable of [ps] has been set to
    [r], innermost first. *)
Definition compress (ps : list nat) (r : Ty) (h : heap) : heap :=
  foldr (fun q h' =>
           match h' !! q with
           | Some c => <[q := mkVariable (ID c) (Some r)]> h'
           | None => h'
           end) h ps.

(** *** Unification of argument lists, and types read through the heap *)

(** "Unify the arguments pairwise; any argument-level error
    short-circuits": [pairwise unify xs ys h r h'] runs [unify] on the
    pairs from left to right, starting in [h] and ending in [h']; [r] is
    [inl e] for the first type error [e], and [inr ts] for the unified
    arguments when there is none. *)
Inductive pairwise (unify : Ty -> Ty -> M Ty) :
    list Ty -> list Ty -> heap -> Ty + list Ty -> heap -> Prop :=
| pairwise_nil h :
    pairwise unify [] [] h (inr []) h
| pairwise_error x xs y ys h e h' :
    unify x y h = Ok (e, h') -> IsTypeError e = true ->
    pairwise unify (x :: xs) (y :: ys) h (inl e) h'
| pairwise_cons x xs y ys h t h' r h'' :
    unify x y h = Ok (t, h') -> IsTypeError t = false ->
    pairwise unify xs ys h' r h'' ->
    pairwise unify (x :: xs) (y :: ys) h
      (match r with inl e => inl e | inr ts => inr (t :: ts) end) h''.

(** [resolves h L n t t']: [t'] is [t] with every variable replaced by its
    representative, all the way down; [t] holds no type error, its
    instance chains pass at most [L] variables and its operators nest at
    most [n] deep. *)
Inductive resolves (h : heap) (L : nat) : nat -> Ty -> Ty -> Prop :=
| resolves_variable n t ps p :
    path h t ps (TVariable p) -> (length ps <= L)%nat ->
    resolves h L n t (TVariable p)
| resolves_operator n t ps name args args' :
    path h t ps (TOperator name args) -> (length ps <= L)%nat ->
    Forall2 (resolves h L n) args args' ->
    resolves h L (S n) t (TOperator name args').

(** *** The other functions of the package *)

(** The loop of [IsComplete] over the arguments of an operator. *)
Fixpoint allComplete (isComplete : Ty -> M bool) (args : list Ty) : M bool :=
  match args with
  | [] => ret true
  | a :: rest =>
      c <- isComplete a ;;
      if c then allComplete isComplete rest else ret false
  end.

(** [IsComplete] *)
Fixpoint IsComplete (fuel : nat) (t : Ty) {struct fuel} : M bool :=
  match fuel with
  | O => diverge
  | S fuel' =>
      v <- Root fuel' t ;;
      match v with
      | TVariable _ => ret false
      | TOperator _ args => allComplete (IsComplete fuel') args
      | TTypeError _ _ _ => ret false
      end
  end.

(** [IsFunction] and [IsDimension]: a type assertion on the value itself,
    without [Root]. *)
Definition IsFunction (t : Ty) : bool :=
  match t with TOperator name _ => String.eqb name "→" | _ => false end.
Definition IsDimension (t : Ty) : bool :=
  match t with TOperator name _ => String.eqb name "⨯" | _ => false end.

(** A type without variables. *)
Fixpoint ground (t : Ty) {struct t} : bool :=
  match t with
  | TVariable _ => false
  | TOperator _ args => forallb ground args
  | TTypeError _ _ _ => false
  end.

(** The [ID] field of the variable at [q]. *)
Definition idOf (h : heap) (q : nat) : Z :=
  match h !! q with Some c => ID c | None => 0 end.

(** Some variable of [t] has the id [id]. *)
Fixpoint occursID (h : heap) (id : Z) (t : Ty) {struct t} : bool :=
  match t with
  | TVariable q => idOf h q =? id
  | TOperator _ args => existsb (occursID h id) args
  | TTypeError _ _ _ => false
  end.

(** The variable at the address [p] is part of [t]. *)
Fixpoint occursAt (p : nat) (t : Ty) {struct t} : bool :=
  match t with
  | TVariable q => Nat.eqb q p
  | TOperator _ args => existsb (occursAt p) args
  | TTypeError _ _ _ => false
  end.

(** *** Printing types *)

(** The texts of the three sentinel errors. *)
Definition errorString (e : errorKind) : string :=
  match e with
  | ErrRecursiveUnification => "recursive unification error"
  | ErrTypeMismatch => "type mismatch"
  | ErrInternal => "internal error"
  end.

(** The loops of [Operator.String]: [s += sep + a.String()] for every
    argument. *)
Fixpoint appendArgs (str : Ty -> M string) (sep : string) (s : string)
    (args : list Ty) : M string :=
  match args with
  | [] => ret s
  | a :: rest =>
      sa <- str a ;;
      appendArgs str sep (s +:+ sep +:+ sa) rest
  end.

(** The [String] methods.  On a variable the method follows [Instance]
    itself, without [Root]; on a type error it calls [IsComplete] on the
    two types, and a nil type there is a nil dereference.  The calls of
    [glog], here and in the other functions, only write to the log and
    are left out. *)
Fixpoint TypeString (fuel : nat) (t : Ty) {struct fuel} : M string :=
  match fuel with
  | O => diverge
  | S fuel' =>
      match t with
      | TVariable p =>
          c <- load p ;;
          match Instance c with
          | Some i => TypeString fuel' i
          | None => ret ("typeVar" +:+ pretty (ID c))
          end
      | TOperator name args =>
          if (length args <? 2)%nat
          then appendArgs (TypeString fuel') " " name args
          else
            match args with
            | [] => panic
            | a0 :: rest =>
                s <- TypeString fuel' a0 ;;
                appendArgs (TypeString fuel') name s rest
            end
      | TTypeError error expected received =>
          match error with
          | None => ret "type error"
          | Some err =>
              let side (x : option Ty) : M string :=
                match x with
                | None => panic
                | Some x =>
                    c <- IsComplete fuel' x ;;
                    if c then TypeString fuel' x else ret "incomplete type"
                end in
              estr <- side expected ;;
              rstr <- side received ;;
              ret (errorString err +:+ "; expected " +:+ estr +:+ " received " +:+ rstr)
          end
      end
  end.

(** The text of a type that holds no bound variable and no type error,
    read without the heap but for the ids of its variables. *)
Section ShowArgs.
Variable showArg : Ty -> string.
Variable sep : string.
Fixpoint showArgs (s : string) (args : list Ty) : string :=
  match args with
  | [] => s
  | a :: rest => showArgs (s +:+ sep +:+ showArg a) rest
  end.
End ShowArgs.

Fixpoint show (h : heap) (t : Ty) {struct t} : string :=
  match t with
  | TVariable q => "typeVar" +:+ pretty (idOf h q)
  | TOperator name args =>
      if (length args <? 2)%nat then showArgs (show h) " " name args
      else
        match args with
        | [] => ""
        | a0 :: rest => showArgs (show h) name (show h a0) rest
        end
  | TTypeError _ _ _ => "type error"
  end.

(** The text of one side of a type error whose resolved form is [t']:
    [IsComplete] decides between the text of the type and
    ["incomplete type"]. *)
Definition sideText (h : heap) (t' : Ty) : string :=
  if ground t' then show h t' else "incomplete type".

(** What [Equals(t, Undef)] returns on a root [t]. *)
Definition isUndef (t : Ty) : bool :=
  match t with
  | TOperator n args => String.eqb n "Undef" && (length args =? 0)%nat
  | _ => false
  end.

(** The roots that [LeastUpperBound] gives way to: a variable and
    [Undef]. *)
Definition yields (t : Ty) : bool := isVariable t || isUndef t.

(** [h'] is [h] after some calls of [Root]: every type keeps its
    representative, no chain gets longer, and every cell keeps its [ID]. *)
Definition shortens (h h' : heap) : Prop :=
  (forall u us ru, path h u us ru ->
     exists us', path h' u us' ru /\ (length us' <= length us)%nat) /\
  (forall q c, h !! q = Some c -> exists c', h' !! q = Some c' /\ ID c' = ID c).

(** The builtin scalar types. *)
Definition builtins : list Ty :=
  [Undef; None_; Bool; Int; Float; String; Pattern; Buckets].

Definition sameName (x y : Ty) : bool :=
  match x, y with
  | TOperator n1 _, TOperator n2 _ => String.eqb n1 n2
  | _, _ => false
  end.

Definition oneOf (x y : Ty) (u v : Ty) : bool :=
  (sameName x u && sameName y v) || (sameName x v && sameName y u).

(** The widening lattice in the words of the specification: [None] where
    the specification says [TypeError{Mismatch}]. *)
Definition latticeJoin (x y : Ty) : option Ty :=
  if sameName x y then Some x
  else if sameName x Undef then Some y
  else if sameName y Undef then Some x
  else if oneOf x y Int Float then Some Float
  else if oneOf x y Int String || oneOf x y Float String then Some String
  else if oneOf x y Pattern Bool then Some Bool
  else if oneOf x y Int Bool then Some Int
  else if oneOf x y String Pattern then Some Pattern
  else if oneOf x y Int Pattern then Some Bool
  else None.

(** [&TypeError{ErrTypeMismatch, a, b}] *)
Definition mismatch (a b : Ty) : Ty :=
  TTypeError (Some ErrTypeMismatch) (Some a) (Some b).

(** *** Fresh variables *)

(** [nextVariableID++] on Go's [int], 64 bits wide. *)
Definition maxInt : Z := 9223372036854775807.
Definition minInt : Z := -9223372036854775808.
Definition incr (i : Z) : Z := if i =? maxInt then minInt else i + 1.

(** [NewVariable]: [next] is the global [nextVariableID]; the cell of
    [&Variable{ID: id}] is allocated at an address not in use. *)
Definition NewVariable (next : Z) (h : heap) : nat * Z * heap :=
  let p := fresh (dom h) in
  (p, incr next, <[p := mkVariable next None]> h).

(** The closure [freshRec] of [FreshType] reads and writes the map
    [mappings], the counter [nextVariableID] and the instances of the
    variables it passes. *)
Definition F (A : Type) : Type :=
  gmap nat nat -> Z -> heap -> Res (A * gmap nat nat * Z * heap).

(** The loop [args = append(args, freshRec(arg))]. *)
Fixpoint freshArgs (freshRec : Ty -> F Ty) (args : list Ty) (done : list Ty)
    : F (list Ty) :=
  fun mappings next h =>
    match args with
    | [] => Ok (done, mappings, next, h)
    | arg :: rest =>
        match freshRec arg mappings next h with
        | Ok (t, mappings', next', h') =>
            freshArgs freshRec rest (done ++ [t]) mappings' next' h'
        | Panic => Panic
        | OutOfFuel => OutOfFuel
        end
    end.

Fixpoint freshRec (fuel : nat) (tp : Ty) {struct fuel} : F Ty :=
  fun mappings next h =>
    match fuel with
    | O => OutOfFuel
    | S fuel' =>
        match Root fuel' tp h with
        | Ok (p, h1) =>
            match p with
            | TVariable p1 =>
                match mappings !! p1 with
                | Some q => Ok (TVariable q, mappings, next, h1)
                | None =>
                    let '(q, next', h2) := NewVariable next h1 in
                    Ok (TVariable q, <[p1 := q]> mappings, next', h2)
                end
            | TOperator name args =>
                match freshArgs (freshRec fuel') args [] mappings next h1 with
                | Ok (args', mappings', next', h') =>
                    Ok (TOperator name args', mappings', next', h')
                | Panic => Panic
                | OutOfFuel => OutOfFuel
                end
            | TTypeError _ _ _ => Ok (tp, mappings, next, h1)
            end
        | Panic => Panic
        | OutOfFuel => OutOfFuel
        end
    end.

(** [FreshType] *)
Definition FreshType (fuel : nat) (t : Ty) (next : Z) (h : heap)
    : Res (Ty * Z * heap) :=
  match freshRec fuel t ∅ next h with
  | Ok (r, _, next', h') => Ok (r, next', h')
  | Panic => Panic
  | OutOfFuel => OutOfFuel
  end.

(** [t] with every variable replaced by its image under [m]. *)
Fixpoint rename (m : gmap nat nat) (t : Ty) {struct t} : Ty :=
  match t with
  | TVariable p => match m !! p with Some q => TVariable q | None => TVariable p end
  | TOperator name args => TOperator name (map (rename m) args)
  | TTypeError _ _ _ => t
  end.

(** The addresses of the variables of [t]. *)
Fixpoint variables (t : Ty) {struct t} : list nat :=
  match t with
  | TVariable p => [p]
  | TOperator _ args => concat (map variables args)
  | TTypeError _ _ _ => []
  end.

(** The state of [FreshType] after some steps, seen from the heap [h0] and
    counter [next0] of its start: [created] lists the variables made so
    far, oldest first. *)
Record freshInv (h0 : heap) (next0 : Z) (m : gmap nat nat) (created : list nat)
    (next : Z) (h : heap) : Prop := {
  inv_shortens : shortens h0 h;
  inv_nodup : NoDup created;
  inv_new : forall q, q ∈ created -> h0 !! q = None;
  inv_cells : forall i q, created !! i = Some q ->
      h !! q = Some (mkVariable (Nat.iter i incr next0) None);
  inv_next : next = Nat.iter (length created) incr next0;
  inv_range : forall q, q ∈ created <-> exists p, m !! p = Some q;
  inv_inj : forall p p' q, m !! p = Some q -> m !! p' = Some q -> p = p'
}.

(** What a run of [freshRec] on a type with the resolved form [t']
    leaves behind. *)
Definition freshPost (h0 : heap) (next0 : Z) (m : gmap nat nat) (h : heap)
    (vars : list nat) (m' : gmap nat nat) (created' : list nat) (next' : Z)
    (h' : heap) : Prop :=
  freshInv h0 next0 m' created' next' h' /\
  shortens h h' /\ m ⊆ m' /\
  (forall p, p ∈ vars -> is_Some (m' !! p)) /\
  (forall p, is_Some (m' !! p) -> is_Some (m !! p) \/ p ∈ vars).

End Types.

(** ** Capture-group type inference *)

(** The part of Go's [regexp/syntax] that the inference reads: the parsed
    tree of a regular expression.  Runes are [int32] code points; a Go
    string is the sequence of its runes. *)
Module syntax.

Inductive Op : Type :=
| OpNoMatch | OpEmptyMatch | OpLiteral | OpCharClass | OpAnyCharNotNL
| OpAnyChar | OpBeginLine | OpEndLine | OpBeginText | OpEndText
| OpWordBoundary | OpNoWordBoundary | OpCapture | OpStar | OpPlus
| OpQuest | OpRepeat | OpConcat | OpAlternate.

Definition Op_eqb (x y : Op) : bool :=
  match x, y with
  | OpNoMatch, OpNoMatch | OpEmptyMatch, OpEmptyMatch | OpLiteral, OpLiteral
  | OpCharClass, OpCharClass | OpAnyCharNotNL, OpAnyCharNotNL
  | OpAnyChar, OpAnyChar | OpBeginLine, OpBeginLine | OpEndLine, OpEndLine
  | OpBeginText, OpBeginText | OpEndText, OpEndText
  | OpWordBoundary, OpWordBoundary | OpNoWordBoundary, OpNoWordBoundary
  | OpCapture, OpCapture | OpStar, OpStar | OpPlus, OpPlus | OpQuest, OpQuest
  | OpRepeat, OpRepeat | OpConcat, OpConcat | OpAlternate, OpAlternate => true
  | _, _ => false
  end.

(** [type Regexp struct { Op; Flags; Sub; Rune; Min, Max; Cap; Name }] *)
Inductive Regexp : Type :=
  mkRegexp {
    Op_ : Op;
    Flags : Z;
    Sub : list Regexp;
    Rune : list Z;
    Min : Z;
    Max : Z;
    Cap : Z;
    Name : list Z
  }.

(** Flag bits used by the printer. *)
Definition FoldCase : Z := 1.
Definition NonGreedy : Z := 32.

End syntax.

Module Capref.
Import Types syntax.
Local Open Scope go_scope.

(** The runes of an ASCII string constant. *)
Definition runes (s : string) : list Z :=
  map (fun c => Z.of_N (Ascii.N_of_ascii c)) (String.list_ascii_of_string s).

(** [strings.ContainsRune], [strings.ContainsAny], [strings.Count] of a
    one-rune separator. *)
Definition ContainsRune (s : list Z) (r : Z) : bool := existsb (Z.eqb r) s.
Definition ContainsAny (s chars : list Z) : bool := existsb (ContainsRune chars) s.
Definition Count (s : list Z) (r : Z) : Z := Z.of_nat (length (filter (fun c => c = r) s)).

(** Failure only (no heap): the tree walkers. *)
Definition rbind {A B} (m : Res A) (k : A -> Res B) : Res B :=
  match m with
  | Ok a => k a
  | Panic => Panic
  | OutOfFuel => OutOfFuel
  end.

Definition liftRes {A} (m : Res A) : M A :=
  fun h => match m with Ok a => Ok (a, h) | Panic => Panic | OutOfFuel => OutOfFuel end.

Section Loops.

Variable get : Regexp -> Res (option Regexp).
Variable only : Regexp -> Res bool.

(** The loop of [getCaptureGroup] over [re.Sub]: the first sub-tree with a
    result decides. *)
Fixpoint firstGroup (subs : list Regexp) : Res (option Regexp) :=
  match subs with
  | [] => Ok None
  | sub :: rest =>
      rbind (get sub) (fun r =>
        match r with
        | Some g => Ok (Some g)
        | None => firstGroup rest
        end)
  end.

(** The loop of [groupOnlyMatches] over [group.Sub], leaving at the first
    sub-tree that fails. *)
Fixpoint allSubs (subs : list Regexp) : Res bool :=
  match subs with
  | [] => Ok true
  | sub :: rest => rbind (only sub) (fun b => if b then allSubs rest else Ok false)
  end.

End Loops.

(** [getCaptureGroup]: [nil] is [None]; [re.Sub[0]] panics on an empty
    [Sub]. *)
Fixpoint getCaptureGroup (re : Regexp) (cgID : Z) {struct re} : Res (option Regexp) :=
  match re with
  | mkRegexp op _ sub _ _ _ cap _ =>
      if Op_eqb op OpCapture && (cap =? cgID) then
        match sub with
        | [] => Panic
        | g :: _ => Ok (Some g)
        end
      else firstGroup (fun s => getCaptureGroup s cgID) sub
  end.

(** [for r := lo; r <= hi; r++ { if !strings.ContainsRune(s, r) { return false } }]
    (runes of a tree are at most [unicode.MaxRune], so [r++] does not wrap). *)
Definition rangeOnly (lo hi : Z) (s : list Z) : bool :=
  forallb (ContainsRune s) (seqZ lo (hi - lo + 1)).

(** The [OpCharClass] loop: [group.Rune] holds pairs [lo, hi];
    [group.Rune[i+1]] panics on an odd length. *)
Fixpoint classOnly (rs : list Z) (s : list Z) : Res bool :=
  match rs with
  | [] => Ok true
  | [_] => Panic
  | lo :: hi :: rest => if rangeOnly lo hi s then classOnly rest s else Ok false
  end.

(** [groupOnlyMatches] *)
Fixpoint groupOnlyMatches (group : Regexp) (s : list Z) {struct group} : Res bool :=
  match group with
  | mkRegexp op _ sub rune _ _ _ _ =>
      match op with
      | OpLiteral => Ok (forallb (ContainsRune s) rune)
      | OpCharClass => classOnly rune s
      | OpStar | OpPlus | OpRepeat | OpQuest | OpCapture =>
          match sub with
          | [] => Panic
          | g :: _ => groupOnlyMatches g s
          end
      | OpConcat | OpAlternate =>
          allSubs (fun g => groupOnlyMatches g s) sub
      | _ => Ok false
      end
  end.

Section Printer.

(** The [String] method of [syntax.Regexp], the printer of the regexp
    library. *)
Variable RegexpString : Regexp -> list Z.

(** [inferGroupType] *)
Definition inferGroupType (group : Regexp) : Res Ty :=
  rbind (groupOnlyMatches group (runes "+-")) (fun c1 =>
  if c1 then Ok String else
  rbind (groupOnlyMatches group (runes "+-0123456789")) (fun c2 =>
  if c2 then
    if negb (ContainsAny (RegexpString group) (runes "0123456789")) then Ok String
    else if Op_eqb (Op_ group) OpAlternate || Op_eqb (Op_ group) OpCharClass then Ok String
    else Ok Int
  else
  rbind (groupOnlyMatches group (runes "+-0123456789.eE")) (fun c3 =>
  if c3 then
    if 1 <? Count (RegexpString group) 46 then Ok String
    else Ok Float
  else Ok String))).

(** The loop of [InferCaprefType] over the branches of an alternation. *)
Fixpoint lubBranches (fuel : nat) (subType : Ty) (subs : list Regexp) : M Ty :=
  match subs with
  | [] => ret subType
  | sub :: rest =>
      t <- liftRes (inferGroupType sub) ;;
      subType' <- LeastUpperBound fuel subType t ;;
      lubBranches fuel subType' rest
  end.

(** [InferCaprefType] *)
Definition InferCaprefType (fuel : nat) (re : Regexp) (n : Z) : M Ty :=
  group <- liftRes (getCaptureGroup re n) ;;
  match group with
  | None => ret None_
  | Some group =>
      if negb (Op_eqb (Op_ group) OpAlternate) then liftRes (inferGroupType group)
      else lubBranches fuel Undef (Sub group)
  end.

End Printer.


(** *** Notions used to state the inference rules *)

(** Some node of the tree is a capture numbered [n]. *)
Fixpoint hasCapture (re : Regexp) (n : Z) {struct re} : bool :=
  match re with
  | mkRegexp op _ sub _ _ _ cap _ =>
      (Op_eqb op OpCapture && (cap =? n)) || existsb (fun s => hasCapture s n) sub
  end.

(** The shape the regexp parser gives its trees: a class holds pairs, and
    a repetition or a capture has the sub-tree it applies to. *)
Fixpoint wfRegexp (re : Regexp) {struct re} : bool :=
  match re with
  | mkRegexp op _ sub rune _ _ _ _ =>
      match op with
      | OpCharClass => Nat.even (length rune)
      | OpStar | OpPlus | OpQuest | OpRepeat | OpCapture =>
          match sub with [] => false | _ => true end
      | _ => true
      end && forallb wfRegexp sub
  end.

(** "The group matches only the runes of [s]", as the code decides it. *)
Definition only (group : Regexp) (s : list Z) : bool :=
  match groupOnlyMatches group s with
  | Ok b => b
  | _ => false
  end.

Definition signs : list Z := runes "+-".
Definition intRunes : list Z := runes "+-0123456789".
Definition floatRunes : list Z := runes "+-0123456789.eE".
Definition digits : list Z := runes "0123456789".

(** The rules for one group, in words: a group of signs only is a
    [String]; a group of signs and digits whose source shows a digit is an
    [Int], unless it is an alternation or a class; a group over
    [+-0-9.eE] that is not over [+-0-9] and whose source has at most one
    ['.'] is a [Float]; every other group is a [String]. *)
Definition groupTypeRule (source : Regexp -> list Z) (group : Regexp) : Ty :=
  if only group signs then String
  else if only group intRunes then
    if ContainsAny (source group) digits
       && negb (Op_eqb (Op_ group) OpAlternate || Op_eqb (Op_ group) OpCharClass)
    then Int else String
  else if only group floatRunes && (Count (source group) 46 <=? 1) then Float
  else String.

(** The chain [Undef < Int < Float < String] in which the branch types of
    an alternation are joined. *)
Definition rank (t : Ty) : nat :=
  match t with
  | TOperator "Int" [] => 1
  | TOperator "Float" [] => 2
  | TOperator "String" [] => 3
  | _ => 0
  end.

Definition ofRank (n : nat) : Ty :=
  match n with
  | O => Undef
  | 1%nat => Int
  | 2%nat => Float
  | _ => String
  end.

Definition joinTypes (ts : list Ty) : Ty := ofRank (foldr Nat.max O (map rank ts)).

(** *** The regexp library's printer

    A model of [writeRegexp] and [escape] of Go's [regexp/syntax] (the
    library is not part of the repository).  The theorems on inference
    take the printer as a parameter; this model stands for it in the
    closed statements.  It follows the printer that writes every range of
    a class with a dash and each flag group at the node it belongs to;
    later versions of the library leave out the dash between two adjacent
    runes and move flag groups outwards.  [unicode.IsPrint] is taken to
    be the printable ASCII range, so other runes are written in their
    hexadecimal escape. *)

Definition meta : list Z := runes "\.+*?()|[]{}^$".

Definition hexDigit (d : Z) : Z := if d <? 10 then 48 + d else 87 + d.

Fixpoint hexDigits (fuel : nat) (n : Z) (acc : list Z) : list Z :=
  match fuel with
  | O => acc
  | S k =>
      if n <? 16 then hexDigit n :: acc
      else hexDigits k (n / 16) (hexDigit (n mod 16) :: acc)
  end.

Definition IsPrint (r : Z) : bool := (32 <=? r) && (r <=? 126).

Definition escape (r : Z) (force : bool) : list Z :=
  if IsPrint r then
    if ContainsRune meta r || force then [92; r] else [r]
  else if r =? 7 then runes "\a"
  else if r =? 12 then runes "\f"
  else if r =? 10 then runes "\n"
  else if r =? 13 then runes "\r"
  else if r =? 9 then runes "\t"
  else if r =? 11 then runes "\v"
  else if r <? 256 then
    runes "\x" ++ (if r <? 16 then [48] else []) ++ hexDigits 8 r []
  else runes "\x{" ++ hexDigits 8 r [] ++ runes "}".

(** One [lo, hi] pair of a class. *)
Definition writeRange (lo hi : Z) : list Z :=
  escape lo (lo =? 45) ++
  (if negb (lo =? hi) then [45] ++ escape hi (hi =? 45) else []).

Fixpoint writeRanges (rs : list Z) : list Z :=
  match rs with
  | lo :: hi :: rest => writeRange lo hi ++ writeRanges rest
  | _ => []
  end.

(** The gaps of a class that starts at 0 and ends at [unicode.MaxRune]. *)
Fixpoint writeGaps (rs : list Z) : list Z :=
  match rs with
  | lo :: hi :: rest =>
      match rest with
      | [] => []
      | _ => writeRange (lo + 1) (hi - 1) ++ writeGaps rest
      end
  | _ => []
  end.

Definition MaxRune : Z := 1114111.

Definition writeClass (rs : list Z) : list Z :=
  if negb (Z.of_nat (length rs) mod 2 =? 0) then runes "[invalid char class]"
  else
    [91] ++
    (match rs with
     | [] => runes "^\x00-\x{10FFFF}"
     | r0 :: tl =>
         if (r0 =? 0) && (List.last rs 0 =? MaxRune) && (2 <? Z.of_nat (length rs))
         then [94] ++ writeGaps tl
         else writeRanges rs
     end) ++ [93].

Definition needsGroup (sub : Regexp) : bool :=
  match Op_ sub with
  | OpStar | OpPlus | OpQuest | OpRepeat | OpConcat | OpAlternate => true
  | OpLiteral => (1 <? length (Rune sub))%nat
  | _ => false
  end.

Definition hasFlag (flags bit : Z) : bool := negb (Z.land flags bit =? 0).

Definition WasDollar : Z := 256.

Fixpoint writeRegexp (re : Regexp) {struct re} : list Z :=
  match re with
  | mkRegexp op flags sub rune min max cap name =>
      match op with
      | OpNoMatch => runes "[^\x00-\x{10FFFF}]"
      | OpEmptyMatch => runes "(?:)"
      | OpLiteral =>
          (if hasFlag flags FoldCase then runes "(?i:" else []) ++
          flat_map (fun r => escape r false) rune ++
          (if hasFlag flags FoldCase then runes ")" else [])
      | OpCharClass => writeClass rune
      | OpAnyCharNotNL => runes "(?-s:.)"
      | OpAnyChar => runes "(?s:.)"
      | OpBeginLine => runes "(?m:^)"
      | OpEndLine => runes "(?m:$)"
      | OpBeginText => runes "\A"
      | OpEndText => if hasFlag flags WasDollar then runes "(?-m:$)" else runes "\z"
      | OpWordBoundary => runes "\b"
      | OpNoWordBoundary => runes "\B"
      | OpCapture =>
          (match name with
           | [] => [40]
           | _ => runes "(?P<" ++ name ++ [62]
           end) ++
          (match sub with
           | g :: _ =>
               match Op_ g with
               | OpEmptyMatch => []
               | _ => writeRegexp g
               end
           | [] => []
           end) ++ [41]
      | OpStar | OpPlus | OpQuest | OpRepeat =>
          (match sub with
           | g :: _ =>
               if needsGroup g then runes "(?:" ++ writeRegexp g ++ [41]
               else writeRegexp g
           | [] => []
           end) ++
          (match op with
           | OpStar => [42]
           | OpPlus => [43]
           | OpQuest => [63]
           | _ =>
               [123] ++ runes (pretty min) ++
               (if negb (max =? min)
                then [44] ++ (if 0 <=? max then runes (pretty max) else [])
                else []) ++ [125]
           end) ++
          (if hasFlag flags NonGreedy then [63] else [])
      | OpConcat =>
          (fix loop (subs : list Regexp) : list Z :=
             match subs with
             | [] => []
             | g :: rest =>
                 (match Op_ g with
                  | OpAlternate => runes "(?:" ++ writeRegexp g ++ [41]
                  | _ => writeRegexp g
                  end) ++ loop rest
             end) sub
      | OpAlternate =>
          (fix loop (i : nat) (subs : list Regexp) : list Z :=
             match subs with
             | [] => []
             | g :: rest =>
                 (match i with O => [] | _ => [124] end) ++
                 writeRegexp g ++ loop (S i) rest
             end) O sub
      end
  end.

Definition syntaxString (re : Regexp) : list Z := writeRegexp re.

(** *** Which strings a tree matches

    The language of a tree, as the matcher of the regexp library decides
    it.  A literal is matched rune by rune; with the flag [FoldCase] a
    rune of the literal also matches the runes of its case-folding orbit,
    which the matcher walks with [unicode.SimpleFold].  The flag has no
    effect on a class: the parser has already added the folded ranges to
    it.  An assertion of width zero ([^], [$], [\b], ...) matches the
    empty string where the text around it allows; the relation leaves
    that condition out, so it holds of every string the library
    matches. *)

(** [r] lies in one of the [lo, hi] pairs. *)
Fixpoint inClass (rs : list Z) (r : Z) : Prop :=
  match rs with
  | lo :: hi :: rest => (lo <= r <= hi) \/ inClass rest r
  | _ => False
  end.

Section Matching.

(** [unicode.SimpleFold]: the next rune of the case-folding orbit. *)
Variable SimpleFold : Z -> Z.

(** [c] is reached from [r0] by steps of [SimpleFold]. *)
Definition foldsTo (r0 c : Z) : Prop := exists k, Nat.iter k SimpleFold r0 = c.

(** The rune [c] matches the rune [r0] of a literal with the flags
    [flags]. *)
Definition runeMatches (flags : Z) (r0 c : Z) : Prop :=
  c = r0 \/ (hasFlag flags FoldCase = true /\ foldsTo r0 c).

Inductive matches : Regexp -> list Z -> Prop :=
| matches_literal re w :
    Op_ re = OpLiteral -> Forall2 (runeMatches (Flags re)) (Rune re) w ->
    matches re w
| matches_class re r :
    Op_ re = OpCharClass -> inClass (Rune re) r -> matches re [r]
| matches_star re g rest ws :
    Op_ re = OpStar -> Sub re = g :: rest ->
    Forall (matches g) ws -> matches re (concat ws)
| matches_plus re g rest ws :
    Op_ re = OpPlus -> Sub re = g :: rest -> ws <> [] ->
    Forall (matches g) ws -> matches re (concat ws)
| matches_quest_none re :
    Op_ re = OpQuest -> matches re []
| matches_quest_some re g rest w :
    Op_ re = OpQuest -> Sub re = g :: rest -> matches g w -> matches re w
| matches_repeat re g rest ws :
    Op_ re = OpRepeat -> Sub re = g :: rest ->
    Min re <= Z.of_nat (length ws) ->
    (Max re = -1 \/ Z.of_nat (length ws) <= Max re) ->
    Forall (matches g) ws -> matches re (concat ws)
| matches_capture re g rest w :
    Op_ re = OpCapture -> Sub re = g :: rest -> matches g w -> matches re w
| matches_concat re ws :
    Op_ re = OpConcat -> Forall2 matches (Sub re) ws -> matches re (concat ws)
| matches_alternate re g w :
    Op_ re = OpAlternate -> In g (Sub re) -> matches g w -> matches re w
| matches_empty re :
    Op_ re = OpEmptyMatch -> matches re []
| matches_any re r :
    Op_ re = OpAnyChar -> matches re [r]
| matches_any_not_nl re r :
    Op_ re = OpAnyCharNotNL -> r <> 10 -> matches re [r]
| matches_assertion re :
    Op_ re = OpBeginLine \/ Op_ re = OpEndLine \/ Op_ re = OpBeginText \/
    Op_ re = OpEndText \/ Op_ re = OpWordBoundary \/ Op_ re = OpNoWordBoundary ->
    matches re [].

(** "The group matches only the runes of [s]": every string the group
    matches is made of runes of [s]. *)
Definition matchesOnly (group : Regexp) (s : list Z) : Prop :=
  forall w, matches group w -> Forall (fun r => r ∈ s) w.

(** Case folding does not lead out of [s]. *)
Definition foldsWithin (s : list Z) : Prop := forall r, r ∈ s -> SimpleFold r ∈ s.

End Matching.

(** [unicode.SimpleFold] on the orbits of the ASCII runes: a letter and
    its other case, with the Kelvin sign in the orbit of [k] and the long
    s in that of [s].  On the other runes, where the library has its
    tables, this is the identity; it stands for the library in closed
    statements on ASCII patterns. *)
Definition asciiFold (r : Z) : Z :=
  if r =? 75 then 107
  else if r =? 107 then 8490
  else if r =? 8490 then 75
  else if r =? 83 then 115
  else if r =? 115 then 383
  else if r =? 383 then 83
  else if (65 <=? r) && (r <=? 90) then r + 32
  else if (97 <=? r) && (r <=? 122) then r - 32
  else r.

(** *** The trees the rules are stated for *)

(** Some pair of the class holds a rune. *)
Fixpoint classInhabited (rs : list Z) : bool :=
  match rs with
  | lo :: hi :: rest => (lo <=? hi) || classInhabited rest
  | _ => false
  end.

Definition nonEmpty {A} (l : list A) : bool :=
  match l with [] => false | _ => true end.

(** A tree built from literals, classes that hold a rune, repetitions
    that admit at least one round, captures, concatenations and
    alternations with at least one branch: the trees on which every
    rune written in the tree occurs in some string the tree matches. *)
Fixpoint plain (re : Regexp) {struct re} : bool :=
  match re with
  | mkRegexp op _ sub rune mn mx _ _ =>
      match op with
      | OpLiteral => true
      | OpCharClass => Nat.even (length rune) && classInhabited rune
      | OpStar | OpPlus | OpQuest | OpCapture => nonEmpty sub && forallb plain sub
      | OpRepeat =>
          nonEmpty sub && forallb plain sub &&
          ((mx =? -1) || ((1 <=? mx) && (mn <=? mx)))
      | OpConcat => forallb plain sub
      | OpAlternate => nonEmpty sub && forallb plain sub
      | _ => false
      end
  end.

(** A number of rounds that a repetition of a plain tree admits. *)
Definition rounds (mn mx : Z) : nat :=
  Z.to_nat (if mx =? -1 then Z.max mn 1 else mx).

(** A tree in which the operators are literals, classes, repetitions,
    captures, concatenations and alternations, at the root and below,
    down the sub-tree a repetition or capture applies to and down every
    sub-tree of a concatenation or alternation.  Where this fails the
    group holds another operator: an assertion, [.], the empty
    match. *)
Fixpoint composed (re : Regexp) {struct re} : bool :=
  match re with
  | mkRegexp op _ sub _ _ _ _ _ =>
      match op with
      | OpLiteral | OpCharClass => true
      | OpStar | OpPlus | OpQuest | OpRepeat | OpCapture =>
          match sub with
          | g :: _ => composed g
          | [] => true
          end
      | OpConcat | OpAlternate => forallb composed sub
      | _ => false
      end
  end.

Section Rules.

Variable SimpleFold : Z -> Z.
Variable source : Regexp -> list Z.

(** The rules of the specification for one group, with "matches only" read
    as [matchesOnly]: a group that holds another operator is a [String];
    a group that matches only signs is a [String]; a group that matches
    only signs and digits is an [Int] when its source shows a digit and
    it is neither an alternation nor a class, and a [String] otherwise; a
    group that matches only runes of [+-0-9.eE], and not only signs and
    digits, is a [Float] when its source has at most one ['.'], and a
    [String] otherwise; every other group is a [String]. *)
Inductive typed : Regexp -> Ty -> Prop :=
| typed_other g :
    composed g = false -> typed g String
| typed_signs g :
    plain g = true -> matchesOnly SimpleFold g signs -> typed g String
| typed_Int g :
    plain g = true -> ~ matchesOnly SimpleFold g signs ->
    matchesOnly SimpleFold g intRunes ->
    ContainsAny (source g) digits = true ->
    Op_ g <> OpAlternate -> Op_ g <> OpCharClass ->
    typed g Int
| typed_Int_String g :
    plain g = true -> ~ matchesOnly SimpleFold g signs ->
    matchesOnly SimpleFold g intRunes ->
    (ContainsAny (source g) digits = false \/
     Op_ g = OpAlternate \/ Op_ g = OpCharClass) ->
    typed g String
| typed_Float g :
    plain g = true -> ~ matchesOnly SimpleFold g intRunes ->
    matchesOnly SimpleFold g floatRunes ->
    Count (source g) 46 <= 1 ->
    typed g Float
| typed_Float_String g :
    plain g = true -> ~ matchesOnly SimpleFold g intRunes ->
    matchesOnly SimpleFold g floatRunes ->
    1 < Count (source g) 46 ->
    typed g String
| typed_String g :
    plain g = true -> ~ matchesOnly SimpleFold g floatRunes ->
    typed g String.

End Rules.

(** *** Reading a captured string as an integer

    A model of [strconv.ParseInt(s, 10, 64)]: an optional sign, then one or
    more decimal digits, and the value must fit in 64 bits.  [None] is the
    error return. *)
Fixpoint parseDigits (s : list Z) (acc : Z) : option Z :=
  match s with
  | [] => Some acc
  | c :: rest =>
      if (48 <=? c) && (c <=? 57) then parseDigits rest (10 * acc + (c - 48))
      else None
  end.

Definition ParseUint10 (s : list Z) : option Z :=
  match s with
  | [] => None
  | _ => parseDigits s 0
  end.

Definition ParseInt10 (s : list Z) : option Z :=
  match s with
  | [] => None
  | c :: rest =>
      let neg := c =? 45 in
      let body := if (c =? 43) || (c =? 45) then rest else s in
      match ParseUint10 body with
      | None => None
      | Some n =>
          if neg then (if n <=? 2 ^ 63 then Some (- n) else None)
          else (if n <? 2 ^ 63 then Some n else None)
      end
  end.

(** The nodes of a tree, parents before their sub-trees, left to right. *)
Fixpoint preorder (re : Regexp) {struct re} : list Regexp :=
  match re with
  | mkRegexp _ _ sub _ _ _ _ _ => re :: concat (map preorder sub)
  end.

(** The body of [c] when [c] is a capture numbered [n]. *)
Definition captured (n : Z) (c : Regexp) : option Regexp :=
  if Op_eqb (Op_ c) OpCapture && (Cap c =? n) then head (Sub c) else None.

End Capref.

(** ** The expression grammar of [parser.y] *)

Module Grammar.

(** The tokens declared with [%token]; a token carries the field of
    [%union] it is typed with.  A [float64] payload is kept as its bit
    pattern: the grammar only moves it into the tree. *)
Inductive token : Type :=
| INVALID (text : string)
| COUNTER | GAUGE | TIMER | TEXT | HISTOGRAM
| AFTER | AS | BY | CONST | HIDDEN | DEF | DEL | NEXT | OTHERWISE | ELSE
| STOP | BUCKETS
| BUILTIN (text : string)
| REGEX (text : string)
| STRING (text : string)
| CAPREF (text : string)
| CAPREF_NAMED (text : string)
| ID (text : string)
| DECO (text : string)
| INTLITERAL (intVal : Z)
| FLOATLITERAL (floatVal : Z)
| DURATIONLITERAL (duration : Z)
| INC | DEC
| DIV | MOD | MUL | MINUS | PLUS | POW
| SHL | SHR
| LT | GT | LE | GE | EQ | NE
| BITAND | XOR | BITOR | NOT | AND | OR
| ADD_ASSIGN | ASSIGN
| CONCAT
| MATCH | NOT_MATCH
| LCURLY | RCURLY | LPAREN | RPAREN | LSQUARE | RSQUARE
| COMMA
| NL.

(** The nodes of package [ast] that the expression productions build.
    Source positions ([tokenpos], [markedpos]) are left out: they do not
    bear on the shape of the tree.  The [Op] of a node is the operator
    token. *)
Inductive Node : Type :=
| BinaryExpr (Lhs Rhs : Node) (Op : token)
| UnaryExpr (Expr : Node) (Op : token)
| IndexedExpr (Lhs Index : Node)
| ExprList (Children : list Node)
| BuiltinExpr (Name : string) (Args : option Node)
| CaprefTerm (Name : string) (IsNamed : bool)
| StringLit (Text : string)
| IntLit (I : Z)
| FloatLit (F : Z)
| IdTerm (Name : string)
| PatternExpr (Expr : Node)
| PatternLit (Pattern : string).

Inductive nonterminal : Type :=
| expr | assign_expr | logical_expr | bitwise_expr | rel_expr | shift_expr
| additive_expr | match_expr | implicit_match_expr | pattern_expr
| concat_expr | multiplicative_expr | unary_expr | postfix_expr
| primary_expr | indexed_expr | id_expr | arg_expr_list | regex_pattern.

(** The operator classes: [logical_op], [bitwise_op], [rel_op],
    [shift_op], [add_op], [mul_op], [match_op], [postfix_op]. *)
Definition logical_op (t : token) : bool :=
  match t with AND | OR => true | _ => false end.
Definition bitwise_op (t : token) : bool :=
  match t with BITAND | BITOR | XOR => true | _ => false end.
Definition rel_op (t : token) : bool :=
  match t with LT | GT | LE | GE | EQ | NE => true | _ => false end.
Definition shift_op (t : token) : bool :=
  match t with SHL | SHR => true | _ => false end.
Definition add_op (t : token) : bool :=
  match t with PLUS | MINUS => true | _ => false end.
Definition mul_op (t : token) : bool :=
  match t with MUL | DIV | MOD | POW => true | _ => false end.
Definition match_op (t : token) : bool :=
  match t with MATCH | NOT_MATCH => true | _ => false end.
Definition postfix_op (t : token) : bool :=
  match t with INC | DEC => true | _ => false end.

(** [opt_nl : /* empty */ | NL] *)
Inductive opt_nl : list token -> Prop :=
| opt_nl_empty : opt_nl []
| opt_nl_NL : opt_nl [NL].

(** [derives X ts n]: the nonterminal [X] derives the token string [ts],
    and the semantic actions of the productions used build the node [n].
    One constructor per production; the marker nonterminals [mark_pos] and
    [in_regex] derive the empty string. *)
Inductive derives : nonterminal -> list token -> Node -> Prop :=
(* expr *)
| expr_assign ts n :
    derives assign_expr ts n -> derives expr ts n
| expr_postfix ts n :
    derives postfix_expr ts n -> derives expr ts n
(* assign_expr *)
| assign_ASSIGN t1 n1 nl t4 n4 :
    derives unary_expr t1 n1 -> opt_nl nl -> derives logical_expr t4 n4 ->
    derives assign_expr (t1 ++ ASSIGN :: nl ++ t4) (BinaryExpr n1 n4 ASSIGN)
| assign_ADD_ASSIGN t1 n1 nl t4 n4 :
    derives unary_expr t1 n1 -> opt_nl nl -> derives logical_expr t4 n4 ->
    derives assign_expr (t1 ++ ADD_ASSIGN :: nl ++ t4) (BinaryExpr n1 n4 ADD_ASSIGN)
(* logical_expr *)
| logical_bitwise ts n :
    derives bitwise_expr ts n -> derives logical_expr ts n
| logical_match ts n :
    derives match_expr ts n -> derives logical_expr ts n
| logical_op_bitwise t1 n1 op nl t4 n4 :
    derives logical_expr t1 n1 -> logical_op op = true -> opt_nl nl ->
    derives bitwise_expr t4 n4 ->
    derives logical_expr (t1 ++ op :: nl ++ t4) (BinaryExpr n1 n4 op)
| logical_op_match t1 n1 op nl t4 n4 :
    derives logical_expr t1 n1 -> logical_op op = true -> opt_nl nl ->
    derives match_expr t4 n4 ->
    derives logical_expr (t1 ++ op :: nl ++ t4) (BinaryExpr n1 n4 op)
(* bitwise_expr *)
| bitwise_rel ts n :
    derives rel_expr ts n -> derives bitwise_expr ts n
| bitwise_op_rel t1 n1 op nl t4 n4 :
    derives bitwise_expr t1 n1 -> bitwise_op op = true -> opt_nl nl ->
    derives rel_expr t4 n4 ->
    derives bitwise_expr (t1 ++ op :: nl ++ t4) (BinaryExpr n1 n4 op)
(* rel_expr *)
| rel_shift ts n :
    derives shift_expr ts n -> derives rel_expr ts n
| rel_op_shift t1 n1 op nl t4 n4 :
    derives rel_expr t1 n1 -> rel_op op = true -> opt_nl nl ->
    derives shift_expr t4 n4 ->
    derives rel_expr (t1 ++ op :: nl ++ t4) (BinaryExpr n1 n4 op)
(* shift_expr *)
| shift_additive ts n :
    derives additive_expr ts n -> derives shift_expr ts n
| shift_op_additive t1 n1 op nl t4 n4 :
    derives shift_expr t1 n1 -> shift_op op = true -> opt_nl nl ->
    derives additive_expr t4 n4 ->
    derives shift_expr (t1 ++ op :: nl ++ t4) (BinaryExpr n1 n4 op)
(* additive_expr *)
| additive_multiplicative ts n :
    derives multiplicative_expr ts n -> derives additive_expr ts n
| additive_op_multiplicative t1 n1 op nl t4 n4 :
    derives additive_expr t1 n1 -> add_op op = true -> opt_nl nl ->
    derives multiplicative_expr t4 n4 ->
    derives additive_expr (t1 ++ op :: nl ++ t4) (BinaryExpr n1 n4 op)
(* match_expr *)
| match_implicit ts n :
    derives implicit_match_expr ts n -> derives match_expr ts n
| match_op_pattern t1 n1 op nl t4 n4 :
    derives primary_expr t1 n1 -> match_op op = true -> opt_nl nl ->
    derives pattern_expr t4 n4 ->
    derives match_expr (t1 ++ op :: nl ++ t4) (BinaryExpr n1 n4 op)
| match_op_primary t1 n1 op nl t4 n4 :
    derives primary_expr t1 n1 -> match_op op = true -> opt_nl nl ->
    derives primary_expr t4 n4 ->
    derives match_expr (t1 ++ op :: nl ++ t4) (BinaryExpr n1 n4 op)
(* implicit_match_expr *)
| implicit_match_pattern ts n :
    derives pattern_expr ts n ->
    derives implicit_match_expr ts (UnaryExpr n MATCH)
(* pattern_expr *)
| pattern_concat ts n :
    derives concat_expr ts n -> derives pattern_expr ts (PatternExpr n)
(* concat_expr *)
| concat_regex ts n :
    derives regex_pattern ts n -> derives concat_expr ts n
| concat_PLUS_regex t1 n1 nl t4 n4 :
    derives concat_expr t1 n1 -> opt_nl nl -> derives regex_pattern t4 n4 ->
    derives concat_expr (t1 ++ PLUS :: nl ++ t4) (BinaryExpr n1 n4 CONCAT)
| concat_PLUS_id t1 n1 nl t4 n4 :
    derives concat_expr t1 n1 -> opt_nl nl -> derives id_expr t4 n4 ->
    derives concat_expr (t1 ++ PLUS :: nl ++ t4) (BinaryExpr n1 n4 CONCAT)
(* multiplicative_expr *)
| multiplicative_unary ts n :
    derives unary_expr ts n -> derives multiplicative_expr ts n
| multiplicative_op_unary t1 n1 op nl t4 n4 :
    derives multiplicative_expr t1 n1 -> mul_op op = true -> opt_nl nl ->
    derives unary_expr t4 n4 ->
    derives multiplicative_expr (t1 ++ op :: nl ++ t4) (BinaryExpr n1 n4 op)
(* unary_expr *)
| unary_postfix ts n :
    derives postfix_expr ts n -> derives unary_expr ts n
| unary_NOT t2 n2 :
    derives unary_expr t2 n2 -> derives unary_expr (NOT :: t2) (UnaryExpr n2 NOT)
(* postfix_expr *)
| postfix_primary ts n :
    derives primary_expr ts n -> derives postfix_expr ts n
| postfix_op_ t1 n1 op :
    derives postfix_expr t1 n1 -> postfix_op op = true ->
    derives postfix_expr (t1 ++ [op]) (UnaryExpr n1 op)
(* primary_expr *)
| primary_indexed ts n :
    derives indexed_expr ts n -> derives primary_expr ts n
| primary_BUILTIN name :
    derives primary_expr [BUILTIN name; LPAREN; RPAREN] (BuiltinExpr name None)
| primary_BUILTIN_args name t3 n3 :
    derives arg_expr_list t3 n3 ->
    derives primary_expr (BUILTIN name :: LPAREN :: t3 ++ [RPAREN])
      (BuiltinExpr name (Some n3))
| primary_CAPREF name :
    derives primary_expr [CAPREF name] (CaprefTerm name false)
| primary_CAPREF_NAMED name :
    derives primary_expr [CAPREF_NAMED name] (CaprefTerm name true)
| primary_STRING text :
    derives primary_expr [STRING text] (StringLit text)
| primary_paren t2 n2 :
    derives logical_expr t2 n2 ->
    derives primary_expr (LPAREN :: t2 ++ [RPAREN]) n2
| primary_INTLITERAL v :
    derives primary_expr [INTLITERAL v] (IntLit v)
| primary_FLOATLITERAL v :
    derives primary_expr [FLOATLITERAL v] (FloatLit v)
(* indexed_expr *)
| indexed_id ts n :
    derives id_expr ts n -> derives indexed_expr ts (IndexedExpr n (ExprList []))
| indexed_index t1 lhs idx t3 args :
    derives indexed_expr t1 (IndexedExpr lhs (ExprList idx)) ->
    derives arg_expr_list t3 (ExprList args) ->
    derives indexed_expr (t1 ++ LSQUARE :: t3 ++ [RSQUARE])
      (IndexedExpr lhs (ExprList (idx ++ args)))
(* id_expr *)
| id_ID name :
    derives id_expr [ID name] (IdTerm name)
(* arg_expr_list *)
| arg_first ts n :
    derives bitwise_expr ts n -> derives arg_expr_list ts (ExprList [n])
| arg_more t1 children t3 n3 :
    derives arg_expr_list t1 (ExprList children) -> derives bitwise_expr t3 n3 ->
    derives arg_expr_list (t1 ++ COMMA :: t3) (ExprList (children ++ [n3]))
(* regex_pattern *)
| regex_pattern_lit text :
    derives regex_pattern [DIV; REGEX text; DIV] (PatternLit text).

(** A node [BinaryExpr] built by the logical productions whose operand
    is itself an [&&] node, somewhere in the tree: the shape the
    precedence [||] below [&&] would give to [a || b && c]. *)
Definition isAndNode (n : Node) : bool :=
  match n with BinaryExpr _ _ AND => true | _ => false end.

Fixpoint andUnderOr (n : Node) {struct n} : bool :=
  match n with
  | BinaryExpr l r op =>
      (match op with OR => isAndNode l || isAndNode r | _ => false end)
      || andUnderOr l || andUnderOr r
  | UnaryExpr e _ => andUnderOr e
  | IndexedExpr l i => andUnderOr l || andUnderOr i
  | ExprList cs => existsb andUnderOr cs
  | BuiltinExpr _ (Some a) => andUnderOr a
  | PatternExpr e => andUnderOr e
  | _ => false
  end.

(** Nonterminals below [logical_expr]. *)
Definition lower (x : nonterminal) : bool :=
  match x with expr | assign_expr | logical_expr => false | _ => true end.

(** Tokens that open a bracketed sub-expression. *)
Definition bracket (t : token) : bool :=
  match t with LPAREN | LSQUARE => true | _ => false end.

(** The nonterminals an operand of a logical operator is derived from:
    the right-hand sides [logical_expr logical_op opt_nl bitwise_expr]
    and [logical_expr logical_op opt_nl match_expr]. *)
Definition operand (x : nonterminal) : bool :=
  match x with bitwise_expr | match_expr => true | _ => false end.

(** Reading a token string from the left with the number [d] of brackets
    that are open: the number open at its end, and whether a logical
    operator stands outside every bracket. *)
Fixpoint depthAfter (d : nat) (ts : list token) : nat :=
  match ts with
  | [] => d
  | t :: rest =>
      match t with
      | LPAREN | LSQUARE => depthAfter (S d) rest
      | RPAREN | RSQUARE => depthAfter (Nat.pred d) rest
      | _ => depthAfter d rest
      end
  end.

Fixpoint topLogical (d : nat) (ts : list token) : bool :=
  match ts with
  | [] => false
  | t :: rest =>
      match t with
      | LPAREN | LSQUARE => topLogical (S d) rest
      | RPAREN | RSQUARE => topLogical (Nat.pred d) rest
      | _ => (match d with O => logical_op t | S _ => false end)
             || topLogical d rest
      end
  end.

(** Some [BinaryExpr] of the tree has a logical operator. *)
Fixpoint hasLogical (n : Node) {struct n} : bool :=
  match n with
  | BinaryExpr l r op => logical_op op || hasLogical l || hasLogical r
  | UnaryExpr e _ => hasLogical e
  | IndexedExpr l i => hasLogical l || hasLogical i
  | ExprList cs => existsb hasLogical cs
  | BuiltinExpr _ (Some a) => hasLogical a
  | PatternExpr e => hasLogical e
  | _ => false
  end.

(** The nonterminals from [unary_expr] down, and from
    [multiplicative_expr] down. *)
Definition unaryLevel (x : nonterminal) : bool :=
  match x with
  | unary_expr | postfix_expr | primary_expr | indexed_expr | id_expr => true
  | _ => false
  end.

Definition mulLevel (x : nonterminal) : bool :=
  match x with multiplicative_expr => true | _ => unaryLevel x end.

(** The tokens that separate the operands of an arithmetic operator. *)
Definition arith (t : token) : bool :=
  match t with NL => true | _ => mul_op t || add_op t end.

End Grammar.

(** ** The fuzzing entry point *)

(** [Fuzz] of package [runtime] cuts its input at the first separator into
    the text of a program and the log lines to run it on.  The compiler
    and the virtual machine it then calls are not part of this
    development; what is embedded is the cut: the slices [data[:offset]]
    and [data[offset+len(SEP):]]. *)
Module Fuzz.

(** [const SEP]: U+2424 in UTF-8. *)
Definition SEP : list Byte.byte := [Byte.xe2; Byte.x90; Byte.xa4].

(** [bytes.HasPrefix] *)
Fixpoint HasPrefix (s prefix : list Byte.byte) {struct prefix} : bool :=
  match prefix, s with
  | [], _ => true
  | _ :: _, [] => false
  | p :: prefix', b :: s' => Byte.eqb b p && HasPrefix s' prefix'
  end.

(** [bytes.Index]: the index of the first instance of [sep] in [s], or -1. *)
Fixpoint Index (s sep : list Byte.byte) : Z :=
  if HasPrefix s sep then 0
  else
    match s with
    | [] => -1
    | _ :: s' => let i := Index s' sep in if i <? 0 then -1 else i + 1
    end.

(** The first statements of [Fuzz]: [offset], and [data] with the
    separator appended when it holds none. *)
Definition cut (data : list Byte.byte) : Z * list Byte.byte :=
  let offset := Index data SEP in
  if offset <? 0 then (Z.of_nat (length data), data ++ SEP) else (offset, data).

(** [data[:offset]], the program handed to the compiler. *)
Definition program (data : list Byte.byte) : list Byte.byte :=
  let '(offset, data) := cut data in take (Z.to_nat offset) data.

(** [data[offset+len(SEP):]], the log lines handed to the scanner. *)
Definition input (data : list Byte.byte) : list Byte.byte :=
  let '(offset, data) := cut data in
  drop (Z.to_nat (offset + Z.of_nat (length SEP))) data.

End Fuzz.

(** ** Concrete inputs used by the closed statements below *)

Module Examples.
Import Types syntax Capref Grammar Fuzz.

(** Two unbound variables with distinct ids. *)
Definition heapTwo : heap :=
  {[ 1%nat := mkVariable 0 None; 2%nat := mkVariable 1 None ]}.

(** A chain: variable 3 is bound to variable 2, which is bound to the
    unbound variable 1. *)
Definition heapChain : heap :=
  {[ 1%nat := mkVariable 10 None;
     2%nat := mkVariable 11 (Some (TVariable 1));
     3%nat := mkVariable 12 (Some (TVariable 2)) ]}.

(** Variable 1 is unbound, variable 2 is bound to [Int]. *)
Definition heapBound : heap :=
  {[ 1%nat := mkVariable 10 None; 2%nat := mkVariable 11 (Some Int) ]}.

(** One unbound variable. *)
Definition heapOne : heap := {[ 1%nat := mkVariable 0 None ]}.

(** Variable 1 is bound to a type error, variable 2 is unbound. *)
Definition heapError : heap :=
  {[ 1%nat := mkVariable 10 (Some (mismatch Int None_));
     2%nat := mkVariable 11 None ]}.

(** Builders of [syntax.Regexp] trees, as the regexp parser lays them
    out. *)
Definition lit (s : string) : Regexp := mkRegexp OpLiteral 0 [] (runes s) 0 0 0 [].
Definition cls (rs : list Z) : Regexp := mkRegexp OpCharClass 0 [] rs 0 0 0 [].
Definition star (g : Regexp) : Regexp := mkRegexp OpStar 0 [g] [] 0 0 0 [].
Definition plus (g : Regexp) : Regexp := mkRegexp OpPlus 0 [g] [] 0 0 0 [].
Definition cap (n : Z) (g : Regexp) : Regexp := mkRegexp OpCapture 0 [g] [] 0 0 n [].
Definition cat (gs : list Regexp) : Regexp := mkRegexp OpConcat 0 gs [] 0 0 0 [].
Definition alt (gs : list Regexp) : Regexp := mkRegexp OpAlternate 0 gs [] 0 0 0 [].

(** [\d] is the class [0-9]. *)
Definition digit : Regexp := cls [48; 57].

(** The patterns [bytes=(D+)], [(D* )], [(D+)] and [(\+)], with [D] for a
    decimal digit. *)
Definition reBytes : Regexp := cat [lit "bytes="; cap 1 (plus digit)].
Definition reDigitsStar : Regexp := cap 1 (star digit).
Definition reDigitsPlus : Regexp := cap 1 (plus digit).
Definition rePlusSign : Regexp := cap 1 (lit "+").

(** The tree of [(?i)(1e5)]: the parser keeps the least rune of each
    folding orbit and sets the flag [FoldCase]. *)
Definition reFold : Regexp :=
  cap 1 (mkRegexp OpLiteral FoldCase [] (runes "1E5") 0 0 0 []).

(** The pattern [(D+\b)]: digits up to a word boundary. *)
Definition reDigitsBoundary : Regexp :=
  cap 1 (cat [plus digit; mkRegexp OpWordBoundary 0 [] [] 0 0 0 []]).

(** The patterns [(D+|x+)] and [(x+|D+)]. *)
Definition reDigitsOrX : Regexp := cap 1 (alt [plus digit; plus (lit "x")]).
Definition reXOrDigits : Regexp := cap 1 (alt [plus (lit "x"); plus digit]).

(** The tokens of [a || b && c] and the identifier nodes. *)
Definition tokensOrAnd : list token := [ID "a"; OR; ID "b"; AND; ID "c"].
Definition ident (name : string) : Node := IndexedExpr (IdTerm name) (ExprList []).

(** The operands of [m[k] || /re/ &&] newline [(x || y)]: an indexed
    identifier, a pattern and an expression in parentheses. *)
Definition tokensIndexed : list token := [ID "m"; LSQUARE; ID "k"; RSQUARE].
Definition nodeIndexed : Node := IndexedExpr (IdTerm "m") (ExprList [ident "k"]).
Definition tokensPattern : list token := [DIV; REGEX "re"; DIV].
Definition nodePattern : Node := UnaryExpr (PatternExpr (PatternLit "re")) MATCH.
Definition tokensParen : list token := [LPAREN; ID "x"; OR; ID "y"; RPAREN].
Definition nodeParen : Node := BinaryExpr (ident "x") (ident "y") OR.

(** The bytes of the program text [a] and of the log text [b]. *)
Definition bytesA : list Byte.byte := [Byte.x61].
Definition bytesB : list Byte.byte := [Byte.x62].

End Examples.

(** * Properties *)

Section TypesFacts.
Import Types.
Local Open Scope go_scope.

Lemma path_deterministic (h : heap) t ps r :
  path h t ps r -> forall ps' r', path h t ps' r' -> ps = ps' /\ r = r'.
Proof.
  induction 1 as [| |p c Hc Hi|p c i ps r Hc Hi _ IH]; intros ps' r' H';
    inversion H' as [| |p' c' Hc' Hi'|p' c' i' ps0 r0 Hc' Hi' Hp']; subst;
    auto; try congruence.
  assert (i' = i) as -> by congruence.
  destruct (IH _ _ Hp') as [-> ->]. auto.
Qed.

Lemma path_root (h : heap) t ps r : path h t ps r -> path h r [] r.
Proof. induction 1; eauto using path. Qed.

Lemma compress_lookup_notin ps r (h : heap) q :
  q ∉ ps -> compress ps r h !! q = h !! q.
Proof.
  induction ps as [|p ps IH]; simpl; [reflexivity|].
  intros Hq. apply not_elem_of_cons in Hq as [Hne Hq].
  destruct (compress ps r h !! p) eqn:E; [rewrite lookup_insert_ne by auto|]; auto.
Qed.

Lemma compress_lookup ps r (h : heap) q :
  compress ps r h !! q =
    if bool_decide (q ∈ ps)
    then (fun c => mkVariable (ID c) (Some r)) <$> h !! q
    else h !! q.
Proof.
  induction ps as [|p ps IH]; simpl.
  - reflexivity.
  - destruct (decide (q = p)) as [->|Hne].
    + rewrite bool_decide_eq_true_2 by (left).
      destruct (compress ps r h !! p) as [c|] eqn:E.
      * rewrite lookup_insert_eq. rewrite IH in E.
        case_bool_decide; destruct (h !! p); simplify_eq/=; reflexivity.
      * rewrite E. rewrite IH in E.
        case_bool_decide; destruct (h !! p); simplify_eq/=; reflexivity.
    + assert (bool_decide (q ∈ p :: ps) = bool_decide (q ∈ ps)) as ->.
      { apply bool_decide_ext. rewrite elem_of_cons. tauto. }
      rewrite <- IH.
      destruct (compress ps r h !! p); [rewrite lookup_insert_ne by auto|]; auto.
Qed.

Lemma Root_path k (h : heap) t ps r :
  path h t ps r -> (length ps < k)%nat -> Root k t h = Ok (r, compress ps r h).
Proof.
  intros Hp. revert k.
  induction Hp as [| |p c Hc Hi|p c i ps r Hc Hi Hp IH]; intros k Hk; simpl in *;
    try reflexivity.
  - destruct k; [lia|]. simpl. unfold bind, load. rewrite Hc, Hi. reflexivity.
  - destruct k as [|k]; [lia|]. simpl. unfold bind at 1, load. rewrite Hc, Hi.
    assert (Root k i h = Ok (r, compress ps r h)) as HR by (apply IH; lia).
    unfold bind at 1.
    replace (match i with TVariable q => VariableRoot k q | _ => ret i end) with (Root k i)
      by (destruct i; reflexivity).
    rewrite HR. unfold bind, SetInstance.
    rewrite compress_lookup.
    case_bool_decide; rewrite Hc; simpl; reflexivity.
Qed.

Lemma path_set (h : heap) q c ps r c' :
  h !! q = Some c -> Instance c <> None -> path h (TVariable q) ps r ->
  Instance c' = Some r ->
  forall u qs ru, path h u qs ru ->
    exists qs', path (<[q := c']> h) u qs' ru /\ (length qs' <= length qs)%nat.
Proof.
  intros Hq Hb Hp Hc' u qs ru Hu.
  induction Hu as [| |p cp Hcp Hi|p cp i qs ru Hcp Hi Hu IH].
  - exists []. split; [constructor | reflexivity].
  - exists []. split; [constructor | reflexivity].
  - exists []. split; [|reflexivity].
    apply path_unbound with cp; [|exact Hi].
    rewrite lookup_insert_ne; [exact Hcp|]. intros ->. congruence.
  - destruct (decide (p = q)) as [->|Hne].
    + assert (ru = r) as ->.
      { eapply path_deterministic; [|exact Hp]. eapply path_bound; eauto. }
      exists [q]. split; [|simpl; lia].
      apply path_bound with c' r; [apply lookup_insert_eq | exact Hc' |].
      pose proof (path_root _ _ _ _ Hp) as Hr.
      inversion Hr as [| |z cz Hcz Hiz|]; subst; try constructor.
      apply path_unbound with cz; [|exact Hiz].
      rewrite lookup_insert_ne; [exact Hcz|]. intros ->. congruence.
    + destruct IH as [qs' [IH Hlen]].
      exists (p :: qs'). split; [|simpl; lia].
      apply path_bound with cp i; [|exact Hi|exact IH].
      rewrite lookup_insert_ne by auto. exact Hcp.
Qed.

Lemma path_compress (h : heap) t ps r :
  path h t ps r ->
  forall u qs ru, path h u qs ru ->
    exists qs', path (compress ps r h) u qs' ru /\ (length qs' <= length qs)%nat.
Proof.
  induction 1 as [| |p c Hc Hi|p c i ps r Hc Hi Hp IH]; intros u qs ru Hu;
    try (exists qs; split; [exact Hu | reflexivity]).
  destruct (IH u qs ru Hu) as [qs1 [Hu1 Hlen1]].
  destruct (IH (TVariable p) (p :: ps) r) as [qp [Hp1 _]];
    [eapply path_bound; eauto|].
  assert (exists c1, compress ps r h !! p = Some c1 /\ Instance c1 <> None)
    as [c1 [Hc1 Hb1]].
  { rewrite compress_lookup, Hc. case_bool_decide; simpl; eexists; split; eauto;
      simpl; congruence. }
  simpl. rewrite Hc1.
  destruct (path_set _ p c1 qp r (mkVariable (ID c1) (Some r)) Hc1 Hb1 Hp1 eq_refl
              u qs1 ru Hu1) as [qs2 [Hu2 Hlen2]].
  exists qs2. split; [exact Hu2 | lia].
Qed.

(** C9.  [Root] on a variable returns the representative of its instance
    chain and compresses the path.  For a variable [p] of the heap: if [p]
    is unbound, [Root] returns [p] itself and leaves the heap as it is;
    if [p] is bound to [i], and the chain from [i] passes the variables
    [ps] and ends at [r], then (with more fuel than the chain is long)
    [Root] returns [r], which is also what [Root] of [i] returns; [r] is
    its own root afterwards; [Instance] of [p] and of every variable of
    the chain is [r]; every cell keeps its [ID], and the other cells are
    untouched. *)
Theorem Root_returns_representative_and_compresses (h : heap) p c :
  h !! p = Some c ->
  (Instance c = None ->
   forall k, Root (S k) (TVariable p) h = Ok (TVariable p, h)) /\
  (forall i ps r,
     Instance c = Some i -> path h i ps r ->
     forall k, (length ps < k)%nat ->
     exists h',
       Root (S k) (TVariable p) h = Ok (r, h') /\
       (exists hi, Root k i h = Ok (r, hi)) /\
       path h' r [] r /\
       (forall q cq, q ∈ p :: ps -> h !! q = Some cq ->
                     h' !! q = Some (mkVariable (ID cq) (Some r))) /\
       (forall q, q ∉ p :: ps -> h' !! q = h !! q)).
Proof.
  intros Hc. split.
  - intros Hi k. simpl. unfold bind, load. rewrite Hc, Hi. reflexivity.
  - intros i ps r Hi Hp k Hk.
    assert (path h (TVariable p) (p :: ps) r) as Hpp by (eapply path_bound; eauto).
    exists (compress (p :: ps) r h). split; [apply Root_path; simpl; [exact Hpp|lia]|].
    split; [eexists; apply Root_path; eauto|].
    split.
    { destruct (path_compress _ _ _ _ Hpp r [] r (path_root _ _ _ _ Hpp))
        as [qs [Hr Hlen]].
      destruct qs; [exact Hr | simpl in Hlen; lia]. }
    split.
    + intros q cq Hq Hcq. rewrite compress_lookup, bool_decide_eq_true_2 by exact Hq.
      rewrite Hcq. reflexivity.
    + intros q Hq. apply compress_lookup_notin. exact Hq.
Qed.

Ltac each_builtin H :=
  unfold builtins in H;
  repeat (apply elem_of_cons in H as [->|H]);
  [ .. | apply elem_of_nil in H; destruct H ].

Lemma joinRoots_builtins k (h : heap) a b x y :
  x ∈ builtins -> y ∈ builtins ->
  joinRoots (S k) a b x y h =
    Ok (match latticeJoin x y with
        | Some t => t
        | None => TTypeError (Some ErrTypeMismatch) (Some a) (Some b)
        end, h).
Proof.
  intros Hx Hy. each_builtin Hx; each_builtin Hy; reflexivity.
Qed.

Lemma latticeJoin_comm x y :
  x ∈ builtins -> y ∈ builtins -> latticeJoin x y = latticeJoin y x.
Proof.
  intros Hx Hy. each_builtin Hx; each_builtin Hy; reflexivity.
Qed.

Lemma shortens_refl h : shortens h h.
Proof. split; [intros u us ru H; exists us; auto | eauto]. Qed.

Lemma shortens_trans h1 h2 h3 : shortens h1 h2 -> shortens h2 h3 -> shortens h1 h3.
Proof.
  intros [P12 I12] [P23 I23]. split.
  - intros u us ru H. destruct (P12 _ _ _ H) as [us2 [H2 L2]].
    destruct (P23 _ _ _ H2) as [us3 [H3 L3]]. exists us3. split; [exact H3 | lia].
  - intros q c H. destruct (I12 _ _ H) as [c2 [H2 E2]].
    destruct (I23 _ _ H2) as [c3 [H3 E3]]. exists c3. split; [exact H3 | congruence].
Qed.

Lemma shortens_root h h' r : shortens h h' -> path h r [] r -> path h' r [] r.
Proof.
  intros [Hs _] Hr. destruct (Hs _ _ _ Hr) as [us [H L]].
  destruct us; [exact H | simpl in L; lia].
Qed.

Lemma shortens_unbound h h' p c :
  shortens h h' -> h !! p = Some c -> Instance c = None ->
  exists c', h' !! p = Some c' /\ Instance c' = None /\ ID c' = ID c.
Proof.
  intros Hs Hc Hi.
  assert (path h' (TVariable p) [] (TVariable p)) as Hr.
  { eapply shortens_root; [exact Hs|]. eapply path_unbound; eauto. }
  inversion Hr as [| |p' c' Hc' Hi'|]; subst.
  destruct Hs as [_ Hs]. destruct (Hs _ _ Hc) as [c2 [Hc2 E]].
  exists c'. repeat split; auto. congruence.
Qed.

Lemma Root_shortens k (h : heap) t ps r :
  path h t ps r -> (length ps < k)%nat ->
  exists h', Root k t h = Ok (r, h') /\ shortens h h'.
Proof.
  intros Hp Hk. exists (compress ps r h). split; [apply Root_path; assumption|].
  split.
  - intros u us ru. apply path_compress with t. exact Hp.
  - intros q c Hc. rewrite compress_lookup, Hc.
    case_bool_decide; simpl; eauto.
Qed.

Lemma LeastUpperBound_roots k (h : heap) a b ps qs a1 b1 :
  path h a ps a1 -> path h b qs b1 ->
  (length ps < k)%nat -> (length qs < k)%nat ->
  exists h', LeastUpperBound k a b h = joinRoots k a b a1 b1 h' /\ shortens h h'.
Proof.
  intros Ha Hb Hk1 Hk2.
  destruct (Root_shortens k h a ps a1 Ha Hk1) as [h1 [R1 S1]].
  destruct (proj1 S1 _ _ _ Hb) as [qs' [Hb1 Lq]].
  destruct (Root_shortens k h1 b qs' b1 Hb1) as [h2 [R2 S2]]; [lia|].
  exists h2. split; [|eapply shortens_trans; eassumption].
  unfold LeastUpperBound, bind. rewrite R1, R2. reflexivity.
Qed.

Lemma VariableRoot_unbound k (h : heap) p c :
  h !! p = Some c -> Instance c = None ->
  VariableRoot (S k) p h = Ok (TVariable p, h).
Proof. intros Hc Hi. simpl. unfold bind, load. rewrite Hc, Hi. reflexivity. Qed.

Lemma unbound_root (h : heap) p :
  path h (TVariable p) [] (TVariable p) ->
  exists c, h !! p = Some c /\ Instance c = None.
Proof. inversion 1; eauto. Qed.

Lemma Equals_vars k (h : heap) p q cp cq :
  h !! p = Some cp -> Instance cp = None ->
  h !! q = Some cq -> Instance cq = None ->
  Equals (S (S k)) (TVariable p) (TVariable q) h = Ok (ID cp =? ID cq, h).
Proof.
  intros Hp Hip Hq Hiq. cbn [Equals Root]. unfold bind.
  rewrite (VariableRoot_unbound k h p cp Hp Hip), (VariableRoot_unbound k h q cq Hq Hiq).
  unfold load, ret. rewrite Hp, Hq. reflexivity.
Qed.

Lemma Equals_op_var k (h : heap) n args q cq :
  h !! q = Some cq -> Instance cq = None ->
  Equals (S (S k)) (TOperator n args) (TVariable q) h = Ok (false, h).
Proof.
  intros Hq Hiq. cbn [Equals Root]. unfold bind, ret.
  rewrite (VariableRoot_unbound k h q cq Hq Hiq). reflexivity.
Qed.

Lemma Equals_var_op k (h : heap) p cp n :
  h !! p = Some cp -> Instance cp = None ->
  Equals (S (S (S (S k)))) (TVariable p) (TOperator n []) h = Ok (false, h).
Proof.
  intros Hp Hip. cbn [Equals Root]. unfold bind at 1.
  rewrite (VariableRoot_unbound _ h p cp Hp Hip). unfold bind at 1, ret at 1.
  cbn [occursInType Root]. unfold bind at 1, ret at 1. unfold bind at 1.
  rewrite (Equals_op_var k h n [] p cp Hp Hip). reflexivity.
Qed.

Lemma joinRoots_vars k (h : heap) a b p q cp cq :
  h !! p = Some cp -> Instance cp = None ->
  h !! q = Some cq -> Instance cq = None ->
  joinRoots (S (S k)) a b (TVariable p) (TVariable q) h =
    Ok (if ID cp =? ID cq then TVariable p else TVariable q, h).
Proof.
  intros Hp Hip Hq Hiq. unfold joinRoots. cbv zeta. unfold bind at 1.
  rewrite (Equals_vars k h p q cp cq) by assumption.
  destruct (ID cp =? ID cq); reflexivity.
Qed.

Lemma joinRoots_var_op k (h : heap) a b p cp n :
  h !! p = Some cp -> Instance cp = None ->
  joinRoots (S (S (S (S k)))) a b (TVariable p) (TOperator n []) h =
    Ok (TOperator n [], h).
Proof.
  intros Hp Hip. unfold joinRoots. cbv zeta. unfold bind at 1.
  rewrite (Equals_var_op k h p cp n) by assumption. reflexivity.
Qed.

Lemma joinRoots_op_var k (h : heap) a b q cq n args :
  h !! q = Some cq -> Instance cq = None ->
  joinRoots (S (S k)) a b (TOperator n args) (TVariable q) h =
    Ok (TOperator n args, h).
Proof.
  intros Hq Hiq. unfold joinRoots. cbv zeta. unfold bind at 1.
  rewrite (Equals_op_var k h n args q cq) by assumption. reflexivity.
Qed.

Lemma builtin_nullary x : x ∈ builtins -> exists n, x = TOperator n [].
Proof. intros H. each_builtin H; eauto. Qed.

(** C6.  The laws of [LeastUpperBound] on types whose roots are
    variables or builtin scalar types, in a heap with finite instance
    chains.  Idempotence: the join of [a] with itself is the root of [a].
    Commutativity, when the two roots are not both variables: the two
    orders return the same type, or both return [TypeError{Mismatch}],
    each with its own arguments as expected and received.  Two variables:
    when their ids differ, each order returns the root of its second
    argument; when the ids agree, the root of its first. *)
Theorem LeastUpperBound_laws k (h : heap) a b ps qs a1 b1 :
  path h a ps a1 -> path h b qs b1 ->
  isVariable a1 = true \/ a1 ∈ builtins ->
  isVariable b1 = true \/ b1 ∈ builtins ->
  (length ps + length qs + 4 <= k)%nat ->
  (exists h', LeastUpperBound k a a h = Ok (a1, h')) /\
  (isVariable a1 && isVariable b1 = false ->
   exists t1 h1 t2 h2,
     LeastUpperBound k a b h = Ok (t1, h1) /\
     LeastUpperBound k b a h = Ok (t2, h2) /\
     (t1 = t2 \/ (t1 = mismatch a b /\ t2 = mismatch b a))) /\
  (forall p q cp cq,
     a1 = TVariable p -> b1 = TVariable q ->
     h !! p = Some cp -> h !! q = Some cq ->
     exists h1 h2,
       LeastUpperBound k a b h = Ok (if ID cp =? ID cq then a1 else b1, h1) /\
       LeastUpperBound k b a h = Ok (if ID cq =? ID cp then b1 else a1, h2)).
Proof.
  intros Ha Hb Sa Sb Hk.
  destruct k as [|[|[|[|k]]]]; try lia.
  set (K := S (S (S (S k)))) in *.
  pose proof (path_root _ _ _ _ Ha) as Ra.
  pose proof (path_root _ _ _ _ Hb) as Rb.
  destruct (LeastUpperBound_roots K h a a ps ps a1 a1 Ha Ha) as [haa [Eaa Saa]]; try lia.
  destruct (LeastUpperBound_roots K h a b ps qs a1 b1 Ha Hb) as [hab [Eab Sab]]; try lia.
  destruct (LeastUpperBound_roots K h b a qs ps b1 a1 Hb Ha) as [hba [Eba Sba]]; try lia.
  rewrite Eaa, Eab, Eba. clear Eaa Eab Eba.
  split; [|split].
  - exists haa. destruct Sa as [Va|Ba].
    + destruct a1 as [p| |]; try discriminate Va.
      destruct (unbound_root _ _ (shortens_root _ _ _ Saa Ra)) as [c [Hc Hi]].
      unfold K. rewrite (joinRoots_vars _ haa a a p p c c) by assumption.
      rewrite Z.eqb_refl. reflexivity.
    + unfold K. rewrite joinRoots_builtins by assumption.
      each_builtin Ba; reflexivity.
  - intros Hv. destruct Sa as [Va|Ba], Sb as [Vb|Bb].
    + rewrite Va, Vb in Hv. discriminate Hv.
    + destruct a1 as [p| |]; try discriminate Va.
      destruct (builtin_nullary _ Bb) as [n ->].
      destruct (unbound_root _ _ (shortens_root _ _ _ Sab Ra)) as [c [Hc Hi]].
      destruct (unbound_root _ _ (shortens_root _ _ _ Sba Ra)) as [c' [Hc' Hi']].
      exists (TOperator n []), hab, (TOperator n []), hba. unfold K.
      rewrite (joinRoots_var_op _ hab a b p c n) by assumption.
      rewrite (joinRoots_op_var _ hba b a p c' n []) by assumption. auto.
    + destruct b1 as [q| |]; try discriminate Vb.
      destruct (builtin_nullary _ Ba) as [n ->].
      destruct (unbound_root _ _ (shortens_root _ _ _ Sab Rb)) as [c [Hc Hi]].
      destruct (unbound_root _ _ (shortens_root _ _ _ Sba Rb)) as [c' [Hc' Hi']].
      exists (TOperator n []), hab, (TOperator n []), hba. unfold K.
      rewrite (joinRoots_op_var _ hab a b q c n []) by assumption.
      rewrite (joinRoots_var_op _ hba b a q c' n) by assumption. auto.
    + unfold K. rewrite !joinRoots_builtins by assumption.
      rewrite (latticeJoin_comm b1 a1) by assumption.
      destruct (latticeJoin a1 b1); eauto 10.
  - intros p q cp cq -> -> Hp Hq.
    destruct (unbound_root _ _ Ra) as [cp0 [Hp0 Hip]].
    destruct (unbound_root _ _ Rb) as [cq0 [Hq0 Hiq]].
    assert (cp0 = cp) as -> by congruence. assert (cq0 = cq) as -> by congruence.
    destruct (shortens_unbound _ _ _ _ Sab Hp Hip) as [c1 [Hc1 [Hi1 E1]]].
    destruct (shortens_unbound _ _ _ _ Sab Hq Hiq) as [c2 [Hc2 [Hi2 E2]]].
    destruct (shortens_unbound _ _ _ _ Sba Hp Hip) as [c3 [Hc3 [Hi3 E3]]].
    destruct (shortens_unbound _ _ _ _ Sba Hq Hiq) as [c4 [Hc4 [Hi4 E4]]].
    exists hab, hba. unfold K.
    rewrite (joinRoots_vars _ hab a b p q c1 c2) by assumption.
    rewrite (joinRoots_vars _ hba b a q p c4 c3) by assumption.
    rewrite E1, E2, E3, E4. split; reflexivity.
Qed.

End TypesFacts.

Section UnifyFacts.
Import Types.
Local Open Scope go_scope.

Lemma UnifyArgs_pairwise unify xs ys (h h' : heap) r :
  pairwise unify xs ys h r h' ->
  forall pre done,
    UnifyArgs unify xs (length pre) (pre ++ ys) done h =
      Ok (match r with inl e => inl e | inr ts => inr (done ++ ts) end, h').
Proof.
  induction 1 as [h|x xs y ys h e h' Hu He|x xs y ys h t h' r h'' Hu Ht _ IH];
    intros pre done; simpl.
  - rewrite app_nil_r. reflexivity.
  - rewrite lookup_app_r, Nat.sub_diag by lia. simpl.
    unfold bind. rewrite Hu, He. reflexivity.
  - rewrite lookup_app_r, Nat.sub_diag by lia. simpl.
    unfold bind. rewrite Hu, Ht.
    specialize (IH (pre ++ [y]) (done ++ [t])).
    rewrite length_app, Nat.add_1_r, <- app_assoc in IH. simpl in IH.
    rewrite IH. destruct r; [reflexivity|]. rewrite <- app_assoc. reflexivity.
Qed.

Lemma fill_pairwise k name argsA argsB (h3 h4 : heap) r :
  pairwise (Unify k) argsA argsB h3 r h4 ->
  (r <- UnifyArgs (Unify k) argsA 0 argsB [] ;;
   match r with
   | inl e => ret e
   | inr args => ret (TOperator name args)
   end) h3 = Ok (match r with inl e => e | inr ts => TOperator name ts end, h4).
Proof.
  intros Hp. unfold bind.
  pose proof (UnifyArgs_pairwise _ _ _ _ _ _ Hp [] []) as E. simpl in E.
  rewrite E. destruct r; reflexivity.
Qed.

Lemma Unify_arity_mismatch k (h : heap) a b h1 h2 nameA argsA nameB argsB :
  Root k a h = Ok (TOperator nameA argsA, h1) ->
  Root k b h1 = Ok (TOperator nameB argsB, h2) ->
  length argsA <> length argsB ->
  Unify (S k) a b h =
    Ok (mismatch (TOperator nameA argsA) (TOperator nameB argsB), h2).
Proof.
  intros Ra Rb Hlen.
  cbn [Unify]. unfold bind at 1. rewrite Ra. unfold bind at 1. rewrite Rb.
  rewrite (proj2 (Nat.eqb_neq _ _) Hlen). reflexivity.
Qed.

Lemma Unify_names_differ k (h : heap) a b h1 h2 nameA argsA nameB argsB t h3 :
  Root k a h = Ok (TOperator nameA argsA, h1) ->
  Root k b h1 = Ok (TOperator nameB argsB, h2) ->
  length argsA = length argsB -> nameA <> nameB ->
  LeastUpperBound k a b h2 = Ok (t, h3) ->
  match t with
  | TTypeError _ _ _ => Unify (S k) a b h = Ok (t, h3)
  | TOperator name _ =>
      forall r h4, pairwise (Unify k) argsA argsB h3 r h4 ->
        Unify (S k) a b h =
          Ok (match r with inl e => e | inr ts => TOperator name ts end, h4)
  | TVariable _ =>
      Unify (S k) a b h =
        Ok (TTypeError (Some ErrInternal) (Some (TOperator nameA argsA))
              (Some (TOperator nameB argsB)), h3)
  end.
Proof.
  intros Ra Rb Hlen Hname Hl.
  assert (Unify (S k) a b h =
            match t with
            | TTypeError _ _ _ => Ok (t, h3)
            | TOperator name _ =>
                (r <- UnifyArgs (Unify k) argsA 0 argsB [] ;;
                 match r with
                 | inl e => ret e
                 | inr args => ret (TOperator name args)
                 end) h3
            | TVariable _ =>
                Ok (TTypeError (Some ErrInternal) (Some (TOperator nameA argsA))
                      (Some (TOperator nameB argsB)), h3)
            end) as E.
  { cbn [Unify]. unfold bind at 1. rewrite Ra. unfold bind at 1. rewrite Rb.
    rewrite Hlen, Nat.eqb_refl. rewrite (proj2 (String.eqb_neq _ _) Hname).
    cbn [negb]. unfold bind at 1. rewrite Hl. destruct t; reflexivity. }
  destruct t as [p|name l|e x y]; try exact E.
  intros r h4 Hp. rewrite E. apply fill_pairwise. exact Hp.
Qed.

Lemma Unify_same_name k (h : heap) a b h1 h2 name argsA argsB r h4 :
  Root k a h = Ok (TOperator name argsA, h1) ->
  Root k b h1 = Ok (TOperator name argsB, h2) ->
  length argsA = length argsB ->
  pairwise (Unify k) argsA argsB h2 r h4 ->
  Unify (S k) a b h =
    Ok (match r with inl e => e | inr ts => TOperator name ts end, h4).
Proof.
  intros Ra Rb Hlen Hp.
  cbn [Unify]. unfold bind at 1. rewrite Ra. unfold bind at 1. rewrite Rb.
  rewrite Hlen, Nat.eqb_refl, String.eqb_refl. cbn [negb].
  apply fill_pairwise. exact Hp.
Qed.

(** C4.  [Unify] on two types whose roots are operators.  If the numbers
    of arguments differ, the result is [TypeError{Mismatch}] on the two
    roots.  If they agree and the names differ, [LeastUpperBound] of the
    two types is taken first: its type error is the result; otherwise the
    arguments are unified pairwise into the operator it returned.  If the
    names agree, the arguments are unified pairwise into an operator of
    that name.  In both cases the first type error among the arguments is
    returned as the result, and the later arguments are not unified. *)
Theorem Unify_operators k (h : heap) a b h1 h2 nameA argsA nameB argsB :
  Root k a h = Ok (TOperator nameA argsA, h1) ->
  Root k b h1 = Ok (TOperator nameB argsB, h2) ->
  (length argsA <> length argsB ->
   Unify (S k) a b h =
     Ok (mismatch (TOperator nameA argsA) (TOperator nameB argsB), h2)) /\
  (length argsA = length argsB -> nameA <> nameB ->
   forall t h3, LeastUpperBound k a b h2 = Ok (t, h3) ->
     (IsTypeError t = true -> Unify (S k) a b h = Ok (t, h3)) /\
     (forall name l r h4,
        t = TOperator name l -> pairwise (Unify k) argsA argsB h3 r h4 ->
        Unify (S k) a b h =
          Ok (match r with inl e => e | inr ts => TOperator name ts end, h4))) /\
  (length argsA = length argsB -> nameA = nameB ->
   forall r h4, pairwise (Unify k) argsA argsB h2 r h4 ->
     Unify (S k) a b h =
       Ok (match r with inl e => e | inr ts => TOperator nameA ts end, h4)).
Proof.
  intros Ra Rb. split; [|split].
  - intros Hlen. eapply Unify_arity_mismatch; eassumption.
  - intros Hlen Hname t h3 Hl.
    pose proof (Unify_names_differ _ _ _ _ _ _ _ _ _ _ _ _ Ra Rb Hlen Hname Hl) as H.
    split.
    + destruct t; try discriminate. intros _. exact H.
    + intros name l r h4 ->. apply H.
  - intros Hlen <- r h4 Hp. eapply Unify_same_name; eassumption.
Qed.

Lemma resolves_shortens L (h h' : heap) :
  shortens h h' ->
  forall n t t', resolves h L n t t' -> resolves h' L n t t'.
Proof.
  intros Hs. induction n as [|n IH]; intros t t' H;
    inversion H as [n0 t0 ps p Hp Hl|n0 t0 ps name args args' Hp Hl Hargs]; subst.
  - destruct (proj1 Hs _ _ _ Hp) as [us [Hu Lu]].
    eapply resolves_variable; [exact Hu | lia].
  - destruct (proj1 Hs _ _ _ Hp) as [us [Hu Lu]].
    eapply resolves_variable; [exact Hu | lia].
  - destruct (proj1 Hs _ _ _ Hp) as [us [Hu Lu]].
    eapply resolves_operator; [exact Hu | lia |].
    eapply Forall2_impl; [exact Hargs | exact IH].
Qed.

Lemma resolves_normal L (h : heap) :
  forall n t t', resolves h L n t t' -> resolves h L n t' t'.
Proof.
  induction n as [|n IH]; intros t t' H;
    inversion H as [n0 t0 ps p Hp Hl|n0 t0 ps name args args' Hp Hl Hargs]; subst.
  - eapply resolves_variable; [eapply path_root; exact Hp | simpl; lia].
  - eapply resolves_variable; [eapply path_root; exact Hp | simpl; lia].
  - eapply resolves_operator; [apply path_operator | simpl; lia |].
    clear Hp H. induction Hargs; constructor; eauto.
Qed.

Lemma resolves_not_error L (h : heap) n t t' :
  resolves h L n t t' -> IsTypeError t' = false.
Proof. inversion 1; reflexivity. Qed.

Lemma pairwise_self L n m (h : heap) args args' :
  (forall h t t', resolves h L n t t' ->
     exists h', Unify m t t h = Ok (t', h') /\ shortens h h') ->
  Forall2 (resolves h L n) args args' ->
  exists h', pairwise (Unify m) args args h (inr args') h' /\ shortens h h'.
Proof.
  intros IH Hargs. revert h Hargs.
  induction args as [|x args IHargs] in args' |- *; intros h Hargs;
    inversion Hargs as [|x0 x' l l' Hx Hrest]; subst.
  - exists h. split; [constructor | apply shortens_refl].
  - destruct (IH h x x' Hx) as [h1 [Hu S1]].
    destruct (IHargs l' h1) as [h2 [Hp S2]].
    { eapply Forall2_impl; [exact Hrest|]. intros u u'. apply resolves_shortens, S1. }
    exists h2. split; [|eapply shortens_trans; eassumption].
    apply (pairwise_cons _ x args x args h x' h1 (inr l') h2 Hu); [|exact Hp].
    eapply resolves_not_error, Hx.
Qed.

Lemma Unify_self L :
  forall n (h : heap) t t',
    resolves h L n t t' ->
    forall m, (L + n + 2 <= m)%nat ->
    exists h', Unify m t t h = Ok (t', h') /\ shortens h h'.
Proof.
  induction n as [|n IH]; intros h t t' H m Hm;
    (destruct m as [|m]; [lia|]);
    inversion H as [n0 t0 ps p Hp Hl|n0 t0 ps name args args' Hp Hl Hargs]; subst.
  1, 2:
    destruct (Root_shortens m h t ps _ Hp) as [h1 [R1 S1]]; [lia|];
    destruct (proj1 S1 _ _ _ Hp) as [ps1 [Hp1 L1]];
    destruct (Root_shortens m h1 t ps1 _ Hp1) as [h2 [R2 S2]]; [lia|];
    pose proof (shortens_trans _ _ _ S1 S2) as S12;
    destruct (unbound_root _ _ (shortens_root _ _ _ S12 (path_root _ _ _ _ Hp)))
      as [c [Hc Hi]];
    exists h2; split; [|exact S12];
    cbn [Unify]; unfold bind at 1; rewrite R1; unfold bind at 1; rewrite R2;
    unfold bind, load; rewrite Hc; cbv beta iota; rewrite Hc; cbv beta iota;
    unfold ret; rewrite Z.eqb_refl; reflexivity.
  destruct (Root_shortens m h t ps _ Hp) as [h1 [R1 S1]]; [lia|].
  destruct (proj1 S1 _ _ _ Hp) as [ps1 [Hp1 L1]].
  destruct (Root_shortens m h1 t ps1 _ Hp1) as [h2 [R2 S2]]; [lia|].
  pose proof (shortens_trans _ _ _ S1 S2) as S12.
  destruct (pairwise_self L n m h2 args args') as [h3 [Hpw S3]].
  { intros h0 u u' Hu. apply (IH h0 u u' Hu). lia. }
  { eapply Forall2_impl; [exact Hargs|]. intros u u'. apply resolves_shortens, S12. }
  exists h3. split; [|eapply shortens_trans; eassumption].
  exact (Unify_same_name m h t t h1 h2 name args args (inr args') h3 R1 R2 eq_refl Hpw).
Qed.

(** C7.  Unification of a result with itself.  If [Unify(a, b)]
    returned [u], and [u] holds no type error and has finite instance
    chains, so that it reads as [u'] through the heap, then
    [Unify(u, u)] returns [u']; it binds no variable (every type keeps its
    representative), and afterwards both [u] and [u'] still read as
    [u']. *)
Theorem Unify_idempotent_on_resolved k (h0 : heap) a b u h L n u' :
  Unify k a b h0 = Ok (u, h) ->
  resolves h L n u u' ->
  exists h',
    Unify (L + n + 2) u u h = Ok (u', h') /\
    shortens h h' /\
    resolves h' L n u u' /\
    resolves h' L n u' u'.
Proof.
  intros _ Hr.
  destruct (Unify_self L n h u u' Hr (L + n + 2)%nat) as [h' [Hu Hs]]; [lia|].
  exists h'. split; [exact Hu|]. split; [exact Hs|].
  pose proof (resolves_shortens L h h' Hs n u u' Hr) as Hr'.
  split; [exact Hr' | eapply resolves_normal; exact Hr'].
Qed.

End UnifyFacts.

Section CaprefFacts.
Import Types syntax Capref.

Lemma Regexp_ind' (P : Regexp -> Prop) :
  (forall op fl sub rune mn mx cap name,
      Forall P sub -> P (mkRegexp op fl sub rune mn mx cap name)) ->
  forall re, P re.
Proof.
  intros step. fix IH 1. intros [op fl sub rune mn mx cap name].
  apply step. induction sub as [|g sub IHsub]; constructor; [apply IH | exact IHsub].
Qed.

Lemma firstGroup_none (get : Regexp -> Res (option Regexp)) subs :
  Forall (fun g => get g = Ok None) subs -> firstGroup get subs = Ok None.
Proof.
  induction 1 as [|g subs Hg _ IH]; simpl; [reflexivity|].
  rewrite Hg. simpl. exact IH.
Qed.

Lemma getCaptureGroup_none re n :
  hasCapture re n = false -> getCaptureGroup re n = Ok None.
Proof.
  induction re as [op fl sub rune mn mx cap name IH] using Regexp_ind'.
  simpl. intros H. apply orb_false_iff in H as [H1 H2]. rewrite H1.
  apply firstGroup_none.
  rewrite Forall_forall in IH. apply Forall_forall. intros g Hg.
  apply IH; [exact Hg|].
  destruct (hasCapture g n) eqn:E; [|reflexivity].
  assert (existsb (fun s => hasCapture s n) sub = true) as Hex.
  { apply existsb_exists. exists g. split; [|exact E]. apply list_elem_of_In. exact Hg. }
  congruence.
Qed.

Lemma classOnly_wf rs s :
  Nat.even (length rs) = true -> exists b, classOnly rs s = Ok b.
Proof.
  revert rs. fix IH 1. intros [|lo [|hi rest]] H.
  - exists true. reflexivity.
  - discriminate H.
  - simpl. destruct (rangeOnly lo hi s); [|exists false; reflexivity].
    apply IH. exact H.
Qed.

Lemma allSubs_wf (f : Regexp -> Res bool) subs :
  Forall (fun g => exists b, f g = Ok b) subs -> exists b, allSubs f subs = Ok b.
Proof.
  induction 1 as [|g subs [b Hb] _ [b' IH]]; simpl; [eauto|].
  rewrite Hb. simpl. destruct b; eauto.
Qed.

Lemma groupOnlyMatches_wf g s :
  wfRegexp g = true -> exists b, groupOnlyMatches g s = Ok b.
Proof.
  induction g as [op fl sub rune mn mx cap name IH] using Regexp_ind'.
  simpl. intros H. apply andb_true_iff in H as [Hop Hsub].
  assert (Forall (fun g => exists b, groupOnlyMatches g s = Ok b) sub) as Hall.
  { rewrite forallb_forall in Hsub. rewrite Forall_forall in IH |- *.
    intros g Hg. apply IH; [exact Hg|]. apply Hsub, list_elem_of_In, Hg. }
  destruct op; eauto using classOnly_wf, allSubs_wf;
    (destruct sub as [|g0 sub]; [discriminate Hop|]; inversion Hall; assumption).
Qed.

Lemma groupOnlyMatches_only g s :
  wfRegexp g = true -> groupOnlyMatches g s = Ok (only g s).
Proof.
  intros H. destruct (groupOnlyMatches_wf g s H) as [b Hb].
  unfold only. rewrite Hb. reflexivity.
Qed.

Lemma getCaptureGroup_wf re n :
  wfRegexp re = true ->
  exists r, getCaptureGroup re n = Ok r /\
            forall g, r = Some g -> wfRegexp g = true.
Proof.
  induction re as [op fl sub rune mn mx cap name IH] using Regexp_ind'.
  simpl. intros H. apply andb_true_iff in H as [Hop Hsub].
  rewrite forallb_forall in Hsub.
  destruct (Op_eqb op OpCapture && (cap =? n)) eqn:E.
  - apply andb_true_iff in E as [E _]. destruct op; try discriminate E.
    destruct sub as [|g0 sub]; [discriminate Hop|].
    exists (Some g0). split; [reflexivity|]. intros g [= <-].
    apply Hsub. left. reflexivity.
  - clear E Hop. induction sub as [|g0 sub IHsub]; simpl.
    + exists None. split; [reflexivity|]. intros g [=].
    + inversion IH as [|? ? Hg0 Hrest]; subst.
      destruct Hg0 as [r0 [Hr0 Hwf0]]; [apply Hsub; left; reflexivity|].
      rewrite Hr0. simpl. destruct r0 as [g1|].
      * exists (Some g1). split; [reflexivity|]. exact Hwf0.
      * apply IHsub; [exact Hrest|]. intros x Hx. apply Hsub. right. exact Hx.
Qed.

Lemma LeastUpperBound_rank k (h : heap) r1 r2 :
  (r1 <= 3)%nat -> (r2 <= 3)%nat ->
  LeastUpperBound (S k) (ofRank r1) (ofRank r2) h = Ok (ofRank (Nat.max r1 r2), h).
Proof.
  intros H1 H2.
  destruct r1 as [|[|[|[|r1]]]]; try lia;
    destruct r2 as [|[|[|[|r2]]]]; try lia; reflexivity.
Qed.

Lemma rank_le t : (rank t <= 3)%nat.
Proof.
  unfold rank. repeat (case_match; try lia).
Qed.

Lemma ContainsRune_elem s r : ContainsRune s r = true <-> r ∈ s.
Proof.
  unfold ContainsRune. rewrite existsb_exists. split.
  - intros [x [Hx E]]. apply Z.eqb_eq in E. subst x. apply list_elem_of_In, Hx.
  - intros H. exists r. split; [apply list_elem_of_In, H | apply Z.eqb_refl].
Qed.

Lemma rangeOnly_spec lo hi s r :
  rangeOnly lo hi s = true -> lo <= r <= hi -> r ∈ s.
Proof.
  unfold rangeOnly. rewrite forallb_forall. intros H Hr.
  apply ContainsRune_elem, H, list_elem_of_In, elem_of_seqZ. lia.
Qed.

Lemma classOnly_sound s r : forall rs,
  classOnly rs s = Ok true -> inClass rs r -> r ∈ s.
Proof.
  fix IH 1. intros [|lo [|hi rest]]; simpl; try contradiction.
  destruct (rangeOnly lo hi s) eqn:E; [|discriminate].
  intros H [Hr|Hr]; [eapply rangeOnly_spec; eassumption | exact (IH rest H Hr)].
Qed.

Lemma allSubs_true (f : Regexp -> Res bool) subs :
  allSubs f subs = Ok true -> Forall (fun g => f g = Ok true) subs.
Proof.
  induction subs as [|g subs IH]; simpl; [constructor|].
  destruct (f g) as [[|]| |] eqn:E; simpl; try discriminate.
  intros H. constructor; auto.
Qed.

Lemma signs_intRunes r : r ∈ signs -> r ∈ intRunes.
Proof.
  unfold signs, intRunes. rewrite <- !ContainsRune_elem.
  unfold ContainsRune. rewrite !existsb_exists.
  intros [x [Hx E]]. exists x. split; [|exact E].
  vm_compute in Hx |- *. intuition.
Qed.

Lemma intRunes_floatRunes r : r ∈ intRunes -> r ∈ floatRunes.
Proof.
  unfold intRunes, floatRunes. rewrite <- !ContainsRune_elem.
  unfold ContainsRune. rewrite !existsb_exists.
  intros [x [Hx E]]. exists x. split; [|exact E].
  vm_compute in Hx |- *. intuition.
Qed.

(** Deciding that [asciiFold] does not lead out of a set of runes. *)
Lemma asciiFold_within s :
  forallb (fun r => ContainsRune s (asciiFold r)) s = true ->
  foldsWithin asciiFold s.
Proof.
  rewrite forallb_forall. intros H r Hr.
  apply ContainsRune_elem, H, list_elem_of_In, Hr.
Qed.

Variable SimpleFold : Z -> Z.

Lemma foldsTo_within s r0 c :
  foldsWithin SimpleFold s -> r0 ∈ s -> foldsTo SimpleFold r0 c -> c ∈ s.
Proof.
  intros Hs Hr [k <-]. induction k as [|k IH]; simpl; [exact Hr | apply Hs, IH].
Qed.

Lemma runeMatches_within s flags r0 c :
  foldsWithin SimpleFold s -> r0 ∈ s -> runeMatches SimpleFold flags r0 c -> c ∈ s.
Proof.
  intros Hs Hr [-> | [_ Hf]]; [exact Hr | eapply foldsTo_within; eassumption].
Qed.

Lemma groupOnlyMatches_sound s g :
  foldsWithin SimpleFold s ->
  groupOnlyMatches g s = Ok true ->
  forall w, matches SimpleFold g w -> Forall (fun r => r ∈ s) w.
Proof.
  intros Hfold.
  induction g as [op fl sub rune mn mx cap name IH] using Regexp_ind'.
  intros H w Hm.
  assert (forall g0 rest, sub = g0 :: rest -> groupOnlyMatches g0 s = Ok true ->
            forall ws, Forall (matches SimpleFold g0) ws ->
                       Forall (fun r => r ∈ s) (concat ws))
    as Hrep.
  { intros g0 rest -> Hg0 ws Hws. apply Forall_concat.
    inversion IH as [|? ? IH0 _]; subst.
    eapply Forall_impl; [exact Hws|]. intros w0. apply IH0, Hg0. }
  inversion Hm as [re w0 Hop Hw|re r Hop Hr|re g0 rest ws Hop Hs Hws
                  |re g0 rest ws Hop Hs _ Hws
                  |re Hop|re g0 rest w0 Hop Hs Hw|re g0 rest ws Hop Hs _ _ Hws
                  |re g0 rest w0 Hop Hs Hw|re ws Hop Hws|re g0 w0 Hop Hin Hw
                  |re Hop|re r Hop|re r Hop Hr|re Hop];
    subst; simpl in Hop; try subst op; simpl in *.
  - injection H as H. rewrite forallb_forall in H.
    clear Hm Hrep IH. induction Hw as [|r0 c rs cs Hc _ IHw]; [constructor|].
    constructor.
    + eapply runeMatches_within; [exact Hfold | | exact Hc].
      apply ContainsRune_elem, H. left. reflexivity.
    + apply IHw. intros x Hx. apply H. right. exact Hx.
  - constructor; [|constructor]. eapply classOnly_sound; eassumption.
  - subst sub. eapply Hrep; eauto.
  - subst sub. eapply Hrep; eauto.
  - constructor.
  - subst sub. inversion IH as [|? ? IH0 _]; subst. eapply IH0; eauto.
  - subst sub. eapply Hrep; eauto.
  - subst sub. inversion IH as [|? ? IH0 _]; subst. eapply IH0; eauto.
  - apply allSubs_true in H. apply Forall_concat.
    clear Hm Hrep. induction Hws as [|g0 w0 sub ws Hw _ IHws]; [constructor|].
    inversion IH; inversion H; subst. constructor; auto.
  - apply allSubs_true in H. rewrite Forall_forall in IH, H.
    apply list_elem_of_In in Hin. eapply IH; eauto.
  - discriminate H.
  - discriminate H.
  - discriminate H.
  - destruct Hop as [-> | [-> | [-> | [-> | [-> | ->]]]]]; discriminate H.
Qed.

(** *** Plain trees: what the walk decides is what the tree matches *)

Lemma plain_sub op fl sub rune mn mx cap name :
  plain (mkRegexp op fl sub rune mn mx cap name) = true ->
  op <> OpLiteral -> op <> OpCharClass ->
  forallb plain sub = true.
Proof.
  simpl. destruct op; try discriminate; try congruence; intros H _ _;
    repeat (apply andb_true_iff in H as [H ?]); auto.
Qed.

Lemma plain_composed g : plain g = true -> composed g = true.
Proof.
  induction g as [op fl sub rune mn mx cap name IH] using Regexp_ind'.
  intros H.
  assert (op <> OpLiteral -> op <> OpCharClass -> forallb composed sub = true) as Hsub.
  { intros H1 H2. pose proof (plain_sub _ _ _ _ _ _ _ _ H H1 H2) as Hp.
    rewrite forallb_forall in Hp |- *. rewrite Forall_forall in IH.
    intros g Hg. apply IH; [apply list_elem_of_In, Hg | apply Hp, Hg]. }
  simpl in H |- *. destruct op; try discriminate H; try reflexivity;
    try (apply Hsub; discriminate);
    (destruct sub as [|g0 sub]; [reflexivity|]);
    specialize (Hsub ltac:(discriminate) ltac:(discriminate));
    simpl in Hsub; apply andb_true_iff in Hsub as [Hsub _]; exact Hsub.
Qed.

Lemma classInhabited_inClass rs : classInhabited rs = true -> exists r, inClass rs r.
Proof.
  revert rs. fix IH 1. intros [|lo [|hi rest]]; simpl; try discriminate.
  intros H. apply orb_true_iff in H as [H|H].
  - exists lo. left. lia.
  - destruct (IH rest H) as [r Hr]. exists r. right. exact Hr.
Qed.

Lemma Forall2_map_of_Forall {A B} (R : A -> B -> Prop) (f : A -> B) l :
  Forall (fun x => R x (f x)) l -> Forall2 R l (map f l).
Proof. induction 1; simpl; constructor; assumption. Qed.

Lemma Forall2_from_inhabited {A B} (R : A -> B -> Prop) l :
  Forall (fun x => exists y, R x y) l -> exists l', Forall2 R l l'.
Proof.
  induction 1 as [|x l [y Hy] _ [l' IH]]; [exists []; constructor|].
  exists (y :: l'). constructor; assumption.
Qed.

Lemma runeMatches_refl flags rs : Forall2 (runeMatches SimpleFold flags) rs rs.
Proof. induction rs; constructor; [left; reflexivity | assumption]. Qed.

Lemma rounds_ok mn mx :
  ((mx =? -1) || ((1 <=? mx) && (mn <=? mx))) = true ->
  (1 <= rounds mn mx)%nat /\ mn <= Z.of_nat (rounds mn mx) /\
  (mx = -1 \/ Z.of_nat (rounds mn mx) <= mx).
Proof.
  unfold rounds. intros H. destruct (mx =? -1) eqn:E; simpl in H.
  - apply Z.eqb_eq in E. lia.
  - apply andb_true_iff in H as [H1 H2]. lia.
Qed.

Lemma plain_inhabited g : plain g = true -> exists w, matches SimpleFold g w.
Proof.
  induction g as [op fl sub rune mn mx cap name IH] using Regexp_ind'.
  intros H.
  assert (op <> OpLiteral -> op <> OpCharClass ->
          Forall (fun g => exists w, matches SimpleFold g w) sub) as Hsub.
  { intros H1 H2. pose proof (plain_sub _ _ _ _ _ _ _ _ H H1 H2) as Hp.
    rewrite forallb_forall in Hp. rewrite Forall_forall in IH |- *.
    intros g Hg. apply IH; [exact Hg | apply Hp, list_elem_of_In, Hg]. }
  set (re := mkRegexp op fl sub rune mn mx cap name) in *.
  destruct op; try discriminate H.
  - exists rune. apply matches_literal; [reflexivity | apply runeMatches_refl].
  - simpl in H. apply andb_true_iff in H as [_ H].
    destruct (classInhabited_inClass rune H) as [r Hr].
    exists [r]. apply matches_class; [reflexivity | exact Hr].
  - specialize (Hsub ltac:(discriminate) ltac:(discriminate)).
    destruct sub as [|g0 rest]; [discriminate H|].
    inversion Hsub as [|? ? [w Hw] _]; subst.
    exists w. eapply matches_capture; [reflexivity | reflexivity | exact Hw].
  - destruct sub as [|g0 rest]; [discriminate H|].
    exists (concat []). eapply matches_star; [reflexivity | reflexivity | constructor].
  - specialize (Hsub ltac:(discriminate) ltac:(discriminate)).
    destruct sub as [|g0 rest]; [discriminate H|].
    inversion Hsub as [|? ? [w Hw] _]; subst.
    exists (concat [w]). eapply matches_plus;
      [reflexivity | reflexivity | discriminate | apply List.Forall_cons; [exact Hw | apply List.Forall_nil]].
  - exists []. apply matches_quest_none. reflexivity.
  - specialize (Hsub ltac:(discriminate) ltac:(discriminate)).
    destruct sub as [|g0 rest]; [discriminate H|].
    inversion Hsub as [|? ? [w Hw] _]; subst.
    simpl in H. apply andb_true_iff in H as [_ H].
    destruct (rounds_ok mn mx H) as [_ [Hmin Hmax]].
    exists (concat (replicate (rounds mn mx) w)).
    eapply matches_repeat; [reflexivity | reflexivity | | |].
    + rewrite length_replicate. exact Hmin.
    + rewrite length_replicate. exact Hmax.
    + apply Forall_replicate. exact Hw.
  - specialize (Hsub ltac:(discriminate) ltac:(discriminate)).
    destruct (Forall2_from_inhabited _ _ Hsub) as [ws Hws].
    exists (concat ws). apply matches_concat; [reflexivity | exact Hws].
  - specialize (Hsub ltac:(discriminate) ltac:(discriminate)).
    destruct sub as [|g0 rest]; [discriminate H|].
    inversion Hsub as [|? ? [w Hw] _]; subst.
    exists w. eapply matches_alternate; [reflexivity | left; reflexivity | exact Hw].
Qed.

Lemma classOnly_complete s : forall rs,
  Nat.even (length rs) = true ->
  (forall r, inClass rs r -> r ∈ s) -> classOnly rs s = Ok true.
Proof.
  fix IH 1. intros [|lo [|hi rest]] He H; simpl in *; try reflexivity; try discriminate.
  assert (rangeOnly lo hi s = true) as ->.
  { unfold rangeOnly. apply forallb_forall. intros r Hr.
    apply ContainsRune_elem, H. left.
    apply list_elem_of_In, elem_of_seqZ in Hr. lia. }
  apply IH; [exact He|]. intros r Hr. apply H. right. exact Hr.
Qed.

Lemma allSubs_intro (f : Regexp -> Res bool) subs :
  Forall (fun g => f g = Ok true) subs -> allSubs f subs = Ok true.
Proof.
  induction 1 as [|g subs Hg _ IH]; simpl; [reflexivity|].
  rewrite Hg. simpl. exact IH.
Qed.

Lemma concat_parts (P : Z -> Prop) subs :
  Forall (fun g => exists w, matches SimpleFold g w) subs ->
  (forall ws, Forall2 (matches SimpleFold) subs ws -> Forall P (concat ws)) ->
  Forall (fun g => forall w, matches SimpleFold g w -> Forall P w) subs.
Proof.
  induction 1 as [|g subs [w0 Hw0] Hinh IH]; intros H; constructor.
  - intros w Hw. destruct (Forall2_from_inhabited _ _ Hinh) as [ws Hws].
    specialize (H (w :: ws) ltac:(constructor; assumption)).
    simpl in H. apply Forall_app in H as [H _]. exact H.
  - apply IH. intros ws Hws.
    specialize (H (w0 :: ws) ltac:(constructor; assumption)).
    simpl in H. apply Forall_app in H as [_ H]. exact H.
Qed.

Lemma groupOnlyMatches_complete s g :
  plain g = true -> matchesOnly SimpleFold g s -> groupOnlyMatches g s = Ok true.
Proof.
  unfold matchesOnly.
  induction g as [op fl sub rune mn mx cap name IH] using Regexp_ind'.
  intros H Hall.
  assert (op <> OpLiteral -> op <> OpCharClass -> forallb plain sub = true) as Hsub
    by (apply plain_sub with fl rune mn mx cap name; exact H).
  set (re := mkRegexp op fl sub rune mn mx cap name) in *.
  assert (forall g0 rest, sub = g0 :: rest -> plain g0 = true ->
            (forall w, matches SimpleFold g0 w -> matches SimpleFold re w) ->
            groupOnlyMatches g0 s = Ok true) as Hfirst.
  { intros g0 rest -> Hp Hm. inversion IH as [|? ? IH0 _]; subst.
    apply IH0; [exact Hp|]. intros w Hw. apply Hall, Hm, Hw. }
  assert (forall g0 rest, sub = g0 :: rest -> op <> OpLiteral -> op <> OpCharClass ->
            plain g0 = true) as Hhead.
  { intros g0 rest -> H1 H2. specialize (Hsub H1 H2). simpl in Hsub.
    apply andb_true_iff in Hsub as [Hsub _]. exact Hsub. }
  destruct op; try discriminate H; cbn [groupOnlyMatches re].
  - f_equal. apply forallb_forall. intros r Hr.
    specialize (Hall rune (matches_literal SimpleFold re rune eq_refl
                             (runeMatches_refl fl rune))).
    rewrite Forall_forall in Hall. apply ContainsRune_elem, Hall, list_elem_of_In, Hr.
  - simpl in H. apply andb_true_iff in H as [He _].
    apply classOnly_complete; [exact He|]. intros r Hr.
    specialize (Hall [r] (matches_class SimpleFold re r eq_refl Hr)).
    inversion Hall; assumption.
  - destruct sub as [|g0 rest]; [discriminate H|].
    apply (Hfirst g0 rest eq_refl);
      [eapply Hhead; [reflexivity | discriminate | discriminate]|].
    intros w Hw. eapply matches_capture; [reflexivity | reflexivity | exact Hw].
  - destruct sub as [|g0 rest]; [discriminate H|].
    apply (Hfirst g0 rest eq_refl);
      [eapply Hhead; [reflexivity | discriminate | discriminate]|].
    intros w Hw. rewrite <- (app_nil_r w). change (w ++ []) with (concat [w]).
    eapply matches_star; [reflexivity | reflexivity | apply List.Forall_cons; [exact Hw | apply List.Forall_nil]].
  - destruct sub as [|g0 rest]; [discriminate H|].
    apply (Hfirst g0 rest eq_refl);
      [eapply Hhead; [reflexivity | discriminate | discriminate]|].
    intros w Hw. rewrite <- (app_nil_r w). change (w ++ []) with (concat [w]).
    eapply matches_plus;
      [reflexivity | reflexivity | discriminate | apply List.Forall_cons; [exact Hw | apply List.Forall_nil]].
  - destruct sub as [|g0 rest]; [discriminate H|].
    apply (Hfirst g0 rest eq_refl);
      [eapply Hhead; [reflexivity | discriminate | discriminate]|].
    intros w Hw. eapply matches_quest_some; [reflexivity | reflexivity | exact Hw].
  - destruct sub as [|g0 rest]; [discriminate H|].
    pose proof (Hhead g0 rest eq_refl ltac:(discriminate) ltac:(discriminate)) as Hp0.
    inversion IH as [|? ? IH0 _]; subst.
    apply IH0; [exact Hp0|]. intros w Hw.
    simpl in H. apply andb_true_iff in H as [_ H].
    destruct (rounds_ok mn mx H) as [Hone [Hmin Hmax]].
    assert (matches SimpleFold re (concat (replicate (rounds mn mx) w))) as Hm.
    { eapply matches_repeat; [reflexivity | reflexivity | | |].
      - rewrite length_replicate. exact Hmin.
      - rewrite length_replicate. exact Hmax.
      - apply Forall_replicate. exact Hw. }
    specialize (Hall _ Hm). destruct (rounds mn mx) as [|k]; [lia|].
    simpl in Hall. apply Forall_app in Hall as [Hall _]. exact Hall.
  - specialize (Hsub ltac:(discriminate) ltac:(discriminate)).
    apply allSubs_intro.
    assert (Forall (fun g => exists w, matches SimpleFold g w) sub) as Hinh.
    { rewrite forallb_forall in Hsub. apply Forall_forall. intros g Hg.
      apply plain_inhabited, Hsub, list_elem_of_In, Hg. }
    pose proof (concat_parts (fun r => r ∈ s) sub Hinh
                  (fun ws Hws => Hall _ (matches_concat SimpleFold re ws eq_refl Hws)))
      as Hparts.
    rewrite forallb_forall in Hsub. rewrite Forall_forall in IH, Hparts |- *.
    intros g Hg. apply IH; [exact Hg | apply Hsub, list_elem_of_In, Hg | apply Hparts, Hg].
  - specialize (Hsub ltac:(discriminate) ltac:(discriminate)).
    apply allSubs_intro.
    rewrite forallb_forall in Hsub. rewrite Forall_forall in IH |- *.
    intros g Hg. apply IH; [exact Hg | apply Hsub, list_elem_of_In, Hg |].
    intros w Hw. apply Hall.
    eapply matches_alternate; [reflexivity | apply list_elem_of_In, Hg | exact Hw].
Qed.

Lemma wfRegexp_sub_all op fl sub rune mn mx cap name :
  wfRegexp (mkRegexp op fl sub rune mn mx cap name) = true ->
  forallb wfRegexp sub = true.
Proof. simpl. intros H. apply andb_true_iff in H as [_ H]. exact H. Qed.

Lemma forallb_exists_false {A} (f : A -> bool) l :
  forallb f l = false -> exists x, x ∈ l /\ f x = false.
Proof.
  induction l as [|x l IH]; simpl; [discriminate|].
  destruct (f x) eqn:E; simpl.
  - intros H. destruct (IH H) as [y [Hy Hf]]. exists y. split; [right; exact Hy | exact Hf].
  - intros _. exists x. split; [left | exact E].
Qed.

Lemma allSubs_false (f : Regexp -> Res bool) subs :
  Forall (fun g => exists b, f g = Ok b) subs ->
  Exists (fun g => f g = Ok false) subs ->
  allSubs f subs = Ok false.
Proof.
  induction 1 as [|g subs [b Hb] Hall IH]; intros Hex; [inversion Hex|].
  simpl. rewrite Hb. simpl. destruct b; [|reflexivity].
  apply IH. inversion Hex as [? ? Hf|? ? Hf]; subst; [congruence | exact Hf].
Qed.

(** A group that holds another operator matches "only [s]" for no [s], as
    the walk decides it. *)
Lemma groupOnlyMatches_other s g :
  wfRegexp g = true -> composed g = false -> groupOnlyMatches g s = Ok false.
Proof.
  induction g as [op fl sub rune mn mx cap name IH] using Regexp_ind'.
  intros Hwf Hc. pose proof (wfRegexp_sub_all _ _ _ _ _ _ _ _ Hwf) as Hsub.
  assert (forall g0 rest, sub = g0 :: rest -> composed g0 = false ->
            groupOnlyMatches g0 s = Ok false) as Hfirst.
  { intros g0 rest -> Hc0. inversion IH as [|? ? IH0 _]; subst.
    apply IH0; [|exact Hc0]. simpl in Hsub.
    apply andb_true_iff in Hsub as [Hsub _]. exact Hsub. }
  assert (forallb composed sub = false ->
          allSubs (fun g => groupOnlyMatches g s) sub = Ok false) as Hall.
  { intros Hf. apply allSubs_false.
    - rewrite forallb_forall in Hsub. apply Forall_forall. intros g Hg.
      apply groupOnlyMatches_wf, Hsub, list_elem_of_In, Hg.
    - apply Exists_exists.
      destruct (forallb_exists_false composed sub Hf) as [g [Hg Hgc]].
      exists g. split; [exact Hg|].
      rewrite forallb_forall in Hsub. rewrite Forall_forall in IH.
      apply IH; [exact Hg | apply Hsub, list_elem_of_In, Hg | exact Hgc]. }
  simpl in Hc, Hwf |- *. destruct op; try discriminate Hc; try reflexivity;
    try (apply Hall; exact Hc);
    (destruct sub as [|g0 rest]; [discriminate Hc|]);
    apply (Hfirst g0 rest eq_refl Hc).
Qed.

Variable RegexpString : Regexp -> list Z.

Lemma inferGroupType_rule g :
  wfRegexp g = true ->
  inferGroupType RegexpString g = Ok (groupTypeRule RegexpString g).
Proof.
  intros H. unfold inferGroupType, groupTypeRule.
  rewrite !(groupOnlyMatches_only g _ H). fold signs intRunes floatRunes digits.
  simpl rbind.
  destruct (only g signs); [reflexivity|].
  destruct (only g intRunes).
  - destruct (ContainsAny (RegexpString g) digits); [|reflexivity]. simpl.
    destruct (Op_eqb (Op_ g) OpAlternate || Op_eqb (Op_ g) OpCharClass); reflexivity.
  - destruct (only g floatRunes); [|reflexivity]. simpl.
    destruct (Z.ltb_spec 1 (Count (RegexpString g) 46)) as [Hc|Hc];
      destruct (Z.leb_spec (Count (RegexpString g) 46) 1); try lia; reflexivity.
Qed.

Lemma groupTypeRule_ofRank g :
  groupTypeRule RegexpString g = ofRank (rank (groupTypeRule RegexpString g)).
Proof.
  unfold groupTypeRule. repeat case_match; reflexivity.
Qed.

Lemma lubBranches_join k (h : heap) subs r0 :
  (r0 <= 3)%nat ->
  forallb wfRegexp subs = true ->
  lubBranches RegexpString (S k) (ofRank r0) subs h =
    Ok (ofRank (Nat.max r0 (foldr Nat.max O (map rank (map (groupTypeRule RegexpString) subs)))), h).
Proof.
  revert r0. induction subs as [|g subs IH]; intros r0 Hr Hwf.
  - simpl. rewrite Nat.max_0_r. reflexivity.
  - simpl in Hwf. apply andb_true_iff in Hwf as [Hg Hwf].
    cbn [lubBranches map foldr]. unfold bind at 1, liftRes.
    rewrite (inferGroupType_rule g Hg). unfold bind at 1.
    rewrite (groupTypeRule_ofRank g).
    rewrite LeastUpperBound_rank by (auto using rank_le).
    rewrite IH by (auto; pose proof (rank_le (groupTypeRule RegexpString g)); lia).
    rewrite <- groupTypeRule_ofRank. rewrite Nat.max_assoc. reflexivity.
Qed.

Lemma only_true_matchesOnly g s :
  foldsWithin SimpleFold s -> wfRegexp g = true ->
  only g s = true -> matchesOnly SimpleFold g s.
Proof.
  intros Hf Hwf Ho w Hw.
  apply (groupOnlyMatches_sound s g Hf); [|exact Hw].
  rewrite (groupOnlyMatches_only g s Hwf), Ho. reflexivity.
Qed.

Lemma only_false_not_matchesOnly g s :
  plain g = true -> wfRegexp g = true ->
  only g s = false -> ~ matchesOnly SimpleFold g s.
Proof.
  intros Hp Hwf Ho Hm.
  pose proof (groupOnlyMatches_complete s g Hp Hm) as E.
  rewrite (groupOnlyMatches_only g s Hwf), Ho in E. discriminate E.
Qed.

Lemma only_other g s :
  wfRegexp g = true -> composed g = false -> only g s = false.
Proof.
  intros Hwf Hc. unfold only. rewrite (groupOnlyMatches_other s g Hwf Hc). reflexivity.
Qed.

Lemma Op_eqb_eq x y : Op_eqb x y = true <-> x = y.
Proof. destruct x, y; simpl; split; congruence. Qed.

(** The type the code gives a group is the type of the rules. *)
Lemma groupTypeRule_typed g :
  foldsWithin SimpleFold signs -> foldsWithin SimpleFold intRunes ->
  foldsWithin SimpleFold floatRunes ->
  wfRegexp g = true -> plain g = true \/ composed g = false ->
  typed SimpleFold RegexpString g (groupTypeRule RegexpString g).
Proof.
  intros Fs Fi Ff Hwf [Hp|Hc]; unfold groupTypeRule.
  - destruct (only g signs) eqn:Es.
    { apply typed_signs; [exact Hp | apply only_true_matchesOnly; assumption]. }
    pose proof (only_false_not_matchesOnly g signs Hp Hwf Es) as Ns.
    destruct (only g intRunes) eqn:Ei.
    { pose proof (only_true_matchesOnly g intRunes Fi Hwf Ei) as Mi.
      destruct (ContainsAny (RegexpString g) digits) eqn:Ed; simpl.
      - destruct (Op_eqb (Op_ g) OpAlternate) eqn:Ea; simpl.
        { apply typed_Int_String; auto. right. left. apply Op_eqb_eq, Ea. }
        destruct (Op_eqb (Op_ g) OpCharClass) eqn:Ec; simpl.
        { apply typed_Int_String; auto. right. right. apply Op_eqb_eq, Ec. }
        apply typed_Int; auto.
        + intros E. apply Op_eqb_eq in E. congruence.
        + intros E. apply Op_eqb_eq in E. congruence.
      - apply typed_Int_String; auto. }
    pose proof (only_false_not_matchesOnly g intRunes Hp Hwf Ei) as Ni.
    destruct (only g floatRunes) eqn:Ef; simpl.
    { pose proof (only_true_matchesOnly g floatRunes Ff Hwf Ef) as Mf.
      destruct (Z.leb_spec (Count (RegexpString g) 46) 1).
      - apply typed_Float; auto.
      - apply typed_Float_String; auto. }
    apply typed_String; [exact Hp|].
    apply only_false_not_matchesOnly; assumption.
  - rewrite !(only_other g _ Hwf Hc). simpl. apply typed_other. exact Hc.
Qed.

Lemma matchesOnly_mono g s s' :
  (forall r, r ∈ s -> r ∈ s') ->
  matchesOnly SimpleFold g s -> matchesOnly SimpleFold g s'.
Proof.
  intros Hs H w Hw. eapply Forall_impl; [exact (H w Hw) | exact Hs].
Qed.

(** The rules give a group one type. *)
Lemma typed_functional g t t' :
  typed SimpleFold RegexpString g t -> typed SimpleFold RegexpString g t' -> t = t'.
Proof.
  assert (forall s s', (forall r, r ∈ s -> r ∈ s') ->
            matchesOnly SimpleFold g s -> ~ matchesOnly SimpleFold g s' -> False)
    as Hmono by (intros s s' Hs H N; apply N; eapply matchesOnly_mono; eassumption).
  pose proof signs_intRunes as Hsi.
  pose proof intRunes_floatRunes as Hif.
  assert (forall r, r ∈ signs -> r ∈ floatRunes) as Hsf by auto.
  intros H H'.
  inversion H; subst; inversion H'; subst; try reflexivity; exfalso;
    try match goal with
        | Hp : plain g = true, Hc : composed g = false |- _ =>
            rewrite (plain_composed g Hp) in Hc; discriminate Hc
        end;
    try contradiction; try lia; try (intuition congruence);
    eauto using Hmono.
Qed.

Lemma InferCaprefType_group re n fuel (h : heap) r :
  getCaptureGroup re n = Ok r ->
  InferCaprefType RegexpString fuel re n h =
    match r with
    | None => Ok (None_, h)
    | Some g =>
        if negb (Op_eqb (Op_ g) OpAlternate)
        then liftRes (inferGroupType RegexpString g) h
        else lubBranches RegexpString fuel Undef (Sub g) h
    end.
Proof.
  intros Hr. unfold InferCaprefType, bind, liftRes at 1. rewrite Hr.
  destruct r as [g|]; [|reflexivity].
  destruct (negb (Op_eqb (Op_ g) OpAlternate)); reflexivity.
Qed.



(** C10.  When no node of the tree is a capturing group numbered [n],
    [InferCaprefType] returns the type [None]: it neither panics nor
    returns a type error, for any fuel and heap. *)
Theorem InferCaprefType_missing_group re n fuel (h : heap) :
  hasCapture re n = false ->
  InferCaprefType RegexpString fuel re n h = Ok (None_, h).
Proof.
  intros H. unfold InferCaprefType, bind, liftRes.
  rewrite (getCaptureGroup_none _ _ H). reflexivity.
Qed.

Lemma inferGroupType_range g t :
  inferGroupType RegexpString g = Ok t -> t = String \/ t = Int \/ t = Float.
Proof.
  unfold inferGroupType, rbind. repeat case_match; intros [= <-]; auto.
Qed.

Lemma inferGroupType_Int g :
  inferGroupType RegexpString g = Ok Int -> groupOnlyMatches g intRunes = Ok true.
Proof.
  unfold inferGroupType, rbind, intRunes. repeat case_match; intros [=]; subst; auto.
Qed.

Lemma inferGroupType_Float g :
  inferGroupType RegexpString g = Ok Float -> groupOnlyMatches g floatRunes = Ok true.
Proof.
  unfold inferGroupType, rbind, floatRunes. repeat case_match; intros [=]; subst; auto.
Qed.

(** What a group inferred [Int] or [Float] can match. *)
Lemma inferGroupType_sound g t w :
  foldsWithin SimpleFold intRunes -> foldsWithin SimpleFold floatRunes ->
  inferGroupType RegexpString g = Ok t -> matches SimpleFold g w ->
  ((rank t <= 1)%nat -> Forall (fun r => r ∈ intRunes) w) /\
  ((rank t <= 2)%nat -> Forall (fun r => r ∈ floatRunes) w).
Proof.
  intros Fi Ff Ht Hm. destruct (inferGroupType_range g t Ht) as [-> | [-> | ->]].
  - split; simpl; lia.
  - pose proof (groupOnlyMatches_sound _ _ Fi (inferGroupType_Int g Ht) w Hm) as Hs.
    split; intros _; [exact Hs|].
    eapply Forall_impl; [exact Hs|]. apply intRunes_floatRunes.
  - split; [simpl; lia|]. intros _.
    exact (groupOnlyMatches_sound _ _ Ff (inferGroupType_Float g Ht) w Hm).
Qed.

Lemma lubBranches_bound fuel subs : forall r0 (h h' : heap) t,
  (r0 <= 3)%nat ->
  lubBranches RegexpString fuel (ofRank r0) subs h = Ok (t, h') ->
  exists r, t = ofRank r /\ (r0 <= r <= 3)%nat /\
    Forall (fun g => exists tg, inferGroupType RegexpString g = Ok tg /\
                               (rank tg <= r)%nat) subs.
Proof.
  induction subs as [|g subs IH]; intros r0 h h' t Hr0; simpl.
  - intros [= <- <-]. exists r0. repeat split; auto.
  - unfold bind at 1, liftRes.
    destruct (inferGroupType RegexpString g) as [tg| |] eqn:Eg; try discriminate.
    unfold bind at 1.
    assert (tg = ofRank (rank tg)) as Etg.
    { destruct (inferGroupType_range g tg Eg) as [-> | [-> | ->]]; reflexivity. }
    pose proof (rank_le tg) as Hle.
    destruct fuel as [|k].
    { rewrite Etg. destruct r0 as [|[|[|r0]]], (rank tg) as [|[|[|r1]]]; discriminate. }
    rewrite Etg at 1. rewrite LeastUpperBound_rank by auto.
    intros H. apply IH in H as [r [-> [Hr Hall]]]; [|lia].
    exists r. split; [reflexivity|]. split; [lia|].
    constructor; [|exact Hall]. exists tg. split; [exact Eg|]. lia.
Qed.


End CaprefFacts.

Section GrammarFacts.
Import Grammar.

Lemma opt_nl_plain nl :
  opt_nl nl -> Forall (fun t => logical_op t = false) nl.
Proof. destruct 1; repeat constructor. Qed.

Lemma op_class_plain op :
  bitwise_op op = true \/ rel_op op = true \/ shift_op op = true \/
  add_op op = true \/ mul_op op = true \/ match_op op = true \/ postfix_op op = true ->
  logical_op op = false.
Proof. destruct op; simpl; intuition discriminate. Qed.

Ltac plain_lists :=
  repeat match goal with
    | H : Forall _ (_ ++ _) |- _ => apply Forall_app in H; destruct H
    | H : Forall _ (_ :: _) |- _ => apply Forall_cons in H; destruct H
    | |- Forall _ (_ ++ _) => apply Forall_app; split
    | |- Forall _ (_ :: _) => apply Forall_cons; split
    | |- Forall _ [] => constructor
    end.

Ltac plain_leaf :=
  solve [ assumption | reflexivity | discriminate
        | apply opt_nl_plain; assumption
        | apply op_class_plain; tauto ].

Lemma lower_plain x ts n :
  derives x ts n -> lower x = true ->
  Forall (fun t => bracket t = false) ts ->
  Forall (fun t => logical_op t = false) ts /\ hasLogical n = false.
Proof.
  induction 1; intros Hx Hts; simpl in Hx; try discriminate Hx;
    plain_lists; simpl in *; try discriminate;
    repeat match goal with
      | IH : true = true -> Forall ?P ?l -> _, H : Forall ?P ?l |- _ =>
          destruct (IH eq_refl H); clear IH
      end;
    (split; [plain_lists; try plain_leaf|]);
    rewrite ?existsb_app; simpl;
    repeat match goal with
      | H : hasLogical _ = false |- _ => rewrite H
      | H : existsb hasLogical _ = false |- _ => rewrite H
      end; simpl; rewrite ?orb_false_r; try plain_leaf.
Qed.

Lemma last_split_unique {A} (p : A -> bool) pre x post pre' x' post' :
  pre ++ x :: post = pre' ++ x' :: post' ->
  p x = true -> p x' = true ->
  Forall (fun t => p t = false) post -> Forall (fun t => p t = false) post' ->
  pre = pre' /\ x = x' /\ post = post'.
Proof.
  revert pre'. induction pre as [|a pre IH]; intros [|a' pre'] E Hx Hx' Hp Hp';
    simpl in E; injection E as -> E.
  - auto.
  - subst post. apply Forall_app in Hp as [_ Hp]. apply Forall_cons in Hp as [Hp _].
    congruence.
  - subst post'. apply Forall_app in Hp' as [_ Hp']. apply Forall_cons in Hp' as [Hp' _].
    congruence.
  - destruct (IH pre' E Hx Hx' Hp Hp') as [-> [-> ->]]. auto.
Qed.

Lemma logical_last_op ts n pre op post :
  derives logical_expr ts n ->
  Forall (fun t => bracket t = false) ts ->
  ts = pre ++ op :: post ->
  logical_op op = true ->
  Forall (fun t => logical_op t = false) post ->
  exists l r, n = BinaryExpr l r op /\ derives logical_expr pre l /\ hasLogical r = false.
Proof.
  intros Hd Hts E Hop Hpost.
  assert (forall x, lower x = true -> derives x ts n -> False) as Hlow.
  { intros x Hx Hdx. destruct (lower_plain x ts n Hdx Hx Hts) as [Hall _].
    subst ts. apply Forall_app in Hall as [_ Hall].
    apply Forall_cons in Hall as [Hall _]. congruence. }
  assert (forall x t1 n1 op' nl t4 n4,
             ts = t1 ++ op' :: nl ++ t4 -> n = BinaryExpr n1 n4 op' ->
             derives logical_expr t1 n1 -> logical_op op' = true -> opt_nl nl ->
             lower x = true -> derives x t4 n4 ->
             exists l r, n = BinaryExpr l r op /\ derives logical_expr pre l /\
                         hasLogical r = false) as Hbin.
  { intros x t1 n1 op' nl t4 n4 E' -> H1 Hop' Hnl Hx H4.
    rewrite E' in Hts. plain_lists.
    destruct (lower_plain x t4 n4 H4 Hx) as [H4l H4n]; [assumption|].
    rewrite E in E'.
    destruct (last_split_unique logical_op pre op post t1 op' (nl ++ t4) E')
      as [-> [-> _]]; auto.
    { apply Forall_app; split; [apply opt_nl_plain|]; assumption. }
    eauto. }
  inversion Hd; subst.
  - exfalso. eapply (Hlow bitwise_expr); eauto.
  - exfalso. eapply (Hlow match_expr); eauto.
  - eapply (Hbin bitwise_expr); eauto.
  - eapply (Hbin match_expr); eauto.
Qed.

Lemma logical_left_nested_derivation ta a tb b tc c op1 op2 :
  derives bitwise_expr ta a -> derives bitwise_expr tb b ->
  derives bitwise_expr tc c ->
  logical_op op1 = true -> logical_op op2 = true ->
  derives logical_expr (ta ++ op1 :: tb ++ op2 :: tc)
    (BinaryExpr (BinaryExpr a b op1) c op2).
Proof.
  intros Ha Hb Hc H1 H2.
  replace (ta ++ op1 :: tb ++ op2 :: tc)
    with ((ta ++ op1 :: [] ++ tb) ++ op2 :: [] ++ tc)
    by (simpl; rewrite <- app_assoc; reflexivity).
  apply logical_op_bitwise; auto using opt_nl_empty.
  apply logical_op_bitwise; auto using opt_nl_empty, logical_bitwise.
Qed.

Lemma logical_left_nested_only ta a tb b tc c op1 op2 n :
  derives bitwise_expr ta a -> derives bitwise_expr tb b ->
  derives bitwise_expr tc c ->
  logical_op op1 = true -> logical_op op2 = true ->
  Forall (fun t => bracket t = false) (ta ++ tb ++ tc) ->
  derives logical_expr (ta ++ op1 :: tb ++ op2 :: tc) n ->
  exists a' b' c', n = BinaryExpr (BinaryExpr a' b' op1) c' op2 /\
    hasLogical a' = false /\ hasLogical b' = false /\ hasLogical c' = false.
Proof.
  intros Ha Hb Hc H1 H2 Hplain Hn. plain_lists.
  destruct (lower_plain _ _ _ Ha eq_refl) as [Hta _]; [assumption|].
  destruct (lower_plain _ _ _ Hb eq_refl) as [Htb _]; [assumption|].
  destruct (lower_plain _ _ _ Hc eq_refl) as [Htc _]; [assumption|].
  assert (bracket op1 = false /\ bracket op2 = false) as [Hb1 Hb2]
    by (destruct op1, op2; try discriminate; auto).
  destruct (logical_last_op _ n (ta ++ op1 :: tb) op2 tc Hn) as [l [c' [-> [Hl Hc']]]];
    auto.
  { plain_lists; auto. }
  { rewrite <- app_assoc. reflexivity. }
  destruct (logical_last_op _ l ta op1 tb Hl) as [a' [b' [-> [Ha' Hb']]]]; auto.
  { plain_lists; auto. }
  exists a', b', c'. repeat split; auto.
  inversion Ha'; subst.
  + eapply lower_plain; eauto.
  + eapply lower_plain; eauto.
  + exfalso. plain_lists. simpl in *. congruence.
  + exfalso. plain_lists. simpl in *. congruence.
Qed.

Lemma depthAfter_app d a b :
  depthAfter d (a ++ b) = depthAfter (depthAfter d a) b.
Proof.
  revert d. induction a as [|t a IH]; intros d; [reflexivity|].
  destruct t; simpl; apply IH.
Qed.

Lemma topLogical_app d a b :
  topLogical d (a ++ b) = topLogical d a || topLogical (depthAfter d a) b.
Proof.
  revert d. induction a as [|t a IH]; intros d; [reflexivity|].
  destruct t; simpl; rewrite ?IH, ?orb_assoc; reflexivity.
Qed.

Ltac scan_step :=
  repeat (rewrite ?depthAfter_app, ?topLogical_app; simpl;
          repeat match goal with
            | H : forall d, depthAfter d ?t = d |- _ => rewrite !H
            | H : forall d, topLogical (S d) ?t = false |- _ => rewrite !H
            | H : topLogical 0 ?t = false |- _ => rewrite !H
            end).

(** The brackets of a derived token string are closed in it, no logical
    operator of it is read with a bracket open before it, and below
    [logical_expr] none stands outside the brackets. *)
Lemma derives_scan x ts n :
  derives x ts n ->
  (forall d, depthAfter d ts = d) /\
  (forall d, topLogical (S d) ts = false) /\
  (lower x = true -> topLogical 0 ts = false).
Proof.
  induction 1;
    repeat match goal with
      | IH : _ /\ _ /\ _ |- _ => destruct IH as (? & ? & ?)
      end;
    repeat match goal with
      | H : opt_nl _ |- _ => destruct H
      end;
    try match goal with
      | H : _ ?op = true |- _ => is_var op; destruct op; try discriminate H
      end;
    simpl lower in *;
    repeat match goal with
      | H : true = true -> _ |- _ => specialize (H eq_refl)
      end;
    (split; [|split]); intros; try discriminate; scan_step; auto.
Qed.

(** A derived token string begins with a token that is not a newline. *)
Lemma derives_first x ts n :
  derives x ts n -> exists t rest, ts = t :: rest /\ t <> NL.
Proof.
  induction 1;
    repeat match goal with
      | IH : exists t rest, _ = t :: rest /\ _ |- _ =>
          destruct IH as (? & ? & -> & ?)
      end;
    simpl; try (eexists _, _; split; [reflexivity | congruence]).
Qed.

Lemma opt_nl_operand nl t nl' t' x n x' n' :
  opt_nl nl -> opt_nl nl' -> derives x t n -> derives x' t' n' ->
  nl ++ t = nl' ++ t' -> nl = nl' /\ t = t'.
Proof.
  intros Hnl Hnl' Hd Hd' E.
  destruct (derives_first _ _ _ Hd) as (a & r & -> & Ha).
  destruct (derives_first _ _ _ Hd') as (a' & r' & -> & Ha').
  destruct Hnl, Hnl'; simpl in E.
  - split; [reflexivity | exact E].
  - exfalso. congruence.
  - exfalso. congruence.
  - split; [reflexivity | congruence].
Qed.

Lemma opt_nl_scan nl t :
  opt_nl nl -> topLogical 0 t = false -> topLogical 0 (nl ++ t) = false.
Proof. destruct 1; simpl; auto. Qed.

Lemma logical_op_scan op d rest :
  logical_op op = true ->
  depthAfter d (op :: rest) = depthAfter d rest /\
  topLogical 0 (op :: rest) = true.
Proof. destruct op; try discriminate; auto. Qed.

(** The last logical operator outside the brackets is found at one place
    only. *)
Lemma last_top_split_unique pre op post pre' op' post' :
  pre ++ op :: post = pre' ++ op' :: post' ->
  logical_op op = true -> logical_op op' = true ->
  (forall d, depthAfter d pre = d) -> (forall d, depthAfter d pre' = d) ->
  topLogical 0 post = false -> topLogical 0 post' = false ->
  pre = pre' /\ op = op' /\ post = post'.
Proof.
  intros E Hop Hop' Hpre Hpre' Hpost Hpost'.
  assert (forall p o q p' o' q',
             logical_op o = true -> logical_op o' = true ->
             (forall d, depthAfter d p = d) -> (forall d, depthAfter d p' = d) ->
             topLogical 0 q = false ->
             forall mid, p' = p ++ o :: mid -> q = mid ++ o' :: q' -> False) as Hno.
  { intros p o q p' o' q' Ho Ho' Hp Hp' Hq mid -> ->.
    rewrite topLogical_app in Hq. apply orb_false_iff in Hq as [_ Hq].
    specialize (Hp' 0%nat). rewrite depthAfter_app, Hp in Hp'.
    destruct (logical_op_scan o 0 mid Ho) as [Ed _]. rewrite Ed in Hp'.
    rewrite Hp' in Hq.
    destruct (logical_op_scan o' 0 q' Ho') as [_ Et]. congruence. }
  apply app_eq_app in E as [l [[Ep E]|[Ep E]]].
  - destruct l as [|t l]; simpl in E.
    + rewrite app_nil_r in Ep. injection E as E1 E2. auto.
    + injection E as E1 E2. exfalso.
      apply (Hno pre' op' post' pre op post Hop' Hop Hpre' Hpre Hpost' l);
        [rewrite E1; exact Ep | exact E2].
  - destruct l as [|t l]; simpl in E.
    + rewrite app_nil_r in Ep. injection E as E1 E2. auto.
    + injection E as E1 E2. exfalso.
      apply (Hno pre op post pre' op' post' Hop Hop' Hpre Hpre' Hpost l);
        [rewrite E1; exact Ep | exact E2].
Qed.

(** A [logical_expr] whose tokens end in a logical operator outside the
    brackets and an operand is built by one of the two productions with
    a logical operator, at that operator. *)
Lemma logical_top_split pre op nl x t r0 n :
  derives logical_expr (pre ++ op :: nl ++ t) n ->
  (forall d, depthAfter d pre = d) ->
  logical_op op = true -> opt_nl nl ->
  operand x = true -> derives x t r0 ->
  exists l r, n = BinaryExpr l r op /\ derives logical_expr pre l /\
    (derives bitwise_expr t r \/ derives match_expr t r).
Proof.
  intros Hd Hpre Hop Hnl Hx Ht.
  assert (topLogical 0 t = false) as Ht0.
  { apply (derives_scan _ _ _ Ht). destruct x; try discriminate Hx; reflexivity. }
  assert (forall y, lower y = true -> derives y (pre ++ op :: nl ++ t) n -> False)
    as Hlow.
  { intros y Hy Hdy. destruct (derives_scan _ _ _ Hdy) as (_ & _ & H0).
    specialize (H0 Hy). rewrite topLogical_app, Hpre in H0.
    apply orb_false_iff in H0 as [_ H0].
    destruct (logical_op_scan op 0 (nl ++ t) Hop) as [_ Et]. congruence. }
  assert (forall y t1 n1 op' nl' t4 n4,
             t1 ++ op' :: nl' ++ t4 = pre ++ op :: nl ++ t ->
             derives logical_expr t1 n1 -> logical_op op' = true -> opt_nl nl' ->
             lower y = true -> derives y t4 n4 ->
             t1 = pre /\ op' = op /\ t4 = t) as Hbin.
  { intros y t1 n1 op' nl' t4 n4 E H1 Hop' Hnl' Hy H4.
    destruct (derives_scan _ _ _ H1) as (Hb1 & _ & _).
    destruct (derives_scan _ _ _ H4) as (_ & _ & H40). specialize (H40 Hy).
    destruct (last_top_split_unique _ _ _ _ _ _ E) as (E1 & E2 & E3); auto.
    { apply opt_nl_scan; assumption. }
    { apply opt_nl_scan; assumption. }
    destruct (opt_nl_operand _ _ _ _ _ _ _ _ Hnl' Hnl H4 Ht E3) as [_ E4]. auto. }
  inversion Hd; subst.
  - exfalso. eapply (Hlow bitwise_expr); [reflexivity | eassumption].
  - exfalso. eapply (Hlow match_expr); [reflexivity | eassumption].
  - match goal with
    | E : _ = pre ++ op :: nl ++ t, H1 : derives logical_expr ?t1 ?n1,
      H4 : derives bitwise_expr ?t4 ?n4, Ho : logical_op _ = true, Hl : opt_nl _ |- _ =>
        destruct (Hbin bitwise_expr _ _ _ _ _ _ E H1 Ho Hl eq_refl H4)
          as (E1 & E2 & E3);
        exists n1, n4; rewrite <- E1, <- E2, <- E3; auto
    end.
  - match goal with
    | E : _ = pre ++ op :: nl ++ t, H1 : derives logical_expr ?t1 ?n1,
      H4 : derives match_expr ?t4 ?n4, Ho : logical_op _ = true, Hl : opt_nl _ |- _ =>
        destruct (Hbin match_expr _ _ _ _ _ _ E H1 Ho Hl eq_refl H4)
          as (E1 & E2 & E3);
        exists n1, n4; rewrite <- E1, <- E2, <- E3; auto
    end.
Qed.

Lemma logical_operand x t r :
  operand x = true -> derives x t r -> derives logical_expr t r.
Proof.
  destruct x; try discriminate; intros _ H;
    [apply logical_bitwise | apply logical_match]; exact H.
Qed.

Lemma logical_operand_op x t1 n1 op nl t4 n4 :
  derives logical_expr t1 n1 -> logical_op op = true -> opt_nl nl ->
  operand x = true -> derives x t4 n4 ->
  derives logical_expr (t1 ++ op :: nl ++ t4) (BinaryExpr n1 n4 op).
Proof.
  destruct x; try discriminate; intros H1 Hop Hnl _ H4;
    [apply logical_op_bitwise | apply logical_op_match]; assumption.
Qed.

Lemma logical_chain_assoc (ta : list token) op1 nl1 tb op2 nl2 tc :
  ta ++ op1 :: nl1 ++ tb ++ op2 :: nl2 ++ tc =
  (ta ++ op1 :: nl1 ++ tb) ++ op2 :: nl2 ++ tc.
Proof. rewrite <- !app_assoc. simpl. rewrite <- !app_assoc. reflexivity. Qed.

(** C8.  The operators [&&] and [||] are on one level of the grammar and
    associate to the left.  Let [a] be a [logical_expr], let [b] and [c]
    be operands of a logical operator, each a [bitwise_expr] or a
    [match_expr] (so an operand may be a pattern, and may hold brackets:
    an index, the arguments of a builtin, an expression in parentheses),
    and let [op1], [op2] be logical operators, each followed by an
    optional newline.  The tokens [a op1 b op2 c] derive a [logical_expr]
    whose node has [op2] at the root and the node of [a op1 b] as its
    left operand; and every derivation of a [logical_expr] from these
    tokens builds a node of this shape, the three operand nodes being
    derived from the tokens of [a], of [b] and of [c]. *)
Theorem logical_ops_share_one_level ta a xb tb b xc tc c op1 nl1 op2 nl2 :
  derives logical_expr ta a ->
  operand xb = true -> derives xb tb b ->
  operand xc = true -> derives xc tc c ->
  logical_op op1 = true -> logical_op op2 = true ->
  opt_nl nl1 -> opt_nl nl2 ->
  derives logical_expr (ta ++ op1 :: nl1 ++ tb ++ op2 :: nl2 ++ tc)
    (BinaryExpr (BinaryExpr a b op1) c op2) /\
  (forall n, derives logical_expr (ta ++ op1 :: nl1 ++ tb ++ op2 :: nl2 ++ tc) n ->
     exists a' b' c', n = BinaryExpr (BinaryExpr a' b' op1) c' op2 /\
       derives logical_expr ta a' /\
       (derives bitwise_expr tb b' \/ derives match_expr tb b') /\
       (derives bitwise_expr tc c' \/ derives match_expr tc c')).
Proof.
  intros Ha Hxb Hb Hxc Hc H1 H2 Hn1 Hn2.
  assert (derives logical_expr (ta ++ op1 :: nl1 ++ tb) (BinaryExpr a b op1)) as Hab
    by exact (logical_operand_op xb _ _ _ _ _ _ Ha H1 Hn1 Hxb Hb).
  rewrite logical_chain_assoc. split.
  - exact (logical_operand_op xc _ _ _ _ _ _ Hab H2 Hn2 Hxc Hc).
  - intros n Hn.
    destruct (logical_top_split _ _ _ xc _ c _ Hn (proj1 (derives_scan _ _ _ Hab))
                H2 Hn2 Hxc Hc) as (l & c' & -> & Hl & Hc').
    destruct (logical_top_split _ _ _ xb _ b _ Hl (proj1 (derives_scan _ _ _ Ha))
                H1 Hn1 Hxb Hb) as (a' & b' & -> & Ha' & Hb').
    exists a', b', c'. auto.
Qed.

Lemma Node_ind' (P : Node -> Prop) :
  (forall l r op, P l -> P r -> P (BinaryExpr l r op)) ->
  (forall e op, P e -> P (UnaryExpr e op)) ->
  (forall l i, P l -> P i -> P (IndexedExpr l i)) ->
  (forall cs, Forall P cs -> P (ExprList cs)) ->
  (forall name a, P a -> P (BuiltinExpr name (Some a))) ->
  (forall name, P (BuiltinExpr name None)) ->
  (forall name named, P (CaprefTerm name named)) ->
  (forall text, P (StringLit text)) ->
  (forall v, P (IntLit v)) ->
  (forall v, P (FloatLit v)) ->
  (forall name, P (IdTerm name)) ->
  (forall e, P e -> P (PatternExpr e)) ->
  (forall text, P (PatternLit text)) ->
  forall n, P n.
Proof.
  intros HB HU HI HL HBs HBn HC HS HIn HF HId HP HPl.
  fix IH 1. intros [l r op|e op|l i|cs|name [a|]|name named|text|v|v|name|e|text].
  - apply HB; apply IH.
  - apply HU; apply IH.
  - apply HI; apply IH.
  - apply HL. induction cs as [|c cs IHcs]; constructor; [apply IH | exact IHcs].
  - apply HBs; apply IH.
  - apply HBn.
  - apply HC.
  - apply HS.
  - apply HIn.
  - apply HF.
  - apply HId.
  - apply HP; apply IH.
  - apply HPl.
Qed.

Lemma hasLogical_isAndNode n : hasLogical n = false -> isAndNode n = false.
Proof.
  destruct n as [l r op| | | | | | | | | | |]; try reflexivity.
  destruct op; try reflexivity. simpl. discriminate.
Qed.

Lemma hasLogical_andUnderOr n : hasLogical n = false -> andUnderOr n = false.
Proof.
  induction n as [l r op IHl IHr|e op IHe|l i IHl IHi|cs IHcs|name a IHa| | | | | | |e IHe|]
    using Node_ind'; simpl; intros H; auto.
  - apply orb_false_iff in H as [H Hr]. apply orb_false_iff in H as [Hop Hl].
    rewrite (IHl Hl), (IHr Hr), !orb_false_r.
    destruct op; try reflexivity; discriminate Hop.
  - apply orb_false_iff in H as [Hl Hi]. rewrite (IHl Hl), (IHi Hi). reflexivity.
  - induction IHcs as [|c cs Hc _ IH]; [reflexivity|].
    simpl in H |- *. apply orb_false_iff in H as [H1 H2].
    rewrite (Hc H1), (IH H2). reflexivity.
Qed.

Lemma derives_identifier name :
  derives bitwise_expr [ID name] (IndexedExpr (IdTerm name) (ExprList [])).
Proof.
  apply bitwise_rel, rel_shift, shift_additive, additive_multiplicative,
    multiplicative_unary, unary_postfix, postfix_primary, primary_indexed,
    indexed_id, id_ID.
Qed.

End GrammarFacts.

Section ClosedStatements.
Import Types syntax Capref Grammar Examples.
Local Open Scope go_scope.

(** ** C1: the join of two equal operator types with arguments *)

(** C1 (code defect).  [LeastUpperBound] starts with [Equals(a1, b1)], and
    the loop of [Equals] reads [t2.Args[2]] for every index: on two
    [Function(Int, Int)] types the index is out of range and the call
    panics, where the lattice makes the join of equal types that type. On
    operators with three arguments the same loop compares every argument
    of the first type with the third argument of the second, so two
    different types are joined as if they were equal. *)
Theorem LeastUpperBound_equal_operators_panics :
  forall k (h : heap),
    LeastUpperBound (S k) (Function [Int; Int]) (Function [Int; Int]) h = Panic /\
    LeastUpperBound (S (S k)) (Function [Int; Int; Int])
      (Function [String; String; Int]) h = Ok (Function [Int; Int; Int], h).
Proof. intros k h. split; reflexivity. Qed.

(** ** C5: a variable unified with an operator that contains it *)

(** C5 (code defect).  With the variable first, the occurs-check answers
    [TypeError{RecursiveUnification}]; with the operator first, [Unify]
    swaps the arguments, runs the same check, and then rebuilds the error
    with the kind [ErrTypeMismatch]. In both orders nothing is bound. *)
Theorem Unify_operator_first_recursive_is_mismatch :
  let v := TVariable 1 in
  let f := Function [v; Int] in
  Unify 8 v f heapOne =
    Ok (TTypeError (Some ErrRecursiveUnification) (Some v) (Some f), heapOne) /\
  Unify 8 f v heapOne = Ok (mismatch f v, heapOne).
Proof. split; vm_compute; reflexivity. Qed.

(** ** C10, C2, C3: closed statements on capture groups *)

Lemma InferCaprefType_missing_group_witness :
  hasCapture (lit "abc") 1 = false /\
  InferCaprefType syntaxString 1 (lit "abc") 1 ∅ = Ok (None_, ∅).
Proof.
  split; [reflexivity|].
  apply (InferCaprefType_missing_group syntaxString (lit "abc") 1 1 ∅).
  reflexivity.
Defined.




(** The group of [(D+\b)] holds an assertion: [groupOnlyMatches] answers
    false for every set of runes, and the type is [String], the rule
    [typed_other]. *)
Lemma InferCaprefType_assertion_group_is_String :
  getCaptureGroup reDigitsBoundary 1 =
    Ok (Some (cat [plus digit; mkRegexp OpWordBoundary 0 [] [] 0 0 0 []])) /\
  composed (cat [plus digit; mkRegexp OpWordBoundary 0 [] [] 0 0 0 []]) = false /\
  typed asciiFold syntaxString
    (cat [plus digit; mkRegexp OpWordBoundary 0 [] [] 0 0 0 []]) String /\
  InferCaprefType syntaxString 1 reDigitsBoundary 1 ∅ = Ok (String, ∅).
Proof.
  split; [reflexivity|]. split; [reflexivity|].
  split; [apply typed_other; reflexivity | reflexivity].
Qed.


(** ** C8: closed statements on the grammar *)

Lemma derives_primary_up ts n :
  derives primary_expr ts n -> derives bitwise_expr ts n.
Proof.
  intros H.
  apply bitwise_rel, rel_shift, shift_additive, additive_multiplicative,
    multiplicative_unary, unary_postfix, postfix_primary, H.
Qed.

Lemma derives_tokensIndexed : derives logical_expr tokensIndexed nodeIndexed.
Proof.
  apply logical_bitwise, derives_primary_up, primary_indexed.
  apply (indexed_index [ID "m"] (IdTerm "m") [] [ID "k"] [ident "k"]).
  - apply indexed_id, id_ID.
  - apply arg_first, derives_identifier.
Qed.

Lemma derives_tokensPattern : derives match_expr tokensPattern nodePattern.
Proof.
  apply match_implicit, implicit_match_pattern, pattern_concat, concat_regex,
    regex_pattern_lit.
Qed.

Lemma derives_tokensParen : derives bitwise_expr tokensParen nodeParen.
Proof.
  apply derives_primary_up.
  apply (primary_paren [ID "x"; OR; ID "y"]).
  apply (logical_op_bitwise [ID "x"] (ident "x") OR [] [ID "y"] (ident "y"));
    [apply logical_bitwise, derives_identifier | reflexivity | apply opt_nl_empty
    | apply derives_identifier].
Qed.

Lemma logical_ops_share_one_level_witness :
  derives logical_expr tokensIndexed nodeIndexed /\
  operand match_expr = true /\ derives match_expr tokensPattern nodePattern /\
  operand bitwise_expr = true /\ derives bitwise_expr tokensParen nodeParen /\
  logical_op OR = true /\ logical_op AND = true /\
  opt_nl [] /\ opt_nl [NL] /\
  derives logical_expr
    (tokensIndexed ++ OR :: [] ++ tokensPattern ++ AND :: [NL] ++ tokensParen)
    (BinaryExpr (BinaryExpr nodeIndexed nodePattern OR) nodeParen AND) /\
  (forall n,
     derives logical_expr
       (tokensIndexed ++ OR :: [] ++ tokensPattern ++ AND :: [NL] ++ tokensParen) n ->
     exists a' b' c', n = BinaryExpr (BinaryExpr a' b' OR) c' AND /\
       derives logical_expr tokensIndexed a' /\
       (derives bitwise_expr tokensPattern b' \/ derives match_expr tokensPattern b') /\
       (derives bitwise_expr tokensParen c' \/ derives match_expr tokensParen c')).
Proof.
  split; [exact derives_tokensIndexed|].
  split; [reflexivity|]. split; [exact derives_tokensPattern|].
  split; [reflexivity|]. split; [exact derives_tokensParen|].
  split; [reflexivity|]. split; [reflexivity|].
  split; [exact opt_nl_empty|]. split; [exact opt_nl_NL|].
  exact (logical_ops_share_one_level tokensIndexed nodeIndexed
           match_expr tokensPattern nodePattern
           bitwise_expr tokensParen nodeParen OR [] AND [NL]
           derives_tokensIndexed eq_refl derives_tokensPattern
           eq_refl derives_tokensParen eq_refl eq_refl opt_nl_empty opt_nl_NL).
Defined.

(** [a || b && c] has a parse, every parse of it has [&&] at the root
    with the [||] node as its left operand, and in no parse is an [&&]
    node an operand of an [||] node. *)
Lemma or_and_parses_left_nested :
  derives logical_expr tokensOrAnd
    (BinaryExpr (BinaryExpr (ident "a") (ident "b") OR) (ident "c") AND) /\
  forall n, derives logical_expr tokensOrAnd n ->
    (exists a' b' c', n = BinaryExpr (BinaryExpr a' b' OR) c' AND) /\
    andUnderOr n = false.
Proof.
  pose proof (derives_identifier "a") as Da.
  pose proof (derives_identifier "b") as Db.
  pose proof (derives_identifier "c") as Dc.
  split.
  { exact (logical_left_nested_derivation _ _ _ _ _ _ OR AND Da Db Dc eq_refl eq_refl). }
  intros n Hn.
  destruct (logical_left_nested_only _ _ _ _ _ _ OR AND n Da Db Dc eq_refl eq_refl
              ltac:(repeat constructor) Hn) as [a' [b' [c' [-> [Ha [Hb Hc]]]]]].
  split; [eauto|].
  simpl. rewrite (hasLogical_isAndNode _ Ha), (hasLogical_isAndNode _ Hb).
  rewrite (hasLogical_andUnderOr _ Ha), (hasLogical_andUnderOr _ Hb),
    (hasLogical_andUnderOr _ Hc). reflexivity.
Qed.

(** ** C9, C6, C4, C7: closed statements on types *)

Lemma Root_returns_representative_and_compresses_witness :
  heapChain !! 3%nat = Some (mkVariable 12 (Some (TVariable 2))) /\
  path heapChain (TVariable 2) [2%nat] (TVariable 1) /\
  exists h',
    Root 3 (TVariable 3) heapChain = Ok (TVariable 1, h') /\
    h' !! 3%nat = Some (mkVariable 12 (Some (TVariable 1))) /\
    h' !! 2%nat = Some (mkVariable 11 (Some (TVariable 1))) /\
    h' !! 1%nat = Some (mkVariable 10 None).
Proof.
  assert (path heapChain (TVariable 2) [2%nat] (TVariable 1)) as Hp.
  { apply (path_bound heapChain 2 (mkVariable 11 (Some (TVariable 1))) (TVariable 1)
             [] (TVariable 1)); [reflexivity | reflexivity |].
    apply (path_unbound heapChain 1 (mkVariable 10 None)); reflexivity. }
  split; [reflexivity|]. split; [exact Hp|].
  destruct (Root_returns_representative_and_compresses heapChain 3
              (mkVariable 12 (Some (TVariable 2))) eq_refl) as [_ H].
  destruct (H (TVariable 2) [2%nat] (TVariable 1) eq_refl Hp 2%nat
              ltac:(simpl; lia)) as [h' [HR [_ [_ [Hin Hout]]]]].
  exists h'. split; [exact HR|]. split; [|split].
  - apply (Hin 3%nat (mkVariable 12 (Some (TVariable 2))));
      [apply list_elem_of_here | reflexivity].
  - apply (Hin 2%nat (mkVariable 11 (Some (TVariable 1))));
      [apply list_elem_of_further, list_elem_of_here | reflexivity].
  - rewrite Hout; [reflexivity|].
    intros Hq. apply elem_of_cons in Hq as [Hq|Hq]; [discriminate Hq|].
    apply elem_of_cons in Hq as [Hq|Hq]; [discriminate Hq|].
    apply elem_of_nil in Hq. exact Hq.
Defined.

Lemma LeastUpperBound_laws_witness :
  path heapChain (TVariable 3) [3%nat; 2%nat] (TVariable 1) /\
  path heapChain Int [] Int /\
  (isVariable (TVariable 1) = true \/ TVariable 1 ∈ builtins) /\
  (isVariable Int = true \/ Int ∈ builtins) /\
  (length [3%nat; 2%nat] + length (@nil nat) + 4 <= 6)%nat /\
  (exists h', LeastUpperBound 6 (TVariable 3) (TVariable 3) heapChain =
                Ok (TVariable 1, h')) /\
  (exists t1 h1 t2 h2,
     LeastUpperBound 6 (TVariable 3) Int heapChain = Ok (t1, h1) /\
     LeastUpperBound 6 Int (TVariable 3) heapChain = Ok (t2, h2) /\
     (t1 = t2 \/ (t1 = mismatch (TVariable 3) Int /\ t2 = mismatch Int (TVariable 3)))).
Proof.
  assert (path heapChain (TVariable 3) [3%nat; 2%nat] (TVariable 1)) as Ha.
  { apply (path_bound heapChain 3 (mkVariable 12 (Some (TVariable 2))) (TVariable 2)
             [2%nat] (TVariable 1)); [reflexivity | reflexivity |].
    apply (path_bound heapChain 2 (mkVariable 11 (Some (TVariable 1))) (TVariable 1)
             [] (TVariable 1)); [reflexivity | reflexivity |].
    apply (path_unbound heapChain 1 (mkVariable 10 None)); reflexivity. }
  assert (path heapChain Int [] Int) as Hb by apply path_operator.
  assert (Int ∈ builtins) as Hi.
  { unfold builtins. apply list_elem_of_further, list_elem_of_further,
      list_elem_of_further, list_elem_of_here. }
  destruct (LeastUpperBound_laws 6 heapChain (TVariable 3) Int [3%nat; 2%nat] []
              (TVariable 1) Int Ha Hb (or_introl eq_refl) (or_intror Hi)
              ltac:(simpl; lia)) as [H1 [H2 _]].
  split; [exact Ha|]. split; [exact Hb|]. split; [left; reflexivity|].
  split; [right; exact Hi|]. split; [simpl; lia|].
  split; [exact H1 | exact (H2 eq_refl)].
Defined.

(** Two unbound variables with distinct ids: the join is the second
    argument in either order, and the two results are different
    variables, also for [Equals]. *)
Lemma LeastUpperBound_variables_not_commutative :
  LeastUpperBound 2 (TVariable 1) (TVariable 2) heapTwo = Ok (TVariable 2, heapTwo) /\
  LeastUpperBound 2 (TVariable 2) (TVariable 1) heapTwo = Ok (TVariable 1, heapTwo) /\
  Equals 2 (TVariable 2) (TVariable 1) heapTwo = Ok (false, heapTwo) /\
  TVariable 2 <> TVariable 1.
Proof.
  repeat split; try (vm_compute; reflexivity). discriminate.
Qed.

Lemma Unify_operators_witness :
  Root 3 (Function [Int; Int]) ∅ = Ok (TOperator "→" [Int; Int], ∅) /\
  Root 3 (Function [Float; Int]) ∅ = Ok (TOperator "→" [Float; Int], ∅) /\
  pairwise (Unify 3) [Int; Int] [Float; Int] ∅ (inr [Float; Int]) ∅ /\
  Unify 4 (Function [Int; Int]) (Function [Float; Int]) ∅ =
    Ok (TOperator "→" [Float; Int], ∅).
Proof.
  assert (pairwise (Unify 3) [Int; Int] [Float; Int] ∅ (inr [Float; Int]) ∅) as Hp.
  { apply (pairwise_cons (Unify 3) Int [Int] Float [Int] ∅ Float ∅ (inr [Int]) ∅);
      [reflexivity | reflexivity |].
    apply (pairwise_cons (Unify 3) Int [] Int [] ∅ Int ∅ (inr []) ∅);
      [reflexivity | reflexivity |].
    apply pairwise_nil. }
  split; [reflexivity|]. split; [reflexivity|]. split; [exact Hp|].
  destruct (Unify_operators 3 ∅ (Function [Int; Int]) (Function [Float; Int]) ∅ ∅
              "→" [Int; Int] "→" [Float; Int] eq_refl eq_refl) as [_ [_ H]].
  exact (H eq_refl eq_refl (inr [Float; Int]) ∅ Hp).
Defined.

Lemma Unify_idempotent_on_resolved_witness :
  Unify 8 (TVariable 1) (Function [TVariable 2]) heapBound =
    Ok (Function [TVariable 2],
        <[1%nat := mkVariable 10 (Some (Function [TVariable 2]))]> heapBound) /\
  resolves (<[1%nat := mkVariable 10 (Some (Function [TVariable 2]))]> heapBound)
    1 2 (Function [TVariable 2]) (Function [Int]) /\
  exists h',
    Unify (1 + 2 + 2) (Function [TVariable 2]) (Function [TVariable 2])
      (<[1%nat := mkVariable 10 (Some (Function [TVariable 2]))]> heapBound) =
      Ok (Function [Int], h').
Proof.
  set (h := <[1%nat := mkVariable 10 (Some (Function [TVariable 2]))]> heapBound).
  assert (Unify 8 (TVariable 1) (Function [TVariable 2]) heapBound =
            Ok (Function [TVariable 2], h)) as Hu by (vm_compute; reflexivity).
  assert (resolves h 1 2 (Function [TVariable 2]) (Function [Int])) as Hr.
  { apply (resolves_operator h 1 1 (Function [TVariable 2]) [] "→" [TVariable 2] [Int]);
      [apply path_operator | simpl; lia |].
    apply List.Forall2_cons; [|apply List.Forall2_nil].
    apply (resolves_operator h 1 0 (TVariable 2) [2%nat] "Int" [] []);
      [| simpl; lia | apply List.Forall2_nil].
    apply (path_bound h 2 (mkVariable 11 (Some Int)) Int [] Int);
      [reflexivity | reflexivity | apply path_operator]. }
  split; [exact Hu|]. split; [exact Hr|].
  destruct (Unify_idempotent_on_resolved 8 heapBound (TVariable 1)
              (Function [TVariable 2]) (Function [TVariable 2]) h 1 2 (Function [Int])
              Hu Hr) as [h' [H _]].
  exists h'. exact H.
Defined.

(** [Int] and [None] do not unify; the result is a [TypeError{Mismatch}],
    and unifying that error with itself gives a [TypeError{Internal}]. *)
Lemma Unify_error_not_idempotent :
  Unify 2 Int None_ ∅ = Ok (mismatch Int None_, ∅) /\
  Unify 2 (mismatch Int None_) (mismatch Int None_) ∅ =
    Ok (TTypeError (Some ErrInternal) (Some (mismatch Int None_))
          (Some (mismatch Int None_)), ∅) /\
  TTypeError (Some ErrInternal) (Some (mismatch Int None_)) (Some (mismatch Int None_))
    <> mismatch Int None_.
Proof.
  repeat split; try (vm_compute; reflexivity). discriminate.
Qed.

End ClosedStatements.

(** ** Completeness, the occurs-check and the binding of variables *)

Section MoreTypesFacts.
Import Types.
Local Open Scope go_scope.

Lemma resolves_weaken L L' (h : heap) :
  (L <= L')%nat -> forall n t t', resolves h L n t t' -> resolves h L' n t t'.
Proof.
  intros HL. induction n as [|n IH]; intros t t' H;
    inversion H as [n0 t0 ps p Hp Hl|n0 t0 ps name args args' Hp Hl Hargs]; subst.
  - eapply resolves_variable; [exact Hp | lia].
  - eapply resolves_variable; [exact Hp | lia].
  - eapply resolves_operator; [exact Hp | lia |].
    eapply Forall2_impl; [exact Hargs | exact IH].
Qed.

Lemma allComplete_resolved L n m (h : heap) args args' :
  (forall h t t', resolves h L n t t' ->
     exists h', IsComplete m t h = Ok (ground t', h') /\ shortens h h') ->
  Forall2 (resolves h L n) args args' ->
  exists h', allComplete (IsComplete m) args h = Ok (forallb ground args', h') /\
             shortens h h'.
Proof.
  intros IH Hargs. revert h Hargs.
  induction args as [|x args IHargs] in args' |- *; intros h Hargs;
    inversion Hargs as [|x0 x' l l' Hx Hrest]; subst.
  - exists h. split; [reflexivity | apply shortens_refl].
  - destruct (IH h x x' Hx) as [h1 [Hc S1]].
    cbn [allComplete forallb]. unfold bind. rewrite Hc.
    destruct (ground x').
    + destruct (IHargs l' h1) as [h2 [Hp S2]].
      { eapply Forall2_impl; [exact Hrest|]. intros u u'. apply resolves_shortens, S1. }
      exists h2. split; [exact Hp | eapply shortens_trans; eassumption].
    + exists h1. split; [reflexivity | exact S1].
Qed.

Lemma IsComplete_resolved L :
  forall n (h : heap) t t',
    resolves h L n t t' ->
    forall m, (L + n + 2 <= m)%nat ->
    exists h', IsComplete m t h = Ok (ground t', h') /\ shortens h h'.
Proof.
  induction n as [|n IH]; intros h t t' H m Hm;
    (destruct m as [|m]; [lia|]);
    inversion H as [n0 t0 ps p Hp Hl|n0 t0 ps name args args' Hp Hl Hargs]; subst.
  1, 2:
    destruct (Root_shortens m h t ps _ Hp) as [h1 [R1 S1]]; [lia|];
    exists h1; split; [|exact S1];
    cbn [IsComplete]; unfold bind; rewrite R1; reflexivity.
  destruct (Root_shortens m h t ps _ Hp) as [h1 [R1 S1]]; [lia|].
  destruct (allComplete_resolved L n m h1 args args') as [h2 [Hc S2]].
  { intros h0 u u' Hu. apply (IH h0 u u' Hu). lia. }
  { eapply Forall2_impl; [exact Hargs|]. intros u u'. apply resolves_shortens, S1. }
  exists h2. split; [|eapply shortens_trans; eassumption].
  cbn [IsComplete]. unfold bind. rewrite R1. exact Hc.
Qed.

(** X1.  [IsComplete] on a type without type errors and with finite
    instance chains returns, and answers whether the type, read through
    the instances of its variables, holds no unbound variable ([ground] of
    the resolved form).  The call binds nothing: it only shortens
    instance chains. *)
Theorem IsComplete_iff_ground L n (h : heap) t t' :
  resolves h L n t t' ->
  exists h',
    IsComplete (L + n + 2) t h = Ok (ground t', h') /\
    shortens h h'.
Proof. intros H. apply (IsComplete_resolved L n h t t' H). lia. Qed.

(** X2.  A type whose representative is a type error is never complete:
    [IsComplete] returns [false], whatever the error holds. *)
Theorem IsComplete_false_on_error k (h : heap) t ps e x y :
  path h t ps (TTypeError e x y) -> (length ps <= k)%nat ->
  exists h', IsComplete (S (S k)) t h = Ok (false, h') /\ shortens h h'.
Proof.
  intros Hp Hk. destruct (Root_shortens (S k) h t ps _ Hp) as [h1 [R1 S1]]; [lia|].
  exists h1. split; [|exact S1]. cbn [IsComplete]. unfold bind. rewrite R1. reflexivity.
Qed.

Lemma idOf_shortens (h h' : heap) q c :
  shortens h h' -> h !! q = Some c -> idOf h' q = ID c.
Proof.
  intros [_ Hs] Hc. destruct (Hs _ _ Hc) as [c' [Hc' E]].
  unfold idOf. rewrite Hc'. exact E.
Qed.

Lemma occursID_shortens L (h h' : heap) id :
  shortens h h' ->
  forall n t t', resolves h L n t t' -> occursID h' id t' = occursID h id t'.
Proof.
  intros Hs. induction n as [|n IH]; intros t t' H;
    inversion H as [n0 t0 ps p Hp Hl|n0 t0 ps name args args' Hp Hl Hargs]; subst.
  1, 2:
    destruct (unbound_root _ _ (path_root _ _ _ _ Hp)) as [c [Hc _]];
    simpl; rewrite (idOf_shortens h h' p c Hs Hc); unfold idOf; rewrite Hc; reflexivity.
  simpl. clear Hp H. induction Hargs as [|x x' l l' Hx _ IHl]; [reflexivity|].
  simpl. rewrite (IH _ _ Hx), IHl. reflexivity.
Qed.

Lemma occursInLoop_resolved L n k (h : heap) p cp args args' :
  (forall h t t' cp', resolves h L n t t' ->
     h !! p = Some cp' -> Instance cp' = None ->
     exists h', occursInType k (TVariable p) t h = Ok (occursID h (ID cp') t', h') /\
                shortens h h') ->
  h !! p = Some cp -> Instance cp = None ->
  Forall2 (resolves h L n) args args' ->
  exists h', occursInLoop (occursInType k (TVariable p)) args h =
               Ok (existsb (occursID h (ID cp)) args', h') /\
             shortens h h'.
Proof.
  intros IH. revert h cp.
  induction args as [|x args IHargs] in args' |- *; intros h cp Hcp Hi Hargs;
    inversion Hargs as [|x0 x' l l' Hx Hrest]; subst.
  - exists h. split; [reflexivity | apply shortens_refl].
  - destruct (IH h x x' cp Hx Hcp Hi) as [h1 [Ho S1]].
    cbn [occursInLoop existsb]. unfold bind. rewrite Ho.
    destruct (occursID h (ID cp) x').
    + exists h1. split; [reflexivity | exact S1].
    + destruct (shortens_unbound _ _ _ _ S1 Hcp Hi) as [cp1 [Hcp1 [Hi1 E1]]].
      destruct (IHargs l' h1 cp1 Hcp1 Hi1) as [h2 [Hl S2]].
      { eapply Forall2_impl; [exact Hrest|]. intros u u'. apply resolves_shortens, S1. }
      exists h2. split; [|eapply shortens_trans; eassumption].
      rewrite Hl, E1. simpl. f_equal. f_equal.
      clear -S1 Hrest. induction Hrest as [|y y' l l' Hy _ IHl]; [reflexivity|].
      simpl. rewrite (occursID_shortens L h h1 (ID cp) S1 n y y' Hy), IHl. reflexivity.
Qed.

Lemma occursInType_resolved L p :
  forall n (h : heap) t t' cp,
    resolves h L n t t' ->
    h !! p = Some cp -> Instance cp = None ->
    forall m, (L + 2 * n + 4 <= m)%nat ->
    exists h', occursInType m (TVariable p) t h = Ok (occursID h (ID cp) t', h') /\
               shortens h h'.
Proof.
  induction n as [|n IH]; intros h t t' cp H Hcp Hi m Hm;
    (destruct m as [|[|[|m]]]; [lia..|]);
    inversion H as [n0 t0 ps q Hp Hl|n0 t0 ps name args args' Hp Hl Hargs]; subst.
  1, 2:
    destruct (Root_shortens (S (S m)) h t ps _ Hp) as [h1 [R1 S1]]; [lia|];
    destruct (unbound_root _ _ (path_root _ _ _ _ Hp)) as [cq [Hcq Hiq]];
    destruct (shortens_unbound _ _ _ _ S1 Hcq Hiq) as [cq1 [Hcq1 [Hiq1 Eq1]]];
    destruct (shortens_unbound _ _ _ _ S1 Hcp Hi) as [cp1 [Hcp1 [Hi1 E1]]];
    exists h1; split; [|exact S1];
    cbn [occursInType]; unfold bind at 1; rewrite R1; unfold bind at 1;
    rewrite (Equals_vars m h1 q p cq1 cp1 Hcq1 Hiq1 Hcp1 Hi1);
    simpl; unfold idOf; rewrite Hcq, Eq1, E1;
    destruct (ID cq =? ID cp); reflexivity.
  destruct (Root_shortens (S (S m)) h t ps _ Hp) as [h1 [R1 S1]]; [lia|].
  destruct (shortens_unbound _ _ _ _ S1 Hcp Hi) as [cp1 [Hcp1 [Hi1 E1]]].
  destruct (occursInLoop_resolved L n (S m) h1 p cp1 args args') as [h2 [Hloop S2]];
    auto.
  { intros h0 u u' c0 Hu Hc0 Hi0. apply (IH h0 u u' c0 Hu Hc0 Hi0). lia. }
  { eapply Forall2_impl; [exact Hargs|]. intros u u'. apply resolves_shortens, S1. }
  exists h2. split; [|eapply shortens_trans; eassumption].
  cbn [occursInType]. unfold bind at 1. rewrite R1. unfold bind at 1.
  rewrite (Equals_op_var m h1 name args p cp1 Hcp1 Hi1).
  cbn [occursIn]. rewrite Hloop, E1. f_equal. f_equal. simpl.
  clear -S1 Hargs. induction Hargs as [|y y' l l' Hy _ IHl]; [reflexivity|].
  simpl. rewrite (occursID_shortens L h h1 (ID cp) S1 n y y' Hy), IHl. reflexivity.
Qed.

Lemma path_insert_other (h : heap) p cp c' t ps r :
  h !! p = Some cp -> Instance cp = None ->
  path h t ps r -> r <> TVariable p ->
  path (<[p := c']> h) t ps r.
Proof.
  intros Hcp Hi Hp Hr.
  induction Hp as [| |q c Hc Hiq|q c i ps r Hc Hiq Hp IH]; try constructor.
  - apply path_unbound with c; [|exact Hiq].
    rewrite lookup_insert_ne; [exact Hc|]. intros ->. congruence.
  - apply path_bound with c i; [|exact Hiq|apply IH; exact Hr].
    rewrite lookup_insert_ne; [exact Hc|]. intros ->. congruence.
Qed.

Lemma path_insert_root (h : heap) p c' r t ps :
  Instance c' = Some r ->
  path (<[p := c']> h) r [] r ->
  path h t ps (TVariable p) ->
  path (<[p := c']> h) t (ps ++ [p]) r.
Proof.
  intros Hc' Hr Hp.
  remember (TVariable p) as v eqn:Ev.
  induction Hp as [| |q c Hc Hiq|q c i ps r0 Hc Hiq Hp IH]; try discriminate Ev.
  - injection Ev as ->. simpl.
    apply path_bound with c' r; [apply lookup_insert_eq | exact Hc' | exact Hr].
  - subst r0. simpl.
    assert (q <> p) as Hne.
    { intros ->. pose proof (path_root _ _ _ _ Hp) as Hroot.
      inversion Hroot as [| |p' c0 Hc0 Hi0|]; subst. congruence. }
    apply path_bound with c i; [|exact Hiq|apply IH; reflexivity].
    rewrite lookup_insert_ne by auto. exact Hc.
Qed.

Lemma resolves_insert_other L (h : heap) p cp c' :
  h !! p = Some cp -> Instance cp = None ->
  forall n t t', resolves h L n t t' -> occursAt p t' = false ->
    resolves (<[p := c']> h) L n t t'.
Proof.
  intros Hcp Hi. induction n as [|n IH]; intros t t' H Ho;
    inversion H as [n0 t0 ps q Hp Hl|n0 t0 ps name args args' Hp Hl Hargs]; subst.
  1, 2:
    eapply resolves_variable; [|exact Hl];
    eapply path_insert_other; eauto;
    intros [= ->]; simpl in Ho; rewrite Nat.eqb_refl in Ho; discriminate Ho.
  eapply resolves_operator; [|exact Hl|].
  - eapply path_insert_other; eauto; discriminate.
  - simpl in Ho. clear Hp H. induction Hargs as [|x x' l l' Hx _ IHl]; constructor.
    + apply IH; [exact Hx|]. simpl in Ho. apply orb_false_iff in Ho. tauto.
    + apply IHl. simpl in Ho. apply orb_false_iff in Ho. tauto.
Qed.

Lemma occursID_occursAt L (h : heap) p cp :
  h !! p = Some cp ->
  forall n t t', resolves h L n t t' ->
    occursID h (ID cp) t' = false -> occursAt p t' = false.
Proof.
  intros Hcp. induction n as [|n IH]; intros t t' H Ho;
    inversion H as [n0 t0 ps q Hp Hl|n0 t0 ps name args args' Hp Hl Hargs]; subst.
  1, 2:
    simpl in *; destruct (Nat.eqb_spec q p) as [->|]; [|reflexivity];
    unfold idOf in Ho; rewrite Hcp, Z.eqb_refl in Ho; discriminate Ho.
  simpl in *. clear Hp H. induction Hargs as [|x x' l l' Hx _ IHl]; [reflexivity|].
  simpl in *. apply orb_false_iff in Ho as [H1 H2].
  rewrite (IH _ _ Hx H1), (IHl H2). reflexivity.
Qed.

Lemma shortens_insert_unbound (h : heap) p cp c' :
  h !! p = Some cp ->
  forall q c, q <> p -> h !! q = Some c -> Instance c = None ->
    exists c1, <[p := c']> h !! q = Some c1 /\ Instance c1 = None /\ ID c1 = ID c.
Proof.
  intros _ q c Hne Hc Hi. exists c. rewrite lookup_insert_ne by auto. auto.
Qed.

(** [Unify] of a variable with an operator type, in both outcomes of the
    occurs-check. *)
Lemma Unify_variable_operator L n (h : heap) a b ps p cp t' m :
  path h a ps (TVariable p) -> (length ps <= L)%nat ->
  h !! p = Some cp ->
  resolves h L n b t' -> isVariable t' = false ->
  (L + 2 * n + 5 <= m)%nat ->
  exists h3 cp3 b1 qs,
    shortens h h3 /\ path h3 b qs b1 /\ (exists name args, b1 = TOperator name args) /\
    h3 !! p = Some cp3 /\ Instance cp3 = None /\ ID cp3 = ID cp /\
    Unify m a b h =
      if occursID h (ID cp) t'
      then Ok (TTypeError (Some ErrRecursiveUnification) (Some (TVariable p)) (Some b1), h3)
      else Ok (b1, <[p := mkVariable (ID cp3) (Some b1)]> h3).
Proof.
  intros Ha Hla Hcp Hb Hv Hm.
  destruct (unbound_root _ _ (path_root _ _ _ _ Ha)) as [cp0 [Hcp0 Hi]].
  assert (cp0 = cp) as -> by congruence. clear Hcp0.
  destruct m as [|k]; [lia|].
  inversion Hb as [n0 t0 qs q Hp Hl|n0 t0 qs name args args' Hp Hl Hargs]; subst;
    [discriminate Hv|].
  destruct (Root_shortens k h a ps _ Ha) as [h1 [R1 S1]]; [lia|].
  destruct (proj1 S1 _ _ _ Hp) as [qs1 [Hp1 L1]].
  destruct (Root_shortens k h1 b qs1 _ Hp1) as [h2 [R2 S2]]; [lia|].
  pose proof (shortens_trans _ _ _ S1 S2) as S12.
  destruct (shortens_unbound _ _ _ _ S12 Hcp Hi) as [cp2 [Hcp2 [Hi2 E2]]].
  assert (resolves h2 L (S n0) (TOperator name args) (TOperator name args')) as Hb2.
  { eapply resolves_operator; [apply path_operator | simpl; lia |].
    eapply Forall2_impl; [exact Hargs|]. intros u u'. apply resolves_shortens, S12. }
  destruct (occursInType_resolved L p (S n0) h2 _ _ cp2 Hb2 Hcp2 Hi2 k) as [h3 [Ho S3]];
    [lia|].
  pose proof (shortens_trans _ _ _ S12 S3) as S13.
  destruct (shortens_unbound _ _ _ _ S13 Hcp Hi) as [cp3 [Hcp3 [Hi3 E3]]].
  destruct (proj1 S13 _ _ _ Hp) as [qs3 [Hp3 L3]].
  exists h3, cp3, (TOperator name args), qs3.
  split; [assumption|]. split; [assumption|]. split; [eauto|].
  repeat (split; [assumption || reflexivity|]).
  cbn [Unify]. unfold bind at 1. rewrite R1. unfold bind at 1. rewrite R2.
  unfold bind at 1. rewrite Ho, E2.
  rewrite (occursID_shortens L h h2 (ID cp) S12 _ _ _ Hb).
  destruct (occursID h (ID cp) (TOperator name args')); [reflexivity|].
  unfold bind, SetInstance. rewrite Hcp3. reflexivity.
Qed.

Lemma resolves_operator_root L n (h : heap) t t' :
  resolves h L n t t' -> isVariable t' = false ->
  exists qs name args, path h t qs (TOperator name args) /\ (length qs <= L)%nat.
Proof.
  intros H Hv. inversion H; subst; [discriminate Hv|]. eauto.
Qed.

Lemma Unify_binds_at L n (h : heap) a b ps p cp t' m :
  path h a ps (TVariable p) -> (length ps <= L)%nat ->
  h !! p = Some cp ->
  resolves h L n b t' -> isVariable t' = false ->
  occursID h (ID cp) t' = false ->
  (L + 2 * n + 5 <= m)%nat ->
  exists h' name args,
    Unify m a b h = Ok (TOperator name args, h') /\
    (exists qs, path h' b qs (TOperator name args)) /\
    resolves h' (S L) n a t' /\
    resolves h' (S L) n b t' /\
    (forall q c, q <> p -> h !! q = Some c -> Instance c = None ->
       exists c1, h' !! q = Some c1 /\ Instance c1 = None /\ ID c1 = ID c) /\
    (exists qs0, path h b qs0 (TOperator name args)) /\
    (exists us, path h' a us (TOperator name args)).
Proof.
  intros Ha Hla Hcp Hb Hv Ho Hm.
  destruct (unbound_root _ _ (path_root _ _ _ _ Ha)) as [cp0 [Hcp0 Hi]].
  assert (cp0 = cp) as -> by congruence. clear Hcp0.
  destruct (Unify_variable_operator L n h a b ps p cp t' m Ha Hla Hcp Hb Hv Hm)
    as [h3 [cp3 [b1 [qs [S3 [Hp3 [[name [args ->]] [Hcp3 [Hi3 [E3 HU]]]]]]]]]].
  rewrite Ho in HU.
  set (c' := mkVariable (ID cp3) (Some (TOperator name args))) in *.
  pose proof (occursID_occursAt L h p cp Hcp _ _ _ Hb Ho) as Hat.
  pose proof (resolves_shortens L h h3 S3 _ _ _ Hb) as Hb3.
  pose proof (resolves_insert_other L h3 p cp3 c' Hcp3 Hi3 _ _ _ Hb3 Hat) as Hb'.
  assert (path (<[p := c']> h3) b qs (TOperator name args)) as Hpb'.
  { eapply path_insert_other; eauto; discriminate. }
  exists (<[p := c']> h3), name, args.
  destruct (proj1 S3 _ _ _ Ha) as [ps3 [Ha3 L3]].
  assert (path (<[p := c']> h3) a (ps3 ++ [p]) (TOperator name args)) as Ha'.
  { apply path_insert_root; [reflexivity | constructor | exact Ha3]. }
  split; [exact HU|]. split; [eauto|]. split; [|split; [|split; [|split; [|eauto]]]].
  - inversion Hb' as [n0 t0 qs' q Hq Hl|n0 t0 qs' name' args0 args' Hq Hl Hargs]; subst;
      [discriminate Hv|].
    destruct (path_deterministic _ _ _ _ Hpb' _ _ Hq) as [_ [= <- <-]].
    eapply resolves_operator; [exact Ha' | rewrite length_app; simpl; lia |].
    eapply Forall2_impl; [exact Hargs|]. intros u u'. apply resolves_weaken. lia.
  - eapply resolves_weaken; [|exact Hb']. lia.
  - intros q c Hne Hc Hiq.
    destruct (shortens_unbound _ _ _ _ S3 Hc Hiq) as [c1 [Hc1 [Hi1 E1]]].
    exists c1. rewrite lookup_insert_ne by auto. auto.
  - destruct (resolves_operator_root L n h b t' Hb Hv) as [qs0 [name0 [args0 [Hp0 _]]]].
    destruct (proj1 S3 _ _ _ Hp0) as [qs1 [Hp1 _]].
    destruct (path_deterministic _ _ _ _ Hp3 _ _ Hp1) as [_ E]. rewrite E. eauto.
Qed.

(** X4.  Binding a variable.  When the representative of [a] is an
    unbound variable [p], [b] resolves to an operator type [t'], and no
    variable with the id of [p] is part of [t'], then [Unify(a, b)]
    returns the representative of [b] and sets the instance of [p] to it.
    Afterwards [a] and [b] both resolve to [t'], with instance chains at
    most one step longer, so no cycle is made; every other unbound
    variable is still unbound and keeps its id. *)
Theorem Unify_binding_keeps_chains_finite L n (h : heap) a b ps p cp t' :
  path h a ps (TVariable p) -> (length ps <= L)%nat ->
  h !! p = Some cp ->
  resolves h L n b t' -> isVariable t' = false ->
  occursID h (ID cp) t' = false ->
  exists h' name args,
    Unify (L + 2 * n + 5) a b h = Ok (TOperator name args, h') /\
    (exists qs, path h' b qs (TOperator name args)) /\
    resolves h' (S L) n a t' /\
    resolves h' (S L) n b t' /\
    (forall q c, q <> p -> h !! q = Some c -> Instance c = None ->
       exists c1, h' !! q = Some c1 /\ Instance c1 = None /\ ID c1 = ID c).
Proof.
  intros Ha Hla Hcp Hb Hv Ho.
  destruct (Unify_binds_at L n h a b ps p cp t' _ Ha Hla Hcp Hb Hv Ho (Nat.le_refl _))
    as [h' [name [args [HU [Hq [Ra [Rb [Hkeep _]]]]]]]].
  exists h', name, args. auto.
Qed.

(** X5.  The occurs-check in [Unify].  When the representative of [a] is
    an unbound variable [p] and a variable with the id of [p] is part of
    the operator type that [b] resolves to, [Unify(a, b)] returns
    [TypeError{ErrRecursiveUnification, p, root of b}] and binds
    nothing. *)
Theorem Unify_occurs_check_rejects L n (h : heap) a b ps p cp t' :
  path h a ps (TVariable p) -> (length ps <= L)%nat ->
  h !! p = Some cp ->
  resolves h L n b t' -> isVariable t' = false ->
  occursID h (ID cp) t' = true ->
  exists h' b1 qs,
    Unify (L + 2 * n + 5) a b h =
      Ok (TTypeError (Some ErrRecursiveUnification) (Some (TVariable p)) (Some b1), h') /\
    path h' b qs b1 /\
    shortens h h'.
Proof.
  intros Ha Hla Hcp Hb Hv Ho.
  destruct (Unify_variable_operator L n h a b ps p cp t' _ Ha Hla Hcp Hb Hv
              (Nat.le_refl _))
    as [h3 [cp3 [b1 [qs [S3 [Hp3 [_ [Hcp3 [Hi3 [E3 HU]]]]]]]]]].
  rewrite Ho in HU. exists h3, b1, qs. auto.
Qed.

(** X6.  The operator first.  [Unify(b, a)], with [b] an operator type
    and [a] a variable as in X4, calls [Unify(a, b)]: when the variable
    does not occur in the operator type, it returns the representative
    of [b], the operator at the end of the instance chain of [b] before
    and after the call, and binds the variable to it: afterwards [a] and
    [b] both resolve to [t'], and every other unbound variable is still
    unbound and keeps its id. *)
Theorem Unify_operator_first_binds L n (h : heap) a b ps p cp t' :
  path h a ps (TVariable p) -> (length ps <= L)%nat ->
  h !! p = Some cp ->
  resolves h L n b t' -> isVariable t' = false ->
  occursID h (ID cp) t' = false ->
  exists h' name args,
    Unify (L + 2 * n + 6) b a h = Ok (TOperator name args, h') /\
    (exists qs, path h b qs (TOperator name args)) /\
    (exists qs, path h' b qs (TOperator name args)) /\
    (exists qs, path h' a qs (TOperator name args)) /\
    resolves h' (S L) n a t' /\
    resolves h' (S L) n b t' /\
    (forall q c, q <> p -> h !! q = Some c -> Instance c = None ->
       exists c1, h' !! q = Some c1 /\ Instance c1 = None /\ ID c1 = ID c).
Proof.
  intros Ha Hla Hcp Hb Hv Ho.
  destruct (unbound_root _ _ (path_root _ _ _ _ Ha)) as [cp0 [Hcp0 Hi]].
  assert (cp0 = cp) as -> by congruence. clear Hcp0.
  replace (L + 2 * n + 6)%nat with (S (L + 2 * n + 5)) by lia.
  set (k := (L + 2 * n + 5)%nat).
  destruct (resolves_operator_root L n h b t' Hb Hv) as [qs [name [args [Hp Hl]]]].
  destruct (Root_shortens k h b qs _ Hp) as [h1 [R1 S1]]; [unfold k; lia|].
  destruct (proj1 S1 _ _ _ Ha) as [ps1 [Ha1 L1]].
  destruct (Root_shortens k h1 a ps1 _ Ha1) as [h2 [R2 S2]]; [lia|].
  pose proof (shortens_trans _ _ _ S1 S2) as S12.
  destruct (shortens_unbound _ _ _ _ S12 Hcp Hi) as [cp2 [Hcp2 [Hi2 E2]]].
  destruct (proj1 S12 _ _ _ Ha) as [ps2 [Ha2 L2]].
  pose proof (resolves_shortens L h h2 S12 _ _ _ Hb) as Hb2.
  assert (occursID h2 (ID cp2) t' = false) as Ho2.
  { rewrite E2, (occursID_shortens L h h2 (ID cp) S12 _ _ _ Hb). exact Ho. }
  destruct (Unify_binds_at L n h2 a b ps2 p cp2 t' k Ha2 ltac:(lia) Hcp2 Hb2 Hv Ho2
              ltac:(lia))
    as [h' [name' [args0 [HU [Hq' [Ra [Rb [Hkeep [[qs0 Hq0] Hqa]]]]]]]]].
  destruct (proj1 S12 _ _ _ Hp) as [qs2 [Hp2 _]].
  destruct (path_deterministic _ _ _ _ Hq0 _ _ Hp2) as [_ [= -> ->]].
  exists h', name, args.
  split; [|split; [eauto|split; [exact Hq'|split; [exact Hqa|split; [exact Ra|split; [exact Rb|]]]]]].
  - cbn [Unify]. unfold bind at 1. rewrite R1. unfold bind at 1. rewrite R2.
    unfold bind. fold k. rewrite HU. reflexivity.
  - intros q0 c Hne Hc Hiq.
    destruct (shortens_unbound _ _ _ _ S12 Hc Hiq) as [c1 [Hc1 [Hi1 E1]]].
    destruct (Hkeep q0 c1 Hne Hc1 Hi1) as [c3 [Hc3 [Hi3 E3]]].
    exists c3. repeat split; auto. congruence.
Qed.

(** X7.  Two variables.  When the representatives of [a] and [b] are the
    unbound variables [p] and [q]: if their ids differ, [Unify(a, b)]
    returns [q] and binds [p] to [q], so that afterwards [q] is the
    representative of both [a] and [b]; if the ids agree, it returns [p]
    and binds nothing. *)
Theorem Unify_variables k (h : heap) a b ps qs p q cp cq :
  path h a ps (TVariable p) -> path h b qs (TVariable q) ->
  h !! p = Some cp -> h !! q = Some cq ->
  (length ps < k)%nat -> (length qs < k)%nat ->
  (ID cp <> ID cq ->
   exists h' ps' qs',
     Unify (S k) a b h = Ok (TVariable q, h') /\
     path h' a ps' (TVariable q) /\ path h' b qs' (TVariable q)) /\
  (ID cp = ID cq ->
   exists h', Unify (S k) a b h = Ok (TVariable p, h') /\ shortens h h').
Proof.
  intros Ha Hb Hcp Hcq Hk1 Hk2.
  destruct (unbound_root _ _ (path_root _ _ _ _ Ha)) as [cp0 [Hcp0 Hip]].
  assert (cp0 = cp) as -> by congruence. clear Hcp0.
  destruct (unbound_root _ _ (path_root _ _ _ _ Hb)) as [cq0 [Hcq0 Hiq]].
  assert (cq0 = cq) as -> by congruence. clear Hcq0.
  destruct (Root_shortens k h a ps _ Ha) as [h1 [R1 S1]]; [lia|].
  destruct (proj1 S1 _ _ _ Hb) as [qs1 [Hb1 L1]].
  destruct (Root_shortens k h1 b qs1 _ Hb1) as [h2 [R2 S2]]; [lia|].
  pose proof (shortens_trans _ _ _ S1 S2) as S12.
  destruct (shortens_unbound _ _ _ _ S12 Hcp Hip) as [cp2 [Hcp2 [Hip2 Ep]]].
  destruct (shortens_unbound _ _ _ _ S12 Hcq Hiq) as [cq2 [Hcq2 [Hiq2 Eq]]].
  assert (Unify (S k) a b h =
            if negb (ID cp =? ID cq)
            then Ok (TVariable q, <[p := mkVariable (ID cp) (Some (TVariable q))]> h2)
            else Ok (TVariable p, h2)) as HU.
  { cbn [Unify]. unfold bind at 1. rewrite R1. unfold bind at 1. rewrite R2.
    unfold bind, load, SetInstance. rewrite Hcp2. cbv beta iota. rewrite Hcq2.
    cbv beta iota. rewrite Ep, Eq.
    destruct (ID cp =? ID cq); cbn [negb]; [reflexivity|].
    rewrite Hcp2, Ep. reflexivity. }
  split.
  - intros Hne. rewrite (proj2 (Z.eqb_neq _ _) Hne) in HU. cbn [negb] in HU.
    assert (q <> p) as Hqp by (intros ->; congruence).
    destruct (proj1 S12 _ _ _ Ha) as [ps2 [Ha2 _]].
    destruct (proj1 S12 _ _ _ Hb) as [qs2 [Hb2 _]].
    eexists _, (ps2 ++ [p]), qs2. split; [exact HU|]. split.
    + apply path_insert_root; [reflexivity | | exact Ha2].
      apply path_unbound with cq2; [|exact Hiq2].
      rewrite lookup_insert_ne by auto. exact Hcq2.
    + eapply path_insert_other; eauto. intros [= ->]. congruence.
  - intros He. rewrite (proj2 (Z.eqb_eq _ _) He) in HU. cbn [negb] in HU. eauto.
Qed.

End MoreTypesFacts.

(** ** The [String] methods *)

Section PrintingFacts.
Import Types.
Local Open Scope go_scope.

Lemma TypeString_path k (h : heap) t ps r :
  path h t ps r ->
  TypeString (length ps + k) t h = TypeString k r h.
Proof.
  induction 1 as [| |p c Hc Hi|p c i ps r Hc Hi Hp IH]; try reflexivity.
  simpl. unfold bind, load. rewrite Hc, Hi. exact IH.
Qed.

Lemma TypeString_mono_path k k' (h : heap) t ps r s h' :
  path h t ps r -> TypeString k r h = Ok (s, h') -> (length ps + k <= k')%nat ->
  (forall j, (k <= j)%nat -> TypeString j r h = Ok (s, h')) ->
  TypeString k' t h = Ok (s, h').
Proof.
  intros Hp Hr Hk Hmono.
  replace k' with (length ps + (k' - length ps))%nat by lia.
  rewrite (TypeString_path _ h t ps r Hp). apply Hmono. lia.
Qed.

Lemma appendArgs_shown L n m (h : heap) sep args args' :
  (forall t t', resolves h L n t t' -> TypeString m t h = Ok (show h t', h)) ->
  Forall2 (resolves h L n) args args' ->
  forall s, appendArgs (TypeString m) sep s args h =
              Ok (showArgs (show h) sep s args', h).
Proof.
  intros IH Hargs. induction Hargs as [|x x' l l' Hx _ IHl]; intros s; simpl.
  - reflexivity.
  - unfold bind. rewrite (IH _ _ Hx). apply IHl.
Qed.

Lemma TypeString_resolved L :
  forall n (h : heap) t t',
    resolves h L n t t' ->
    forall m, (S L * S n <= m)%nat ->
    TypeString m t h = Ok (show h t', h).
Proof.
  induction n as [|n IH]; intros h t t' H m Hm;
    inversion H as [n0 t0 ps p Hp Hl|n0 t0 ps name args args' Hp Hl Hargs]; subst;
    assert (length ps + 1 <= m)%nat as Hm' by nia.
  1, 2:
    replace m with (length ps + (S (m - length ps - 1)))%nat by lia;
    rewrite (TypeString_path _ h t ps _ Hp);
    destruct (unbound_root _ _ (path_root _ _ _ _ Hp)) as [c [Hc Hi]];
    simpl; unfold bind, load, idOf; rewrite Hc, Hi; reflexivity.
  replace m with (length ps + (S (m - length ps - 1)))%nat by lia.
  rewrite (TypeString_path _ h t ps _ Hp).
  set (k := (m - length ps - 1)%nat).
  assert (forall u u', resolves h L n u u' -> TypeString k u h = Ok (show h u', h)) as IHk.
  { intros u u' Hu. apply (IH h u u' Hu). unfold k. nia. }
  pose proof (Forall2_length _ _ _ Hargs) as Hlen.
  cbn [TypeString show]. rewrite <- Hlen.
  destruct (length args <? 2)%nat eqn:E.
  - apply (appendArgs_shown L n k h " " args args' IHk Hargs).
  - destruct Hargs as [|x x' l l' Hx Hrest]; [discriminate E|].
    unfold bind. rewrite (IHk _ _ Hx).
    apply (appendArgs_shown L n k h name l l' IHk Hrest).
Qed.

(** X14.  The [String] method of a variable or an operator on a type
    without type errors and with finite instance chains returns the
    text of its resolved form ([show]): an unbound variable is
    [typeVar<ID>], an operator with fewer than two arguments is its name
    followed by its argument, and one with more is its arguments joined
    by the name.  Printing follows instances without storing them back:
    the heap is unchanged. *)
Theorem TypeString_of_resolved L n (h : heap) t t' :
  resolves h L n t t' ->
  forall m, (S L * S n <= m)%nat -> TypeString m t h = Ok (show h t', h).
Proof. intros H. apply (TypeString_resolved L n h t t' H). Qed.


Lemma show_ground (h h' : heap) t : ground t = true -> show h t = show h' t.
Proof.
  revert t. fix IH 1. intros [q|name args|e x y] G; simpl in G; try discriminate G.
  assert (forall sep s, showArgs (show h) sep s args = showArgs (show h') sep s args) as Hall.
  { intros sep. induction args as [|a l IHl]; intros s; simpl; [reflexivity|].
    simpl in G. apply andb_prop in G as [Ga Gl].
    rewrite (IH a Ga). apply IHl. exact Gl. }
  cbn [show]. destruct (length args <? 2)%nat; [apply Hall|].
  destruct args as [|a0 rest]; [reflexivity|].
  simpl in G. apply andb_prop in G as [Ga Gl].
  rewrite (IH a0 Ga).
  clear Hall. generalize (show h' a0) as s. 
  induction rest as [|a l IHl]; intros s; simpl; [reflexivity|].
  simpl in Gl. apply andb_prop in Gl as [Ga' Gl].
  rewrite (IH a Ga'). apply IHl. exact Gl.
Qed.

Lemma side_resolved L n (h : heap) x x' m :
  resolves h L n x x' -> (S L * S n + 1 <= m)%nat ->
  exists h',
    (c <- IsComplete m x ;; if c then TypeString m x else ret "incomplete type") h
      = Ok (sideText h x', h') /\ shortens h h'.
Proof.
  intros H Hm.
  destruct (IsComplete_resolved L n h x x' H m) as [h1 [E1 S1]]; [nia|].
  exists h1. split; [|exact S1]. unfold bind. rewrite E1. unfold sideText.
  destruct (ground x') eqn:G; [|reflexivity].
  rewrite (TypeString_resolved L n h1 x x' (resolves_shortens L h h1 S1 n x x' H)) by lia.
  rewrite (show_ground h1 h x' G). reflexivity.
Qed.

(** X15.  The message of a type error with an error kind and two types
    without type errors: the text of the kind, then ["; expected "], the
    expected side, [" received "] and the received side, where a side is
    the text of the type when the type is complete and
    ["incomplete type"] when it holds an unbound variable. *)
Theorem TypeError_String_message L n (h : heap) err x x' y y' m :
  resolves h L n x x' -> resolves h L n y y' ->
  (S L * S n + 2 <= m)%nat ->
  exists h',
    TypeString m (TTypeError (Some err) (Some x) (Some y)) h =
      Ok (errorString err +:+ "; expected " +:+ sideText h x' +:+
          " received " +:+ sideText h y', h') /\
    shortens h h'.
Proof.
  intros Hx Hy Hm. destruct m as [|m]; [lia|].
  destruct (side_resolved L n h x x' m Hx) as [h1 [E1 S1]]; [lia|].
  pose proof (resolves_shortens L h h1 S1 n y y' Hy) as Hy1.
  destruct (side_resolved L n h1 y y' m Hy1) as [h2 [E2 S2]]; [lia|].
  exists h2. split; [|eapply shortens_trans; eassumption].
  cbn [TypeString]. unfold bind at 1. rewrite E1. unfold bind at 1. rewrite E2.
  unfold ret, sideText.
  destruct (ground y') eqn:G; [rewrite (show_ground h1 h y' G)|]; reflexivity.
Qed.

(** X16.  A type error that has an error kind and a nil side cannot be
    printed: its [String] method panics when the expected type is nil,
    whatever the received type is, and also when the expected type is a
    type without type errors and the received type is nil, because it
    passes the nil type to [IsComplete], which calls [Root] on it.  The
    package constant [InternalError] is such a value. *)
Theorem TypeError_String_nil_side_panics L n (h : heap) err x x' m :
  resolves h L n x x' -> (S L * S n + 2 <= m)%nat ->
  (forall received,
     TypeString m (TTypeError (Some err) None received) h = Panic) /\
  TypeString m (TTypeError (Some err) (Some x) None) h = Panic.
Proof.
  intros Hx Hm. destruct m as [|m]; [lia|]. split; [reflexivity|].
  destruct (side_resolved L n h x x' m Hx) as [h1 [E1 _]]; [lia|].
  cbn [TypeString]. unfold bind at 1. rewrite E1. reflexivity.
Qed.

End PrintingFacts.

(** ** Type errors as arguments, and the table of [LeastUpperBound] *)

Section ErrorFacts.
Import Types.
Local Open Scope go_scope.

Lemma Root_fixed k (h : heap) r : path h r [] r -> Root (S k) r h = Ok (r, h).
Proof. intros H. apply (Root_path (S k) h r [] r H). simpl. lia. Qed.

Lemma Equals_roots k (h : heap) x y :
  IsTypeError x = true \/ IsTypeError y = true ->
  path h x [] x -> path h y [] y ->
  Equals (S (S (S (S k)))) x y h = Ok (false, h).
Proof.
  intros He Hx Hy.
  cbn [Equals]. unfold bind at 1. rewrite (Root_fixed _ h x Hx).
  unfold bind at 1. rewrite (Root_fixed _ h y Hy).
  destruct x as [p|n1 a1|e1 x1 y1].
  - destruct He as [He|He]; [discriminate He|].
    destruct y as [q|n2 a2|e2 x2 y2]; try discriminate He.
    cbn [occursInType Root]. unfold bind at 1, ret at 1.
    cbn [Equals Root]. unfold bind at 1. unfold bind at 1, ret at 1.
    destruct (unbound_root _ _ Hx) as [c [Hc Hi]].
    unfold bind. rewrite (VariableRoot_unbound _ h p c Hc Hi). reflexivity.
  - destruct He as [He|He]; [discriminate He|].
    destruct y as [q|n2 a2|e2 x2 y2]; try discriminate He. reflexivity.
  - reflexivity.
Qed.

(** X9.  A type error equals nothing: when the representative of either
    argument is a type error, [Equals] returns [false], also for a type
    error compared with itself. *)
Theorem Equals_false_on_error k (h : heap) a b ps qs a1 b1 :
  path h a ps a1 -> path h b qs b1 ->
  IsTypeError a1 = true \/ IsTypeError b1 = true ->
  (length ps + length qs + 4 <= k)%nat ->
  exists h', Equals k a b h = Ok (false, h') /\ shortens h h'.
Proof.
  intros Ha Hb He Hk. destruct k as [|k]; [lia|].
  destruct (Root_shortens k h a ps a1 Ha) as [h1 [R1 S1]]; [lia|].
  destruct (proj1 S1 _ _ _ Hb) as [qs' [Hb1 Lq]].
  destruct (Root_shortens k h1 b qs' b1 Hb1) as [h2 [R2 S2]]; [lia|].
  pose proof (shortens_trans _ _ _ S1 S2) as S12.
  pose proof (shortens_root _ _ _ S12 (path_root _ _ _ _ Ha)) as Ra.
  pose proof (shortens_root _ _ _ S12 (path_root _ _ _ _ Hb)) as Rb.
  destruct k as [|[|[|k]]]; try lia.
  pose proof (Equals_roots k h2 a1 b1 He Ra Rb) as E.
  exists h2. split; [|exact S12].
  cbn [Equals] in E |- *. unfold bind at 1. rewrite R1. unfold bind at 1. rewrite R2.
  unfold bind at 1 in E. rewrite (Root_fixed _ h2 a1 Ra) in E.
  unfold bind at 1 in E. rewrite (Root_fixed _ h2 b1 Rb) in E.
  exact E.
Qed.

(** X8.  [Unify] has no case for a type error: when the representative
    of either argument is a type error, the result is
    [TypeError{ErrInternal, a, b}] with the two arguments as they were
    passed, and nothing is bound. *)
Theorem Unify_error_is_internal k (h : heap) a b ps qs a1 b1 :
  path h a ps a1 -> path h b qs b1 ->
  IsTypeError a1 = true \/ IsTypeError b1 = true ->
  (length ps + length qs + 2 <= k)%nat ->
  exists h',
    Unify k a b h = Ok (TTypeError (Some ErrInternal) (Some a) (Some b), h') /\
    shortens h h'.
Proof.
  intros Ha Hb He Hk. destruct k as [|k]; [lia|].
  destruct (Root_shortens k h a ps a1 Ha) as [h1 [R1 S1]]; [lia|].
  destruct (proj1 S1 _ _ _ Hb) as [qs' [Hb1 Lq]].
  destruct (Root_shortens k h1 b qs' b1 Hb1) as [h2 [R2 S2]]; [lia|].
  exists h2. split; [|eapply shortens_trans; eassumption].
  cbn [Unify]. unfold bind at 1. rewrite R1. unfold bind at 1. rewrite R2.
  destruct a1 as [p|n1 args1|e1 x1 y1]; [| |reflexivity];
    (destruct He as [He|He]; [discriminate He|]);
    destruct b1 as [q|n2 args2|e2 x2 y2]; try discriminate He; reflexivity.
Qed.


Lemma Equals_op_nullary k (h : heap) n args m :
  Equals (S k) (TOperator n args) (TOperator m []) h =
    Ok (String.eqb n m && (length args =? 0)%nat, h).
Proof.
  cbn [Equals Root]. unfold bind, ret.
  destruct (String.eqb n m); [|reflexivity].
  destruct args; reflexivity.
Qed.

Lemma Equals_error_left k (h : heap) e x y t :
  path h t [] t -> Equals (S (S k)) (TTypeError e x y) t h = Ok (false, h).
Proof.
  intros Ht. cbn [Equals Root]. unfold bind at 1, ret at 1.
  unfold bind. rewrite (Root_fixed k h t Ht). reflexivity.
Qed.

Ltac join_step Ha Hb :=
  first [rewrite Ha | rewrite Hb]; cbv beta iota.

Lemma joinRoots_never_equal k (h : heap) a b a1 b1 fa fb :
  Equals k a1 b1 h = Ok (false, h) ->
  isVariable a1 = false -> isVariable b1 = false ->
  (forall m, Equals k a1 (TOperator m []) h = Ok (fa m, h)) ->
  (forall m, Equals k b1 (TOperator m []) h = Ok (fb m, h)) ->
  (forall m, fa m = false) \/ (forall m, fb m = false) ->
  joinRoots k a b a1 b1 h =
    Ok (if fa "Undef" then b1 else if fb "Undef" then a1 else mismatch a b, h).
Proof.
  intros E Va Vb Ha Hb Hf.
  unfold joinRoots, Undef, Float, Int, String, Pattern, Bool, orM, andM, mismatch.
  cbv zeta. unfold bind. rewrite E. cbv beta iota. rewrite Va, Vb.
  unfold ret.
  destruct Hf as [Hf|Hf].
  - destruct (fb "Undef") eqn:EU;
    repeat (join_step Ha Hb; rewrite ?Hf, ?EU; cbv beta iota;
            try match goal with
                | |- context [if fb ?m then _ else _] => destruct (fb m)
                end; cbv beta iota);
    reflexivity.
  - destruct (fa "Undef") eqn:EU;
    repeat (join_step Ha Hb; rewrite ?Hf, ?EU; cbv beta iota;
            try match goal with
                | |- context [if fa ?m then _ else _] => destruct (fa m)
                end; cbv beta iota);
    reflexivity.
Qed.


Lemma joinRoots_error k (h : heap) a b a1 b1 :
  path h a1 [] a1 -> path h b1 [] b1 ->
  IsTypeError a1 = true \/ IsTypeError b1 = true ->
  joinRoots (S (S (S (S k)))) a b a1 b1 h =
    Ok (if IsTypeError a1
        then if yields b1 then a1 else mismatch a b
        else if yields a1 then b1 else mismatch a b, h).
Proof.
  intros Ra Rb He.
  pose proof (Equals_roots k h a1 b1 He Ra Rb) as E.
  assert (forall e x y m,
            Equals (S (S (S (S k)))) (TTypeError e x y) (TOperator m []) h =
              Ok ((fun _ => false) m, h)) as Herr.
  { intros e x y m. apply Equals_error_left. constructor. }
  assert (forall n args m,
            Equals (S (S (S (S k)))) (TOperator n args) (TOperator m []) h =
              Ok ((fun m => String.eqb n m && (length args =? 0)%nat) m, h)) as Hop.
  { intros n args m. apply Equals_op_nullary. }
  destruct a1 as [p|n1 args1|e1 x1 y1].
  - unfold joinRoots. cbv zeta. unfold bind at 1. rewrite E. reflexivity.
  - destruct He as [He|He]; [discriminate He|].
    destruct b1 as [q|n2 args2|e2 x2 y2]; try discriminate He.
    rewrite (joinRoots_never_equal _ h a b _ _ _ _ E eq_refl eq_refl
               (Hop n1 args1) (Herr e2 x2 y2) (or_intror (fun _ => eq_refl))).
    reflexivity.
  - destruct b1 as [q|n2 args2|e2 x2 y2].
    + unfold joinRoots. cbv zeta. unfold bind at 1. rewrite E. reflexivity.
    + rewrite (joinRoots_never_equal _ h a b _ _ _ _ E eq_refl eq_refl
                 (Herr e1 x1 y1) (Hop n2 args2) (or_introl (fun _ => eq_refl))).
      reflexivity.
    + rewrite (joinRoots_never_equal _ h a b _ _ _ _ E eq_refl eq_refl
                 (Herr e1 x1 y1) (Herr e2 x2 y2) (or_introl (fun _ => eq_refl))).
      reflexivity.
Qed.

(** X13.  [LeastUpperBound] and type errors.  When the representative of
    one argument is a type error, the result is that error if the other
    representative is a variable or [Undef]; otherwise, also when both
    are type errors, it is a new [TypeError{ErrTypeMismatch, a, b}]
    holding the two arguments as they were passed.  Nothing is bound. *)
Theorem LeastUpperBound_with_error k (h : heap) a b ps qs a1 b1 :
  path h a ps a1 -> path h b qs b1 ->
  IsTypeError a1 = true \/ IsTypeError b1 = true ->
  (length ps + length qs + 4 <= k)%nat ->
  exists h',
    LeastUpperBound k a b h =
      Ok (if IsTypeError a1
          then if yields b1 then a1 else mismatch a b
          else if yields a1 then b1 else mismatch a b, h') /\
    shortens h h'.
Proof.
  intros Ha Hb He Hk.
  destruct (LeastUpperBound_roots k h a b ps qs a1 b1 Ha Hb) as [h1 [E S1]]; try lia.
  exists h1. split; [|exact S1]. rewrite E.
  destruct k as [|[|[|[|k]]]]; try lia.
  apply joinRoots_error; [| |exact He].
  - exact (shortens_root _ _ _ S1 (path_root _ _ _ _ Ha)).
  - exact (shortens_root _ _ _ S1 (path_root _ _ _ _ Hb)).
Qed.

(** X11.  On types whose representatives are builtin scalar types,
    [LeastUpperBound] follows its table ([latticeJoin]): equal types give
    that type; [Undef] gives the other type; [Int] with [Float] is
    [Float]; [String] with [Int] or [Float] is [String]; [Pattern] with
    [Bool] is [Bool]; [Bool] with [Int] is [Int]; [String] with [Pattern]
    is [Pattern]; [Pattern] with [Int] is [Bool]; every other pair, such
    as any pair with [None] or [Buckets], gives
    [TypeError{ErrTypeMismatch, a, b}] holding the arguments as passed.
    Nothing is bound. *)
Theorem LeastUpperBound_builtin_table k (h : heap) a b ps qs x y :
  path h a ps x -> path h b qs y ->
  x ∈ builtins -> y ∈ builtins ->
  (length ps < k)%nat -> (length qs < k)%nat ->
  exists h',
    LeastUpperBound k a b h =
      Ok (match latticeJoin x y with
          | Some t => t
          | None => mismatch a b
          end, h') /\
    shortens h h'.
Proof.
  intros Ha Hb Hx Hy Hk1 Hk2.
  destruct (LeastUpperBound_roots k h a b ps qs x y Ha Hb) as [h1 [E S1]]; try lia.
  exists h1. split; [|exact S1]. rewrite E.
  destruct k as [|k]; [lia|]. apply joinRoots_builtins; assumption.
Qed.

(** X12.  A variable against an operator type.  [LeastUpperBound(b, a)]
    with the operator first is the representative of [b].  With the
    variable first, [LeastUpperBound(a, b)] starts with [Equals], which
    runs the occurs-check: the result is the representative of [b] when
    the variable does not occur in [b], and the variable itself when it
    does.  Neither call binds the variable. *)
Theorem LeastUpperBound_variable_operator L n (h : heap) a b ps p cp t' k :
  path h a ps (TVariable p) -> (length ps <= L)%nat ->
  h !! p = Some cp ->
  resolves h L n b t' -> isVariable t' = false ->
  (L + 2 * n + 6 <= k)%nat ->
  exists b1 qs h1 h2,
    path h b qs b1 /\
    LeastUpperBound k a b h =
      Ok (if occursID h (ID cp) t' then TVariable p else b1, h1) /\
    LeastUpperBound k b a h = Ok (b1, h2) /\
    shortens h h1 /\ shortens h h2.
Proof.
  intros Ha Hla Hcp Hb Hv Hk.
  destruct (unbound_root _ _ (path_root _ _ _ _ Ha)) as [cp0 [Hcp0 Hi]].
  assert (cp0 = cp) as -> by congruence. clear Hcp0.
  inversion Hb as [n0 t0 qs q Hp Hl|n0 t0 qs name args args' Hp Hl Hargs]; subst;
    [discriminate Hv|].
  destruct (LeastUpperBound_roots k h a b ps qs _ _ Ha Hp) as [h1 [E1 S1]]; try lia.
  destruct (LeastUpperBound_roots k h b a qs ps _ _ Hp Ha) as [h2 [E2 S2]]; try lia.
  destruct (shortens_unbound _ _ _ _ S1 Hcp Hi) as [c1 [Hc1 [Hi1 Id1]]].
  destruct (shortens_unbound _ _ _ _ S2 Hcp Hi) as [c2 [Hc2 [Hi2 Id2]]].
  assert (resolves h1 L (S n0) (TOperator name args) (TOperator name args')) as Hb1.
  { eapply resolves_operator; [apply path_operator | simpl; lia |].
    eapply Forall2_impl; [exact Hargs|]. intros u u'. apply resolves_shortens, S1. }
  destruct k as [|[|k]]; try lia.
  destruct (occursInType_resolved L p (S n0) h1 _ _ c1 Hb1 Hc1 Hi1 (S k)) as [h3 [Ho S3]];
    [lia|].
  exists (TOperator name args), qs, h3, h2.
  split; [exact Hp|]. rewrite E1, E2.
  split; [|split; [|split; [exact (shortens_trans _ _ _ S1 S3) | exact S2]]].
  - unfold joinRoots. cbv zeta. unfold bind at 1.
    cbn [Equals Root]. unfold bind at 1.
    rewrite (VariableRoot_unbound _ h1 p c1 Hc1 Hi1). unfold bind at 1, ret at 1.
    rewrite Ho, Id1.
    rewrite (occursID_shortens L h h1 (ID cp) S1 _ _ _ Hb).
    destruct (occursID h (ID cp) (TOperator name args')); reflexivity.
  - apply (joinRoots_op_var k h2 b a p c2 name args Hc2 Hi2).
Qed.

End ErrorFacts.

(** ** [FreshType] *)

Section FreshFacts.
Import Types.
Local Open Scope go_scope.

Lemma path_insert_fresh (h : heap) q c t ps r :
  h !! q = None -> path h t ps r -> path (<[q := c]> h) t ps r.
Proof.
  intros Hq Hp. induction Hp as [| |p c0 Hc Hi|p c0 i ps r Hc Hi Hp IH].
  - constructor.
  - constructor.
  - apply path_unbound with c0; [|exact Hi].
    rewrite lookup_insert_ne; [exact Hc | congruence].
  - apply path_bound with c0 i; [|exact Hi|exact IH].
    rewrite lookup_insert_ne; [exact Hc | congruence].
Qed.

Lemma shortens_insert_fresh (h : heap) q c :
  h !! q = None -> shortens h (<[q := c]> h).
Proof.
  intros Hq. split.
  - intros u us ru Hp. exists us. split; [apply path_insert_fresh; assumption | lia].
  - intros p c0 Hc. exists c0. split; [|reflexivity].
    rewrite lookup_insert_ne; [exact Hc | congruence].
Qed.

Lemma freshInv_shortens h0 next0 m created next (h h1 : heap) :
  freshInv h0 next0 m created next h -> shortens h h1 ->
  freshInv h0 next0 m created next h1.
Proof.
  intros [I1 I2 I3 I4 I5 I6 I7] Hs. split; try assumption.
  - eapply shortens_trans; eassumption.
  - intros i q Hi. specialize (I4 i q Hi).
    destruct (shortens_unbound _ _ _ _ Hs I4 eq_refl) as [[id inst] [Hc [Hn Hid]]].
    simpl in Hn, Hid. subst. exact Hc.
Qed.

Lemma freshInv_new h0 next0 m created next (h : heap) p1 :
  freshInv h0 next0 m created next h -> m !! p1 = None ->
  let q := fresh (dom h) in
  freshInv h0 next0 (<[p1 := q]> m) (created ++ [q]) (incr next)
    (<[q := mkVariable next None]> h).
Proof.
  intros [I1 I2 I3 I4 I5 I6 I7] Hm q.
  assert (h !! q = None) as Hq.
  { apply not_elem_of_dom. apply is_fresh. }
  assert (q ∉ created) as Hnc.
  { intros Hin. apply list_elem_of_lookup in Hin as [i Hi].
    rewrite (I4 i q Hi) in Hq. discriminate Hq. }
  split.
  - eapply shortens_trans; [exact I1 | apply shortens_insert_fresh; exact Hq].
  - apply NoDup_app. split; [exact I2|]. split; [|apply NoDup_singleton].
    intros x Hx Hx'. apply list_elem_of_singleton in Hx'. subst x. contradiction.
  - intros x Hx. apply elem_of_app in Hx as [Hx|Hx]; [apply I3; exact Hx|].
    apply list_elem_of_singleton in Hx. subst x.
    destruct (h0 !! q) as [c|] eqn:E; [|reflexivity].
    destruct (proj2 I1 _ _ E) as [c' [Hc' _]]. congruence.
  - intros i x Hi. apply lookup_app_Some in Hi as [Hi|[Hl Hi]].
    + rewrite lookup_insert_ne; [apply I4; exact Hi|].
      intros ->. apply Hnc. eapply list_elem_of_lookup_2; exact Hi.
    + destruct (i - length created)%nat eqn:E; simpl in Hi; [|destruct n; discriminate Hi].
      injection Hi as <-. rewrite lookup_insert_eq.
      replace i with (length created) by lia. rewrite <- I5. reflexivity.
  - rewrite length_app. simpl. rewrite Nat.add_1_r. simpl. rewrite <- I5. reflexivity.
  - intros x. rewrite elem_of_app, list_elem_of_singleton, I6. split.
    + intros [[p Hp] | ->].
      * exists p. rewrite lookup_insert_ne; [exact Hp | congruence].
      * exists p1. apply lookup_insert_eq.
    + intros [p Hp]. destruct (decide (p = p1)) as [-> | Hne].
      * rewrite lookup_insert_eq in Hp. right. congruence.
      * rewrite lookup_insert_ne in Hp by auto. left. eauto.
  - intros p p' x Hp Hp'.
    destruct (decide (p = p1)) as [-> | Hne], (decide (p' = p1)) as [-> | Hne'].
    + reflexivity.
    + rewrite lookup_insert_eq in Hp. rewrite lookup_insert_ne in Hp' by auto.
      injection Hp as <-. exfalso. apply Hnc. apply I6. eauto.
    + rewrite lookup_insert_eq in Hp'. rewrite lookup_insert_ne in Hp by auto.
      injection Hp' as <-. exfalso. apply Hnc. apply I6. eauto.
    + rewrite lookup_insert_ne in Hp, Hp' by auto. eapply I7; eassumption.
Qed.

Lemma rename_mono (m m' : gmap nat nat) :
  m ⊆ m' ->
  forall t, (forall p, p ∈ variables t -> is_Some (m !! p)) -> rename m' t = rename m t.
Proof.
  intros Hsub. fix IH 1. intros [p|name args|e x y] Hv; simpl.
  - destruct (Hv p) as [q Hq]; [simpl; apply list_elem_of_here|].
    rewrite Hq. rewrite (lookup_weaken _ _ _ _ Hq Hsub). reflexivity.
  - f_equal. simpl in Hv. induction args as [|a l IHl]; [reflexivity|].
    simpl. f_equal.
    + apply IH. intros p Hp. apply Hv. simpl. apply elem_of_app. left. exact Hp.
    + apply IHl. intros p Hp. apply Hv. simpl. apply elem_of_app. right. exact Hp.
  - reflexivity.
Qed.


Lemma freshArgs_resolved L h0 next0 n f :
  (forall (h : heap) m created next t t',
     resolves h L n t t' -> freshInv h0 next0 m created next h ->
     exists m' created' next' h',
       freshRec f t m next h = Ok (rename m' t', m', next', h') /\
       freshPost h0 next0 m h (variables t') m' created' next' h') ->
  forall (h : heap) args args',
    Forall2 (resolves h L n) args args' ->
    forall h1 m created next done,
      shortens h h1 -> freshInv h0 next0 m created next h1 ->
      exists m' created' next' h',
        freshArgs (freshRec f) args done m next h1 =
          Ok (done ++ map (rename m') args', m', next', h') /\
        freshPost h0 next0 m h1 (concat (map variables args')) m' created' next' h'.
Proof.
  intros IH h args args' Hargs.
  induction Hargs as [|x x' l l' Hx _ IHl]; intros h1 m created next done Hs Inv.
  - exists m, created, next, h1. simpl. rewrite app_nil_r.
    split; [reflexivity|]. split; [exact Inv|]. split; [apply shortens_refl|].
    split; [reflexivity|]. split.
    + intros p Hp. inversion Hp.
    + intros p Hp. left. exact Hp.
  - destruct (IH h1 m created next x x' (resolves_shortens L h h1 Hs n x x' Hx) Inv)
      as [m1 [cr1 [nx1 [h2 [E1 [Inv1 [S1 [Sub1 [Cov1 Dom1]]]]]]]]].
    destruct (IHl h2 m1 cr1 nx1 (done ++ [rename m1 x'])
                (shortens_trans _ _ _ Hs S1) Inv1)
      as [m2 [cr2 [nx2 [h3 [E2 [Inv2 [S2 [Sub2 [Cov2 Dom2]]]]]]]]].
    exists m2, cr2, nx2, h3. split.
    + cbn [freshArgs]. rewrite E1. rewrite E2. f_equal. f_equal. f_equal. f_equal.
      rewrite <- app_assoc. simpl.
      rewrite (rename_mono m1 m2 Sub2 x' Cov1). reflexivity.
    + split; [exact Inv2|]. split; [eapply shortens_trans; eassumption|].
      split; [etrans; eassumption|]. simpl. split.
      * intros p Hp. apply elem_of_app in Hp as [Hp|Hp].
        -- destruct (Cov1 p Hp) as [q Hq]. exists q.
           exact (lookup_weaken _ _ _ _ Hq Sub2).
        -- apply Cov2. exact Hp.
      * intros p Hp. destruct (Dom2 p Hp) as [H1|H1].
        -- destruct (Dom1 p H1) as [H0|H0]; [left; exact H0|].
           right. apply elem_of_app. left. exact H0.
        -- right. apply elem_of_app. right. exact H1.
Qed.

Lemma freshRec_variable L h0 next0 (h : heap) m created next t ps p f :
  path h t ps (TVariable p) -> (length ps <= L)%nat ->
  freshInv h0 next0 m created next h ->
  (L < f)%nat ->
  exists m' created' next' h',
    freshRec (S f) t m next h = Ok (rename m' (TVariable p), m', next', h') /\
    freshPost h0 next0 m h [p] m' created' next' h'.
Proof.
  intros Hp Hl Inv Hf.
  destruct (Root_shortens f h t ps _ Hp) as [h1 [R1 S1]]; [lia|].
  pose proof (freshInv_shortens _ _ _ _ _ _ _ Inv S1) as Inv1.
  cbn [freshRec]. rewrite R1.
  destruct (m !! p) as [q|] eqn:Em.
  - exists m, created, next, h1. simpl. rewrite Em.
    split; [reflexivity|]. split; [exact Inv1|]. split; [exact S1|].
    split; [reflexivity|]. split.
    + intros x Hx. apply list_elem_of_singleton in Hx. subst x. eauto.
    + intros x Hx. left. exact Hx.
  - pose proof (freshInv_new _ _ _ _ _ _ p Inv1 Em) as Inv2. cbv zeta in Inv2.
    assert (h1 !! fresh (dom h1) = None) as Hq.
    { apply not_elem_of_dom. apply is_fresh. }
    exists (<[p := fresh (dom h1)]> m), (created ++ [fresh (dom h1)]), (incr next),
      (<[fresh (dom h1) := mkVariable next None]> h1).
    split.
    + unfold NewVariable. cbv zeta. simpl. rewrite lookup_insert_eq. reflexivity.
    + split; [exact Inv2|].
      split; [eapply shortens_trans; [exact S1 | apply shortens_insert_fresh; exact Hq]|].
      split; [apply insert_subseteq; exact Em|]. split.
      * intros x Hx. apply list_elem_of_singleton in Hx. subst x.
        rewrite lookup_insert_eq. eauto.
      * intros x Hx. destruct (decide (x = p)) as [-> | Hne].
        -- right. apply list_elem_of_here.
        -- rewrite lookup_insert_ne in Hx by auto. left. exact Hx.
Qed.

Lemma freshRec_resolved L h0 next0 :
  forall n (h : heap) m created next t t',
    resolves h L n t t' ->
    freshInv h0 next0 m created next h ->
    forall fuel, (L + n + 2 <= fuel)%nat ->
    exists m' created' next' h',
      freshRec fuel t m next h = Ok (rename m' t', m', next', h') /\
      freshPost h0 next0 m h (variables t') m' created' next' h'.
Proof.
  induction n as [|n IH]; intros h m created next t t' H Inv fuel Hf;
    (destruct fuel as [|f]; [lia|]);
    inversion H as [n0 t0 ps p Hp Hl|n0 t0 ps name args args' Hp Hl Hargs]; subst.
  - apply (freshRec_variable L h0 next0 h m created next t ps p f Hp Hl Inv). lia.
  - apply (freshRec_variable L h0 next0 h m created next t ps p f Hp Hl Inv). lia.
  - destruct (Root_shortens f h t ps _ Hp) as [h1 [R1 S1]]; [lia|].
    pose proof (freshInv_shortens _ _ _ _ _ _ _ Inv S1) as Inv1.
    destruct (freshArgs_resolved L h0 next0 n f
                (fun h m created next t t' Hr Hi => IH h m created next t t' Hr Hi f ltac:(lia))
                h args args' Hargs h1 m created next [] S1 Inv1)
      as [m2 [cr2 [nx2 [h3 [E2 [Inv2 [S2 [Sub2 [Cov2 Dom2]]]]]]]]].
    exists m2, cr2, nx2, h3. split.
    + cbn [freshRec]. rewrite R1, E2. reflexivity.
    + split; [exact Inv2|]. split; [eapply shortens_trans; eassumption|].
      split; [exact Sub2|]. split; assumption.
Qed.


Lemma freshInv_start (h : heap) next : freshInv h next ∅ [] next h.
Proof.
  split.
  - apply shortens_refl.
  - apply NoDup_nil_2.
  - intros q Hq. inversion Hq.
  - intros i q Hi. discriminate Hi.
  - reflexivity.
  - intros q. split; [intros Hq; inversion Hq|].
    intros [p Hp]. rewrite lookup_empty in Hp. discriminate Hp.
  - intros p p' q Hp. rewrite lookup_empty in Hp. discriminate Hp.
Qed.

Lemma FreshType_resolved L n (h : heap) t t' next fuel :
  resolves h L n t t' -> (L + n + 2 <= fuel)%nat ->
  exists m created next' h',
    FreshType fuel t next h = Ok (rename m t', next', h') /\
    freshPost h next ∅ h (variables t') m created next' h'.
Proof.
  intros H Hf.
  destruct (freshRec_resolved L h next n h ∅ [] next t t' H (freshInv_start h next) fuel Hf)
    as [m [cr [nx [h' [E Post]]]]].
  exists m, cr, nx, h'. split; [|exact Post].
  unfold FreshType. rewrite E. reflexivity.
Qed.

(** X17.  [FreshType] on a type without type errors and with finite
    instance chains returns the resolved form of the type with every
    unbound variable replaced by a new one: the same variable is
    replaced by the same new variable everywhere, different variables by
    different ones ([m] is a function and injective), and exactly the
    variables of the type are replaced.  The new variables are all the
    cells allocated by the call ([created], oldest first): their
    addresses were not in use before, they are unbound, and their ids
    are the successive values of the counter [nextVariableID], which is
    advanced once for each.  No variable of the argument is bound. *)
Theorem FreshType_renames_variables L n (h : heap) t t' next :
  resolves h L n t t' ->
  exists m created h',
    FreshType (L + n + 2) t next h =
      Ok (rename m t', Nat.iter (length created) incr next, h') /\
    shortens h h' /\
    (forall p, is_Some (m !! p) <-> p ∈ variables t') /\
    (forall p p' q, m !! p = Some q -> m !! p' = Some q -> p = p') /\
    NoDup created /\
    (forall q, q ∈ created <-> exists p, m !! p = Some q) /\
    (forall i q, created !! i = Some q ->
       h !! q = None /\
       h' !! q = Some (mkVariable (Nat.iter i incr next) None)).
Proof.
  intros H.
  destruct (FreshType_resolved L n h t t' next (L + n + 2) H)
    as [m [cr [nx [h' [E [[I1 I2 I3 I4 I5 I6 I7] [S1 [Sub [Cov Dom]]]]]]]]]; [lia|].
  exists m, cr, h'. rewrite E, I5.
  split; [reflexivity|]. split; [exact S1|]. split.
  { intros p. split; [|apply Cov]. intros Hp. destruct (Dom p Hp) as [[x Hx]|Hd]; [|exact Hd].
    rewrite lookup_empty in Hx. discriminate Hx. }
  split; [exact I7|]. split; [exact I2|]. split; [exact I6|].
  intros i q Hi. split; [|apply I4; exact Hi].
  apply I3. eapply list_elem_of_lookup_2. exact Hi.
Qed.

Lemma ground_variables t : ground t = true -> variables t = [].
Proof.
  revert t. fix IH 1. intros [p|name args|e x y] G; simpl in *; try discriminate G.
  induction args as [|a l IHl]; [reflexivity|].
  simpl in *. apply andb_prop in G as [Ga Gl].
  rewrite (IH a Ga), (IHl Gl). reflexivity.
Qed.

Lemma rename_empty t : rename ∅ t = t.
Proof.
  revert t. fix IH 1. intros [p|name args|e x y]; simpl.
  - reflexivity.
  - f_equal. induction args as [|a l IHl]; [reflexivity|].
    simpl. rewrite (IH a), IHl. reflexivity.
  - reflexivity.
Qed.

(** X18.  [FreshType] on a complete type returns the resolved form of the
    type itself; it makes no variable and leaves the counter
    [nextVariableID] as it was. *)
Theorem FreshType_complete_is_copy L n (h : heap) t t' next :
  resolves h L n t t' -> ground t' = true ->
  exists h',
    FreshType (L + n + 2) t next h = Ok (t', next, h') /\ shortens h h'.
Proof.
  intros H G.
  destruct (FreshType_resolved L n h t t' next (L + n + 2) H)
    as [m [cr [nx [h' [E [[I1 I2 I3 I4 I5 I6 I7] [S1 [Sub [Cov Dom]]]]]]]]]; [lia|].
  rewrite (ground_variables t' G) in Cov, Dom.
  assert (forall p, m !! p = None) as Hm.
  { intros p. destruct (m !! p) as [q|] eqn:Eq; [|reflexivity].
    destruct (Dom p) as [[x Hx]|Hd]; [rewrite Eq; eauto | | inversion Hd].
    rewrite lookup_empty in Hx. discriminate Hx. }
  assert (cr = []) as ->.
  { destruct cr as [|q l]; [reflexivity|].
    destruct (proj1 (I6 q) (list_elem_of_here _ _)) as [p Hp].
    rewrite Hm in Hp. discriminate Hp. }
  exists h'. split; [|exact S1]. rewrite E, I5.
  rewrite (rename_mono ∅ m Sub t'), rename_empty; [reflexivity|].
  rewrite (ground_variables t' G). intros p Hp. inversion Hp.
Qed.

End FreshFacts.

(** ** [Equals] on operators, and [occursInType] *)

Section EqualsFacts.
Import Types.
Local Open Scope go_scope.

Lemma EqualsArgs_short equals args1 args2 (h : heap) :
  (1 <= length args1)%nat -> (length args2 <= 2)%nat ->
  EqualsArgs equals args1 args2 h = Panic.
Proof.
  intros H1 H2. destruct args1 as [|x l]; [simpl in H1; lia|].
  cbn [EqualsArgs]. rewrite lookup_ge_None_2 by lia. reflexivity.
Qed.

Lemma Equals_roots_short k (h : heap) name args1 args2 :
  length args1 = length args2 ->
  (1 <= length args1 <= 2)%nat ->
  Equals (S k) (TOperator name args1) (TOperator name args2) h = Panic.
Proof.
  intros Hl Hr. cbn [Equals Root]. unfold bind, ret.
  rewrite String.eqb_refl, Hl, Nat.eqb_refl. cbn [negb].
  apply EqualsArgs_short; lia.
Qed.

(** X10.  The loop of [Equals] reads [t2.Args[2]] at every index.  When the
    representatives of [a] and [b] are operators with the same name and
    the same number of arguments, one or two, the index is out of range:
    [Equals(a, b)] panics, and so does [LeastUpperBound(a, b)], which
    starts with this comparison. *)
Theorem Equals_short_operators_panic k (h : heap) a b ps qs name args1 args2 :
  path h a ps (TOperator name args1) -> path h b qs (TOperator name args2) ->
  length args1 = length args2 ->
  (1 <= length args1 <= 2)%nat ->
  (length ps < k)%nat -> (length qs < k)%nat ->
  Equals (S k) a b h = Panic /\ LeastUpperBound (S k) a b h = Panic.
Proof.
  intros Ha Hb Hl Hr Hk1 Hk2. split.
  - destruct (Root_shortens k h a ps _ Ha Hk1) as [h1 [R1 S1]].
    destruct (proj1 S1 _ _ _ Hb) as [qs' [Hb1 Lq]].
    destruct (Root_shortens k h1 b qs' _ Hb1) as [h2 [R2 S2]]; [lia|].
    cbn [Equals]. unfold bind at 1. rewrite R1. unfold bind at 1. rewrite R2.
    rewrite String.eqb_refl, Hl, Nat.eqb_refl. cbn [negb].
    apply EqualsArgs_short; lia.
  - destruct (LeastUpperBound_roots (S k) h a b ps qs _ _ Ha Hb) as [h1 [E S1]]; try lia.
    rewrite E. unfold joinRoots. cbv zeta. unfold bind at 1.
    rewrite (Equals_roots_short k h1 name args1 args2 Hl Hr). reflexivity.
Qed.

(** X3.  The occurs-check.  For an unbound variable [v] and a type [t]
    without type errors and with finite instance chains, [occursInType(v, t)]
    returns, and is [true] exactly when a variable with the [ID] of [v]
    is part of [t] read through the instances.  The call binds nothing. *)
Theorem occursInType_finds_variable L n (h : heap) t t' p cp :
  resolves h L n t t' ->
  h !! p = Some cp -> Instance cp = None ->
  exists h',
    occursInType (L + 2 * n + 4) (TVariable p) t h = Ok (occursID h (ID cp) t', h') /\
    shortens h h'.
Proof.
  intros H Hp Hi. apply (occursInType_resolved L p n h t t' cp H Hp Hi). lia.
Qed.

End EqualsFacts.


(** ** More on capture groups *)

Section MoreCaprefFacts.
Import Types syntax Capref.

Lemma wfRegexp_sub op fl sub rune mn mx cap name :
  wfRegexp (mkRegexp op fl sub rune mn mx cap name) = true ->
  forallb wfRegexp sub = true.
Proof. simpl. intros H. apply andb_true_iff in H as [_ H]. exact H. Qed.

Lemma firstGroup_omap n subs :
  Forall (fun g => getCaptureGroup g n =
                     Ok (head (omap (captured n) (preorder g)))) subs ->
  firstGroup (fun s => getCaptureGroup s n) subs =
    Ok (head (omap (captured n) (concat (map preorder subs)))).
Proof.
  induction 1 as [|g subs Hg _ IH]; [reflexivity|].
  cbn [firstGroup map concat]. rewrite Hg. cbn [rbind].
  rewrite omap_app.
  destruct (omap (captured n) (preorder g)) as [|x l]; simpl; [exact IH | reflexivity].
Qed.

(** X19.  [getCaptureGroup] on a tree shaped as the regexp parser builds
    it returns the body of the first capture numbered [cgID] met when
    the nodes are visited parents first and left to right, and nil when
    there is none. *)
Theorem getCaptureGroup_first_in_preorder re n :
  wfRegexp re = true ->
  getCaptureGroup re n = Ok (head (omap (captured n) (preorder re))).
Proof.
  induction re as [op fl sub rune mn mx cap name IH] using Regexp_ind'.
  intros Hwf. pose proof (wfRegexp_sub _ _ _ _ _ _ _ _ Hwf) as Hsub.
  cbn [getCaptureGroup preorder]. unfold omap. cbn [list_omap].
  unfold captured at 1. cbn [Op_ Cap Sub].
  destruct (Op_eqb op OpCapture && (cap =? n)) eqn:E.
  - apply andb_true_iff in E as [E _]. destruct op; try discriminate E.
    destruct sub as [|g0 sub]; [discriminate Hwf|]. reflexivity.
  - apply (firstGroup_omap n sub).
    rewrite forallb_forall in Hsub. rewrite Forall_forall in IH |- *.
    intros g Hg. apply IH; [exact Hg|]. apply Hsub, list_elem_of_In, Hg.
Qed.


Lemma rangeOnly_mono lo hi s s' :
  s ⊆ s' -> rangeOnly lo hi s = true -> rangeOnly lo hi s' = true.
Proof.
  intros Hs. unfold rangeOnly. rewrite !forallb_forall.
  intros H r Hr. apply ContainsRune_elem, Hs, ContainsRune_elem, H, Hr.
Qed.

Lemma classOnly_mono s s' :
  s ⊆ s' -> forall rs, classOnly rs s = Ok true -> classOnly rs s' = Ok true.
Proof.
  intros Hs. fix IH 1. intros [|lo [|hi rest]] H; simpl in *.
  - reflexivity.
  - discriminate H.
  - destruct (rangeOnly lo hi s) eqn:E; [|discriminate H].
    rewrite (rangeOnly_mono lo hi s s' Hs E). apply IH. exact H.
Qed.

Lemma allSubs_mono (f f' : Regexp -> Res bool) subs :
  Forall (fun g => f g = Ok true -> f' g = Ok true) subs ->
  allSubs f subs = Ok true -> allSubs f' subs = Ok true.
Proof.
  induction 1 as [|g subs Hg _ IH]; simpl; [auto|].
  destruct (f g) as [[|]| |] eqn:E; simpl; try discriminate.
  rewrite (Hg eq_refl). simpl. exact IH.
Qed.

(** X20.  [groupOnlyMatches] is monotone in the rune set: a group that
    only matches runes of [s] only matches runes of every superset of
    [s], on every tree, also one the parser would not build. *)
Theorem groupOnlyMatches_monotone g s s' :
  s ⊆ s' -> groupOnlyMatches g s = Ok true -> groupOnlyMatches g s' = Ok true.
Proof.
  intros Hs. induction g as [op fl sub rune mn mx cap name IH] using Regexp_ind'.
  destruct op; simpl; try discriminate.
  - intros [= H]. f_equal. rewrite forallb_forall in H |- *.
    intros r Hr. apply ContainsRune_elem, Hs, ContainsRune_elem, H, Hr.
  - apply classOnly_mono, Hs.
  - destruct sub as [|g0 sub]; [discriminate|]. inversion IH; subst; assumption.
  - destruct sub as [|g0 sub]; [discriminate|]. inversion IH; subst; assumption.
  - destruct sub as [|g0 sub]; [discriminate|]. inversion IH; subst; assumption.
  - destruct sub as [|g0 sub]; [discriminate|]. inversion IH; subst; assumption.
  - destruct sub as [|g0 sub]; [discriminate|]. inversion IH; subst; assumption.
  - apply allSubs_mono. exact IH.
  - apply allSubs_mono. exact IH.
Qed.

Variable RegexpString : Regexp -> list Z.

Lemma max_ranks_perm (l l' : list nat) :
  l ≡ₚ l' -> foldr Nat.max O l = foldr Nat.max O l'.
Proof.
  induction 1 as [|x l l' _ IH|x y l|l1 l2 l3 _ IH1 _ IH2]; simpl; lia.
Qed.

(** X21.  For a capture group that is an alternation, the inferred type
    does not depend on the order of the branches, although
    [LeastUpperBound] is folded over them from left to right: two trees
    whose groups hold the same branches in different orders get the same
    type.  That type is [Undef], [Int], [Float] or [String], never a type
    error, and the heap is unchanged. *)
Theorem InferCaprefType_branch_order re re' n g g' k (h : heap) :
  getCaptureGroup re n = Ok (Some g) ->
  getCaptureGroup re' n = Ok (Some g') ->
  Op_ g = OpAlternate -> Op_ g' = OpAlternate ->
  forallb wfRegexp (Sub g) = true ->
  Sub g ≡ₚ Sub g' ->
  exists t,
    InferCaprefType RegexpString (S k) re n h = Ok (t, h) /\
    InferCaprefType RegexpString (S k) re' n h = Ok (t, h) /\
    t ∈ [Undef; Int; Float; String].
Proof.
  intros Hg Hg' Ho Ho' Hwf Hp.
  assert (forallb wfRegexp (Sub g') = true) as Hwf'.
  { apply forallb_forall. intros x Hx. rewrite forallb_forall in Hwf. apply Hwf.
    apply list_elem_of_In. rewrite Hp. apply list_elem_of_In. exact Hx. }
  exists (joinTypes (map (groupTypeRule RegexpString) (Sub g))).
  unfold InferCaprefType, bind at 1, liftRes. rewrite Hg, Ho.
  unfold bind at 1. rewrite Hg', Ho'.
  change (negb (Op_eqb OpAlternate OpAlternate)) with false. cbv iota.
  change Undef with (ofRank 0) at 1 2.
  rewrite !lubBranches_join by (auto; lia).
  unfold joinTypes. simpl Nat.max.
  rewrite <- (max_ranks_perm _ _ (Permutation_map rank
                (Permutation_map (groupTypeRule RegexpString) Hp))).
  split; [reflexivity|]. split; [reflexivity|].
  set (r := foldr Nat.max O _). clearbody r.
  destruct r as [|[|[|r]]]; simpl; set_solver.
Qed.

End MoreCaprefFacts.

(** ** The arithmetic levels of the grammar, and indexing *)

Section ArithmeticFacts.
Import Grammar.

Ltac split_lists :=
  repeat match goal with
    | H : Forall _ (_ ++ _) |- _ => apply Forall_app in H; destruct H
    | H : Forall _ (_ :: _) |- _ => apply Forall_cons in H; destruct H
    | |- Forall _ (_ ++ _) => apply Forall_app; split
    | |- Forall _ (_ :: _) => apply Forall_cons; split
    | |- Forall _ [] => constructor
    end.

Lemma unary_plain x ts n :
  derives x ts n -> unaryLevel x = true ->
  Forall (fun t => bracket t = false) ts ->
  Forall (fun t => arith t = false) ts.
Proof.
  induction 1; intros Hx Hts; simpl in Hx; try discriminate Hx;
    split_lists; simpl in *; try discriminate; auto.
  match goal with H : postfix_op ?op = true |- _ => destruct op; try discriminate H; reflexivity end.
Qed.

Lemma opt_nl_no_add nl : opt_nl nl -> Forall (fun t => add_op t = false) nl.
Proof. destruct 1; repeat constructor. Qed.

Lemma arith_add t : arith t = false -> add_op t = false.
Proof. destruct t; simpl; congruence. Qed.

Lemma arith_mul t : arith t = false -> mul_op t = false.
Proof. destruct t; simpl; congruence. Qed.

Lemma multiplicative_plain x ts n :
  derives x ts n -> mulLevel x = true ->
  Forall (fun t => bracket t = false) ts ->
  Forall (fun t => add_op t = false) ts.
Proof.
  intros H. destruct (unaryLevel x) eqn:E.
  - intros _ Hts. eapply Forall_impl; [eapply unary_plain; eauto|]. apply arith_add.
  - induction H; intros Hx Hts; simpl in Hx, E; try discriminate Hx; try discriminate E.
    + eapply Forall_impl; [eapply unary_plain; eauto|]. apply arith_add.
    + split_lists.
      * apply IHderives1; auto. 
      * destruct op; try discriminate; reflexivity.
      * apply opt_nl_no_add; assumption.
      * eapply Forall_impl; [eapply (unary_plain unary_expr); eauto|]. apply arith_add.
Qed.


Lemma opt_nl_first nl t4 post :
  opt_nl nl -> nl ++ t4 = post -> Forall (fun t => arith t = false) post -> nl = [].
Proof.
  intros [|] E H; [reflexivity|]. subst post. simpl in H.
  apply Forall_cons in H as [H _]. discriminate H.
Qed.

Lemma mul_last_op ts n pre op post :
  derives multiplicative_expr ts n ->
  Forall (fun t => bracket t = false) ts ->
  ts = pre ++ op :: post ->
  mul_op op = true ->
  Forall (fun t => arith t = false) post ->
  exists l r, n = BinaryExpr l r op /\
    derives multiplicative_expr pre l /\ derives unary_expr post r.
Proof.
  intros Hd Hts E Hop Hpost. subst ts.
  inversion Hd; subst.
  - exfalso.
    match goal with Hu : derives unary_expr _ _ |- _ =>
      pose proof (unary_plain _ _ _ Hu eq_refl Hts) as Hall end.
    apply Forall_app in Hall as [_ Hall]. apply Forall_cons in Hall as [Hall _].
    apply arith_mul in Hall. congruence.
  - match goal with E0 : _ ++ _ :: _ ++ _ = pre ++ op :: post |- _ => rename E0 into E' end.
    match goal with H0 : derives unary_expr t4 _ |- _ => rename H0 into H4 end.
    match goal with H0 : opt_nl nl |- _ => rename H0 into Hnl end.
    match goal with H0 : mul_op op0 = true |- _ => rename H0 into Hop' end.
    assert (Forall (fun t => bracket t = false) t4) as Hb4
      by (rewrite <- E' in Hts; split_lists; assumption).
    pose proof (unary_plain _ _ _ H4 eq_refl Hb4) as H4p.
    symmetry in E'.
    destruct (last_split_unique mul_op pre op post t1 op0 (nl ++ t4) E')
      as [-> [-> Hpo]]; auto.
    { eapply Forall_impl; [exact Hpost | apply arith_mul]. }
    { apply Forall_app; split.
      - destruct Hnl; repeat constructor.
      - eapply Forall_impl; [exact H4p | apply arith_mul]. }
    assert (nl = []) as ->
      by (eapply opt_nl_first; [exact Hnl | symmetry; exact Hpo | exact Hpost]).
    simpl in Hpo. subst post. eauto.
Qed.

Lemma multiplicative_of_plain ts n :
  derives multiplicative_expr ts n ->
  Forall (fun t => arith t = false) ts ->
  derives unary_expr ts n.
Proof.
  intros Hd Hp. inversion Hd; subst; [assumption|].
  exfalso. split_lists.
  match goal with H : arith ?op = false, H' : mul_op ?op = true |- _ =>
    apply arith_mul in H; congruence end.
Qed.

Lemma additive_of_plain ts n :
  derives additive_expr ts n ->
  Forall (fun t => add_op t = false) ts ->
  derives multiplicative_expr ts n.
Proof.
  intros Hd Hp. inversion Hd; subst; [assumption|].
  exfalso. split_lists. congruence.
Qed.

Lemma add_last_op ts n pre op post :
  derives additive_expr ts n ->
  Forall (fun t => bracket t = false) ts ->
  ts = pre ++ op :: post ->
  add_op op = true ->
  Forall (fun t => add_op t = false) post ->
  (forall t rest, post = t :: rest -> t <> NL) ->
  exists l r, n = BinaryExpr l r op /\
    derives additive_expr pre l /\ derives multiplicative_expr post r.
Proof.
  intros Hd Hts E Hop Hpost Hnl. subst ts.
  inversion Hd; subst.
  - exfalso.
    match goal with Hm : derives multiplicative_expr _ _ |- _ =>
      pose proof (multiplicative_plain _ _ _ Hm eq_refl Hts) as Hall end.
    apply Forall_app in Hall as [_ Hall]. apply Forall_cons in Hall as [Hall _].
    congruence.
  - match goal with E0 : _ ++ _ :: _ ++ _ = pre ++ op :: post |- _ => rename E0 into E' end.
    match goal with H0 : derives multiplicative_expr t4 _ |- _ => rename H0 into H4 end.
    match goal with H0 : opt_nl nl |- _ => rename H0 into Hnl' end.
    match goal with H0 : add_op op0 = true |- _ => rename H0 into Hop' end.
    assert (Forall (fun t => bracket t = false) t4) as Hb4
      by (rewrite <- E' in Hts; split_lists; assumption).
    pose proof (multiplicative_plain _ _ _ H4 eq_refl Hb4) as H4p.
    symmetry in E'.
    destruct (last_split_unique add_op pre op post t1 op0 (nl ++ t4) E')
      as [-> [-> Hpo]]; auto.
    { apply Forall_app; split; [apply opt_nl_no_add; assumption | exact H4p]. }
    destruct Hnl' as [|].
    + simpl in Hpo. subst post. eauto.
    + exfalso. simpl in Hpo. eapply Hnl; eauto.
Qed.


Lemma mul_not_add op : mul_op op = true -> add_op op = false.
Proof. destruct op; simpl; congruence. Qed.

Lemma mul_left_nested_derivation ta a tb b tc c op1 op2 :
  derives unary_expr ta a -> derives unary_expr tb b -> derives unary_expr tc c ->
  mul_op op1 = true -> mul_op op2 = true ->
  derives multiplicative_expr (ta ++ op1 :: tb ++ op2 :: tc)
    (BinaryExpr (BinaryExpr a b op1) c op2).
Proof.
  intros Ha Hb Hc H1 H2.
  replace (ta ++ op1 :: tb ++ op2 :: tc)
    with ((ta ++ op1 :: [] ++ tb) ++ op2 :: [] ++ tc)
    by (simpl; rewrite <- app_assoc; reflexivity).
  apply multiplicative_op_unary; auto using opt_nl_empty.
  apply multiplicative_op_unary; auto using opt_nl_empty, multiplicative_unary.
Qed.

Lemma mul_left_nested_only ta tb tc op1 op2 n :
  mul_op op1 = true -> mul_op op2 = true ->
  Forall (fun t => arith t = false) ta ->
  Forall (fun t => arith t = false) tb ->
  Forall (fun t => arith t = false) tc ->
  Forall (fun t => bracket t = false) (ta ++ tb ++ tc) ->
  derives multiplicative_expr (ta ++ op1 :: tb ++ op2 :: tc) n ->
  exists a' b' c', n = BinaryExpr (BinaryExpr a' b' op1) c' op2 /\
    derives unary_expr ta a' /\ derives unary_expr tb b' /\ derives unary_expr tc c'.
Proof.
  intros H1 H2 Pa Pb Pc Hplain Hn. split_lists.
  assert (bracket op1 = false /\ bracket op2 = false) as [Hb1 Hb2]
    by (destruct op1, op2; try discriminate; auto).
  destruct (mul_last_op _ n (ta ++ op1 :: tb) op2 tc Hn) as [l [c' [-> [Hl Hc']]]]; auto.
  { split_lists; auto. }
  { rewrite <- app_assoc. reflexivity. }
  destruct (mul_last_op _ l ta op1 tb Hl) as [a' [b' [-> [Ha' Hb']]]]; auto.
  { split_lists; auto. }
  exists a', b', c'. repeat split; auto.
  apply multiplicative_of_plain; assumption.
Qed.

(** X22.  The operators [*], [/], [%] and [**] are on one level of the
    grammar and associate to the left.  For operands [a], [b], [c]
    derived from [unary_expr] and multiplicative operators [op1], [op2],
    the tokens [a op1 b op2 c] derive a [multiplicative_expr] whose node
    has [op2] at the root and the node of [a op1 b] as its left operand,
    and when the operands hold no bracket every derivation has this
    shape, with the three operands derived from the tokens of [a], [b]
    and [c].  So [a * b ** c] is read as [(a * b) ** c], and
    [a ** b ** c] as [(a ** b) ** c]. *)
Theorem mul_ops_share_one_level ta a tb b tc c op1 op2 :
  derives unary_expr ta a -> derives unary_expr tb b -> derives unary_expr tc c ->
  mul_op op1 = true -> mul_op op2 = true ->
  derives multiplicative_expr (ta ++ op1 :: tb ++ op2 :: tc)
    (BinaryExpr (BinaryExpr a b op1) c op2) /\
  (Forall (fun t => bracket t = false) (ta ++ tb ++ tc) ->
   forall n, derives multiplicative_expr (ta ++ op1 :: tb ++ op2 :: tc) n ->
     exists a' b' c', n = BinaryExpr (BinaryExpr a' b' op1) c' op2 /\
       derives unary_expr ta a' /\ derives unary_expr tb b' /\
       derives unary_expr tc c').
Proof.
  intros Ha Hb Hc H1 H2. split.
  - apply mul_left_nested_derivation; assumption.
  - intros Hplain n Hn.
    assert (Forall (fun t => bracket t = false) ta /\
            Forall (fun t => bracket t = false) tb /\
            Forall (fun t => bracket t = false) tc) as [Ba [Bb Bc]]
      by (split_lists; auto).
    apply mul_left_nested_only; auto; eapply unary_plain; eauto.
Qed.

(** X23.  Multiplicative operators bind tighter than additive ones.  For
    operands derived from [unary_expr] without brackets, an additive
    operator [op1] and a multiplicative operator [op2]: the tokens
    [a op1 b op2 c] derive an [additive_expr] whose node is
    [a op1 (b op2 c)], the tokens [a op2 b op1 c] one whose node is
    [(a op2 b) op1 c], and in both cases every derivation has this
    shape. *)
Theorem multiplicative_binds_tighter ta a tb b tc c op1 op2 :
  derives unary_expr ta a -> derives unary_expr tb b -> derives unary_expr tc c ->
  add_op op1 = true -> mul_op op2 = true ->
  Forall (fun t => bracket t = false) (ta ++ tb ++ tc) ->
  (derives additive_expr (ta ++ op1 :: tb ++ op2 :: tc)
     (BinaryExpr a (BinaryExpr b c op2) op1) /\
   forall n, derives additive_expr (ta ++ op1 :: tb ++ op2 :: tc) n ->
     exists a' b' c', n = BinaryExpr a' (BinaryExpr b' c' op2) op1 /\
       derives unary_expr ta a' /\ derives unary_expr tb b' /\
       derives unary_expr tc c') /\
  (derives additive_expr (ta ++ op2 :: tb ++ op1 :: tc)
     (BinaryExpr (BinaryExpr a b op2) c op1) /\
   forall n, derives additive_expr (ta ++ op2 :: tb ++ op1 :: tc) n ->
     exists a' b' c', n = BinaryExpr (BinaryExpr a' b' op2) c' op1 /\
       derives unary_expr ta a' /\ derives unary_expr tb b' /\
       derives unary_expr tc c').
Proof.
  intros Ha Hb Hc H1 H2 Hplain.
  assert (Forall (fun t => bracket t = false) ta /\
          Forall (fun t => bracket t = false) tb /\
          Forall (fun t => bracket t = false) tc) as [Ba [Bb Bc]]
    by (split_lists; auto).
  pose proof (unary_plain _ _ _ Ha eq_refl Ba) as Pa.
  pose proof (unary_plain _ _ _ Hb eq_refl Bb) as Pb.
  pose proof (unary_plain _ _ _ Hc eq_refl Bc) as Pc.
  assert (bracket op1 = false /\ bracket op2 = false) as [Hb1 Hb2]
    by (destruct op1, op2; try discriminate; auto).
  pose proof (mul_not_add op2 H2) as H2a.
  assert (forall ts, Forall (fun t => arith t = false) ts ->
                     Forall (fun t => add_op t = false) ts) as Padd.
  { intros ts Hts. eapply Forall_impl; [exact Hts | apply arith_add]. }
  split; split.
  - replace (ta ++ op1 :: tb ++ op2 :: tc) with (ta ++ op1 :: [] ++ (tb ++ op2 :: [] ++ tc))
      by reflexivity.
    apply additive_op_multiplicative; auto using opt_nl_empty.
    + apply additive_multiplicative, multiplicative_unary, Ha.
    + apply multiplicative_op_unary; auto using opt_nl_empty, multiplicative_unary.
  - intros n Hn.
    destruct (add_last_op _ n ta op1 (tb ++ op2 :: tc) Hn) as [l [r [-> [Hl Hr]]]]; auto.
    { split_lists; auto. }
    { split_lists; auto. }
    { intros t rest E. destruct tb as [|t0 tb']; simpl in E; injection E as <- _.
      - destruct op2; try discriminate H2; discriminate.
      - apply Forall_cons in Pb as [Pt _]. destruct t0; try discriminate Pt; discriminate. }
    destruct (mul_last_op _ r tb op2 tc Hr) as [b' [c' [-> [Hb' Hc']]]]; auto.
    { split_lists; auto. }
    exists l, b', c'. repeat split; auto.
    + apply multiplicative_of_plain; [|exact Pa]. apply additive_of_plain; auto.
    + apply multiplicative_of_plain; assumption.
  - replace (ta ++ op2 :: tb ++ op1 :: tc) with ((ta ++ op2 :: [] ++ tb) ++ op1 :: [] ++ tc)
      by (simpl; rewrite <- app_assoc; reflexivity).
    apply additive_op_multiplicative; auto using opt_nl_empty, multiplicative_unary.
    apply additive_multiplicative.
    apply multiplicative_op_unary; auto using opt_nl_empty, multiplicative_unary.
  - intros n Hn.
    destruct (add_last_op _ n (ta ++ op2 :: tb) op1 tc Hn) as [l [r [-> [Hl Hr]]]]; auto.
    { split_lists; auto. }
    { rewrite <- app_assoc. reflexivity. }
    { intros t rest E. subst tc. apply Forall_cons in Pc as [Pt _].
      destruct t; try discriminate Pt; discriminate. }
    apply additive_of_plain in Hl; [|split_lists; auto].
    destruct (mul_last_op _ l ta op2 tb Hl) as [a' [b' [-> [Ha' Hb']]]]; auto.
    { split_lists; auto. }
    exists a', b', r. repeat split; auto.
    + apply multiplicative_of_plain; assumption.
    + apply multiplicative_of_plain; assumption.
Qed.

(** X24.  The two ways of writing two indices build the same node: for
    index expressions [x] and [y], both [name[x][y]] and [name[x, y]]
    derive the [IndexedExpr] of [name] whose index list is [x; y]. *)
Theorem index_forms_build_same_node name tx x ty y :
  derives bitwise_expr tx x -> derives bitwise_expr ty y ->
  derives indexed_expr
    ([ID name] ++ LSQUARE :: tx ++ [RSQUARE] ++ LSQUARE :: ty ++ [RSQUARE])
    (IndexedExpr (IdTerm name) (ExprList [x; y])) /\
  derives indexed_expr
    ([ID name] ++ LSQUARE :: (tx ++ COMMA :: ty) ++ [RSQUARE])
    (IndexedExpr (IdTerm name) (ExprList [x; y])).
Proof.
  intros Hx Hy. split.
  - replace ([ID name] ++ LSQUARE :: tx ++ [RSQUARE] ++ LSQUARE :: ty ++ [RSQUARE])
      with (([ID name] ++ LSQUARE :: tx ++ [RSQUARE]) ++ LSQUARE :: ty ++ [RSQUARE])
      by (simpl; rewrite <- app_assoc; reflexivity).
    apply (indexed_index _ (IdTerm name) [x] ty [y]); [|apply arg_first, Hy].
    apply (indexed_index _ (IdTerm name) [] tx [x]); [|apply arg_first, Hx].
    apply indexed_id, id_ID.
  - apply (indexed_index _ (IdTerm name) [] (tx ++ COMMA :: ty) [x; y]).
    + apply indexed_id, id_ID.
    + apply (arg_more tx [x] ty y); [apply arg_first, Hx | exact Hy].
Qed.

End ArithmeticFacts.

(** ** The cut of the fuzzing input *)

Section FuzzFacts.
Import Fuzz.

Lemma HasPrefix_app s p : HasPrefix s p = true <-> exists rest, s = p ++ rest.
Proof.
  revert s. induction p as [|b p IH]; intros s; simpl.
  - split; [intros _; exists s; reflexivity | reflexivity].
  - destruct s as [|c s]; simpl.
    + split; [discriminate | intros [rest E]; discriminate E].
    + rewrite andb_true_iff, IH. split.
      * intros [Hb [rest ->]]. apply Byte.byte_dec_bl in Hb. subst c. eauto.
      * intros [rest [= -> ->]]. split; [apply Byte.byte_dec_lb; reflexivity | eauto].
Qed.

Lemma Index_range s sep : -1 <= Index s sep <= Z.of_nat (length s).
Proof.
  induction s as [|b s IH]; simpl.
  - destruct (HasPrefix [] sep); lia.
  - destruct (HasPrefix (b :: s) sep); [lia|].
    destruct (Z.ltb_spec (Index s sep) 0); lia.
Qed.

(** [Index] finds an instance, and the first one. *)
Lemma Index_found s sep i :
  Index s sep = i -> 0 <= i ->
  exists rest,
    s = take (Z.to_nat i) s ++ sep ++ rest /\
    drop (Z.to_nat i + length sep) s = rest /\
    (Z.to_nat i <= length s)%nat /\
    forall j, (j < Z.to_nat i)%nat -> HasPrefix (drop j s) sep = false.
Proof.
  revert i. induction s as [|b s IH]; intros i E Hi; cbn [Index] in E.
  - destruct (HasPrefix [] sep) eqn:P; [|lia]. subst i.
    apply HasPrefix_app in P as [rest P]. exists rest. simpl.
    destruct sep; [|discriminate P]. simpl in P. subst rest.
    repeat split; auto. intros j Hj; lia.
  - destruct (HasPrefix (b :: s) sep) eqn:P.
    + subst i. apply HasPrefix_app in P as [rest P]. exists rest.
      change (Z.to_nat 0) with O. cbn [take Nat.add app].
      split; [exact P|]. split; [rewrite P, drop_app_length; reflexivity|].
      split; [lia|]. intros j Hj; lia.
    + destruct (Z.ltb_spec (Index s sep) 0) as [Hneg|Hpos]; [lia|].
      destruct (IH (Index s sep) eq_refl Hpos) as [rest [E1 [E2 [E3 E4]]]].
      exists rest. subst i.
      replace (Z.to_nat (Index s sep + 1)) with (S (Z.to_nat (Index s sep))) by lia.
      cbn [take drop Nat.add app]. split; [f_equal; exact E1|].
      split; [exact E2|]. split; [simpl; lia|].
      intros [|j] Hj; [exact P|]. simpl. apply E4. lia.
Qed.

Lemma Index_none s sep :
  Index s sep = -1 -> forall j, (j <= length s)%nat -> HasPrefix (drop j s) sep = false.
Proof.
  induction s as [|b s IH]; cbn [Index]; intros E j Hj.
  - destruct (HasPrefix [] sep) eqn:P; [discriminate E|].
    destruct j; exact P.
  - destruct (HasPrefix (b :: s) sep) eqn:P; [discriminate E|].
    destruct j as [|j]; [exact P|]. simpl. apply IH; [|simpl in Hj; lia].
    pose proof (Index_range s sep). destruct (Z.ltb_spec (Index s sep) 0); lia.
Qed.


Lemma drop_of_split {A} (s r : list A) k : s = take k s ++ r -> drop k s = r.
Proof. intros E. apply (app_inv_head (take k s)). rewrite take_drop. exact E. Qed.

Lemma Index_first s sep j :
  HasPrefix (drop j s) sep = true -> (j <= length s)%nat ->
  0 <= Index s sep <= Z.of_nat j.
Proof.
  revert j. induction s as [|b s IH]; intros j P Hj; cbn [Index].
  - destruct j; simpl in P |- *; rewrite P; lia.
  - destruct (HasPrefix (b :: s) sep) eqn:P0; [lia|].
    destruct j as [|j]; [simpl in P; congruence|].
    simpl in P, Hj. specialize (IH j P ltac:(lia)).
    destruct (Z.ltb_spec (Index s sep) 0); lia.
Qed.

Lemma Index_absent s sep :
  (forall j, (j <= length s)%nat -> HasPrefix (drop j s) sep = false) ->
  Index s sep = -1.
Proof.
  intros H. pose proof (Index_range s sep) as R.
  destruct (Z.eq_dec (Index s sep) (-1)) as [E|E]; [exact E|].
  destruct (Index_found s sep _ eq_refl) as [rest [E1 [_ [E3 _]]]]; [lia|].
  specialize (H (Z.to_nat (Index s sep)) E3).
  assert (HasPrefix (drop (Z.to_nat (Index s sep)) s) sep = true) as P.
  { apply HasPrefix_app. exists rest. apply drop_of_split. exact E1. }
  congruence.
Qed.

Lemma HasPrefix_extend q r sep :
  HasPrefix q sep = true -> HasPrefix (q ++ r) sep = true.
Proof.
  intros P. apply HasPrefix_app in P as [rest ->]. apply HasPrefix_app.
  exists (rest ++ r). rewrite app_assoc. reflexivity.
Qed.

(** X25.  The cut of [Fuzz].  The program text handed to the compiler
    holds no separator.  When the input holds a separator, the input is
    the program text, the separator and the log text, in this order, so
    the cut is at the first separator; when it holds none, the whole
    input is the program text and the log text is empty. *)
Theorem Fuzz_cut_at_first_separator data :
  Index (program data) SEP = -1 /\
  (Index data SEP < 0 -> program data = data /\ input data = []) /\
  (0 <= Index data SEP -> data = program data ++ SEP ++ input data).
Proof.
  unfold program, input, cut.
  destruct (Z.ltb_spec (Index data SEP) 0) as [Hneg|Hpos].
  - rewrite Nat2Z.id, take_app_length.
    assert (Index data SEP = -1) as E by (pose proof (Index_range data SEP); lia).
    split; [exact E|]. split; [|lia]. intros _. split; [reflexivity|].
    replace (Z.to_nat (Z.of_nat (length data) + Z.of_nat (length SEP)))
      with (length (data ++ SEP)) by (rewrite length_app; lia).
    apply drop_all.
  - destruct (Index_found data SEP _ eq_refl Hpos) as [rest [E1 [E2 [E3 E4]]]].
    replace (Z.to_nat (Index data SEP + Z.of_nat (length SEP)))
      with (Z.to_nat (Index data SEP) + length SEP)%nat by lia.
    rewrite E2. split; [|split; [lia | intros _; exact E1]].
    apply Index_absent. intros j Hj.
    rewrite length_take in Hj.
    destruct (HasPrefix (drop j (take (Z.to_nat (Index data SEP)) data)) SEP) eqn:P;
      [|reflexivity].
    assert (j < Z.to_nat (Index data SEP))%nat as Hlt.
    { apply HasPrefix_app in P as [r P].
      apply (f_equal length) in P. rewrite length_drop, length_take, length_app in P.
      simpl in P. lia. }
    rewrite <- (E4 j Hlt). symmetry.
    set (k := Z.to_nat (Index data SEP)) in *.
    replace (drop j data) with (drop j (take k data) ++ drop k data).
    + apply HasPrefix_extend. exact P.
    + rewrite <- drop_app_le by (rewrite length_take; lia).
      rewrite take_drop. reflexivity.
Qed.

Lemma separator_border_free q i :
  q <> [] -> HasPrefix q SEP = false -> HasPrefix (q ++ SEP ++ i) SEP = false.
Proof.
  intros Hq P. destruct q as [|a [|b [|c q]]]; [congruence| | |]; simpl in *.
  - destruct (Byte.eqb a Byte.xe2); reflexivity.
  - destruct (Byte.eqb a Byte.xe2), (Byte.eqb b Byte.x90); reflexivity.
  - exact P.
Qed.

(** X26.  A program text without separator, followed by the separator
    and any log text, is cut back into that program text and that log
    text, also when the log text holds further separators. *)
Theorem Fuzz_cut_round_trip p i :
  Index p SEP = -1 ->
  program (p ++ SEP ++ i) = p /\ input (p ++ SEP ++ i) = i.
Proof.
  intros Hp.
  assert (Index (p ++ SEP ++ i) SEP = Z.of_nat (length p)) as E.
  { assert (HasPrefix (drop (length p) (p ++ SEP ++ i)) SEP = true) as P.
    { rewrite drop_app_length. apply HasPrefix_app. eauto. }
    pose proof (Index_first _ _ _ P ltac:(rewrite length_app; lia)) as R.
    destruct (Z.eq_dec (Index (p ++ SEP ++ i) SEP) (Z.of_nat (length p))) as [E|E];
      [exact E|].
    exfalso.
    destruct (Index_found (p ++ SEP ++ i) SEP _ eq_refl) as [rest [E1 _]]; [lia|].
    set (k := Z.to_nat (Index (p ++ SEP ++ i) SEP)) in *.
    assert (k < length p)%nat as Hk by lia.
    assert (HasPrefix (drop k (p ++ SEP ++ i)) SEP = true) as Pk.
    { apply HasPrefix_app. exists rest. apply drop_of_split. exact E1. }
    rewrite drop_app_le in Pk by lia.
    rewrite separator_border_free in Pk; [discriminate Pk| |].
    - intros Hnil. apply (f_equal length) in Hnil. rewrite length_drop in Hnil.
      simpl in Hnil. lia.
    - apply Index_none; [exact Hp | lia]. }
  unfold program, input, cut. rewrite E.
  destruct (Z.ltb_spec (Z.of_nat (length p)) 0) as [Hneg|_]; [lia|].
  rewrite Nat2Z.id. rewrite take_app_length. split; [reflexivity|].
  replace (Z.to_nat (Z.of_nat (length p) + Z.of_nat (length SEP)))
    with (length p + length SEP)%nat by lia.
  rewrite <- drop_drop, drop_app_length. apply drop_app_length.
Qed.

End FuzzFacts.


Section MoreClosedStatements.
Import Types syntax Capref Grammar Fuzz Examples.
Local Open Scope go_scope.

(** ** Instance chains and resolved forms of the example heaps *)

Lemma heapChain_path_3 : path heapChain (TVariable 3) [3%nat; 2%nat] (TVariable 1).
Proof.
  apply (path_bound heapChain 3 (mkVariable 12 (Some (TVariable 2))) (TVariable 2)
           [2%nat] (TVariable 1)); [reflexivity | reflexivity |].
  apply (path_bound heapChain 2 (mkVariable 11 (Some (TVariable 1))) (TVariable 1)
           [] (TVariable 1)); [reflexivity | reflexivity |].
  apply (path_unbound heapChain 1 (mkVariable 10 None)); reflexivity.
Qed.

Lemma heapChain_path_2 : path heapChain (TVariable 2) [2%nat] (TVariable 1).
Proof.
  apply (path_bound heapChain 2 (mkVariable 11 (Some (TVariable 1))) (TVariable 1)
           [] (TVariable 1)); [reflexivity | reflexivity |].
  apply (path_unbound heapChain 1 (mkVariable 10 None)); reflexivity.
Qed.

Lemma resolves_Int (h : heap) L n : resolves h L (S n) Int Int.
Proof.
  apply (resolves_operator h L n Int [] "Int" [] []);
    [apply path_operator | simpl; lia | apply List.Forall2_nil].
Qed.

Lemma resolves_unary (h : heap) L n t t' :
  resolves h L n t t' -> resolves h L (S n) (Function [t]) (Function [t']).
Proof.
  intros H. apply (resolves_operator h L n (Function [t]) [] "→" [t] [t']);
    [apply path_operator | simpl; lia |].
  apply List.Forall2_cons; [exact H | apply List.Forall2_nil].
Qed.

Lemma heapBound_resolves_2 : resolves heapBound 1 1 (TVariable 2) Int.
Proof.
  apply (resolves_operator heapBound 1 0 (TVariable 2) [2%nat] "Int" [] []);
    [| simpl; lia | apply List.Forall2_nil].
  apply (path_bound heapBound 2 (mkVariable 11 (Some Int)) Int [] Int);
    [reflexivity | reflexivity | apply path_operator].
Qed.

Lemma heapBound_resolves_1 n : resolves heapBound 1 n (TVariable 1) (TVariable 1).
Proof.
  apply (resolves_variable heapBound 1 n (TVariable 1) [] 1); [|simpl; lia].
  apply (path_unbound heapBound 1 (mkVariable 10 None)); reflexivity.
Qed.

Lemma heapChain_resolves_2 n : resolves heapChain 2 n (TVariable 2) (TVariable 1).
Proof.
  apply (resolves_variable heapChain 2 n (TVariable 2) [2%nat] 1);
    [exact heapChain_path_2 | simpl; lia].
Qed.

Lemma heapError_path_1 :
  path heapError (TVariable 1) [1%nat] (mismatch Int None_).
Proof.
  apply (path_bound heapError 1 (mkVariable 10 (Some (mismatch Int None_)))
           (mismatch Int None_) [] (mismatch Int None_));
    [reflexivity | reflexivity | apply path_error].
Qed.

(** ** Closed statements on completeness and the occurs-check *)

Lemma IsComplete_iff_ground_witness :
  resolves heapBound 1 2 (Function [TVariable 2]) (Function [Int]) /\
  exists h',
    IsComplete (1 + 2 + 2) (Function [TVariable 2]) heapBound = Ok (true, h') /\
    shortens heapBound h'.
Proof.
  split; [exact (resolves_unary heapBound 1 1 _ _ heapBound_resolves_2)|].
  exact (IsComplete_iff_ground 1 2 heapBound (Function [TVariable 2]) (Function [Int])
           (resolves_unary heapBound 1 1 _ _ heapBound_resolves_2)).
Defined.

Lemma IsComplete_false_on_error_witness :
  path heapError (TVariable 1) [1%nat] (mismatch Int None_) /\
  (length [1%nat] <= 1)%nat /\
  exists h', IsComplete 3 (TVariable 1) heapError = Ok (false, h') /\
             shortens heapError h'.
Proof.
  split; [exact heapError_path_1|]. split; [simpl; lia|].
  exact (IsComplete_false_on_error 1 heapError (TVariable 1) [1%nat]
           (Some ErrTypeMismatch) (Some Int) (Some None_) heapError_path_1
           ltac:(simpl; lia)).
Defined.

Lemma occursInType_finds_variable_witness :
  resolves heapBound 1 1 (Function [TVariable 1]) (Function [TVariable 1]) /\
  heapBound !! 1%nat = Some (mkVariable 10 None) /\
  exists h',
    occursInType (1 + 2 * 1 + 4) (TVariable 1) (Function [TVariable 1]) heapBound =
      Ok (true, h') /\
    shortens heapBound h'.
Proof.
  split; [exact (resolves_unary heapBound 1 0 _ _ (heapBound_resolves_1 0))|].
  split; [reflexivity|].
  exact (occursInType_finds_variable 1 1 heapBound (Function [TVariable 1])
           (Function [TVariable 1]) 1 (mkVariable 10 None)
           (resolves_unary heapBound 1 0 _ _ (heapBound_resolves_1 0)) eq_refl eq_refl).
Defined.


(** ** Closed statements on unification *)

Lemma Unify_binding_keeps_chains_finite_witness :
  path heapChain (TVariable 3) [3%nat; 2%nat] (TVariable 1) /\
  (length [3%nat; 2%nat] <= 2)%nat /\
  heapChain !! 1%nat = Some (mkVariable 10 None) /\
  resolves heapChain 2 2 (Function [Int]) (Function [Int]) /\
  occursID heapChain 10 (Function [Int]) = false /\
  exists h' name args,
    Unify (2 + 2 * 2 + 5) (TVariable 3) (Function [Int]) heapChain =
      Ok (TOperator name args, h') /\
    (exists qs, path h' (Function [Int]) qs (TOperator name args)) /\
    resolves h' 3 2 (TVariable 3) (Function [Int]) /\
    resolves h' 3 2 (Function [Int]) (Function [Int]).
Proof.
  pose proof (resolves_unary heapChain 2 1 Int Int (resolves_Int heapChain 2 0)) as Hb.
  split; [exact heapChain_path_3|]. split; [simpl; lia|]. split; [reflexivity|].
  split; [exact Hb|]. split; [reflexivity|].
  destruct (Unify_binding_keeps_chains_finite 2 2 heapChain (TVariable 3) (Function [Int])
              [3%nat; 2%nat] 1 (mkVariable 10 None) (Function [Int])
              heapChain_path_3 ltac:(simpl; lia) eq_refl Hb eq_refl eq_refl)
    as [h' [name [args [HU [Hq [Ha [Hb' _]]]]]]].
  exists h', name, args. split; [exact HU|]. split; [exact Hq|].
  split; [exact Ha | exact Hb'].
Defined.

Lemma Unify_occurs_check_rejects_witness :
  path heapChain (TVariable 3) [3%nat; 2%nat] (TVariable 1) /\
  (length [3%nat; 2%nat] <= 2)%nat /\
  heapChain !! 1%nat = Some (mkVariable 10 None) /\
  resolves heapChain 2 1 (Function [TVariable 2]) (Function [TVariable 1]) /\
  occursID heapChain 10 (Function [TVariable 1]) = true /\
  exists h' b1 qs,
    Unify (2 + 2 * 1 + 5) (TVariable 3) (Function [TVariable 2]) heapChain =
      Ok (TTypeError (Some ErrRecursiveUnification) (Some (TVariable 1)) (Some b1), h') /\
    path h' (Function [TVariable 2]) qs b1 /\
    shortens heapChain h'.
Proof.
  pose proof (resolves_unary heapChain 2 0 _ _ (heapChain_resolves_2 0)) as Hb.
  split; [exact heapChain_path_3|]. split; [simpl; lia|]. split; [reflexivity|].
  split; [exact Hb|]. split; [reflexivity|].
  exact (Unify_occurs_check_rejects 2 1 heapChain (TVariable 3) (Function [TVariable 2])
           [3%nat; 2%nat] 1 (mkVariable 10 None) (Function [TVariable 1])
           heapChain_path_3 ltac:(simpl; lia) eq_refl Hb eq_refl eq_refl).
Defined.

Lemma Unify_operator_first_binds_witness :
  path heapChain (TVariable 3) [3%nat; 2%nat] (TVariable 1) /\
  (length [3%nat; 2%nat] <= 2)%nat /\
  heapChain !! 1%nat = Some (mkVariable 10 None) /\
  resolves heapChain 2 2 (Function [Int]) (Function [Int]) /\
  occursID heapChain 10 (Function [Int]) = false /\
  exists h' name args,
    Unify (2 + 2 * 2 + 6) (Function [Int]) (TVariable 3) heapChain =
      Ok (TOperator name args, h') /\
    (exists qs, path heapChain (Function [Int]) qs (TOperator name args)) /\
    (exists qs, path h' (Function [Int]) qs (TOperator name args)) /\
    (exists qs, path h' (TVariable 3) qs (TOperator name args)) /\
    resolves h' 3 2 (TVariable 3) (Function [Int]) /\
    resolves h' 3 2 (Function [Int]) (Function [Int]).
Proof.
  pose proof (resolves_unary heapChain 2 1 Int Int (resolves_Int heapChain 2 0)) as Hb.
  split; [exact heapChain_path_3|]. split; [simpl; lia|]. split; [reflexivity|].
  split; [exact Hb|]. split; [reflexivity|].
  destruct (Unify_operator_first_binds 2 2 heapChain (TVariable 3) (Function [Int])
              [3%nat; 2%nat] 1 (mkVariable 10 None) (Function [Int])
              heapChain_path_3 ltac:(simpl; lia) eq_refl Hb eq_refl eq_refl)
    as [h' [name [args [HU [Hq [Hq' [Hqa [Ha [Hb' _]]]]]]]]].
  exists h', name, args. split; [exact HU|]. split; [exact Hq|]. split; [exact Hq'|].
  split; [exact Hqa|]. split; [exact Ha | exact Hb'].
Defined.

Lemma Unify_variables_witness :
  path heapTwo (TVariable 1) [] (TVariable 1) /\
  path heapTwo (TVariable 2) [] (TVariable 2) /\
  heapTwo !! 1%nat = Some (mkVariable 0 None) /\
  heapTwo !! 2%nat = Some (mkVariable 1 None) /\
  (0 <> 1) /\
  exists h' ps' qs',
    Unify 2 (TVariable 1) (TVariable 2) heapTwo = Ok (TVariable 2, h') /\
    path h' (TVariable 1) ps' (TVariable 2) /\
    path h' (TVariable 2) qs' (TVariable 2).
Proof.
  assert (path heapTwo (TVariable 1) [] (TVariable 1)) as H1
    by (apply (path_unbound heapTwo 1 (mkVariable 0 None)); reflexivity).
  assert (path heapTwo (TVariable 2) [] (TVariable 2)) as H2
    by (apply (path_unbound heapTwo 2 (mkVariable 1 None)); reflexivity).
  split; [exact H1|]. split; [exact H2|]. split; [reflexivity|]. split; [reflexivity|].
  split; [lia|].
  destruct (Unify_variables 1 heapTwo (TVariable 1) (TVariable 2) [] [] 1 2
              (mkVariable 0 None) (mkVariable 1 None) H1 H2 eq_refl eq_refl
              ltac:(simpl; lia) ltac:(simpl; lia)) as [Hd _].
  apply Hd. simpl. lia.
Defined.

Lemma Unify_error_is_internal_witness :
  path heapError (TVariable 1) [1%nat] (mismatch Int None_) /\
  path heapError Int [] Int /\
  (length [1%nat] + length (@nil nat) + 2 <= 3)%nat /\
  exists h',
    Unify 3 (TVariable 1) Int heapError =
      Ok (TTypeError (Some ErrInternal) (Some (TVariable 1)) (Some Int), h') /\
    shortens heapError h'.
Proof.
  split; [exact heapError_path_1|]. split; [apply path_operator|].
  split; [simpl; lia|].
  exact (Unify_error_is_internal 3 heapError (TVariable 1) Int [1%nat] []
           (mismatch Int None_) Int heapError_path_1 (path_operator _ _ _)
           (or_introl eq_refl) ltac:(simpl; lia)).
Defined.

Lemma Equals_false_on_error_witness :
  path heapError (TVariable 1) [1%nat] (mismatch Int None_) /\
  (length [1%nat] + length [1%nat] + 4 <= 6)%nat /\
  exists h',
    Equals 6 (TVariable 1) (TVariable 1) heapError = Ok (false, h') /\
    shortens heapError h'.
Proof.
  split; [exact heapError_path_1|]. split; [simpl; lia|].
  exact (Equals_false_on_error 6 heapError (TVariable 1) (TVariable 1) [1%nat] [1%nat]
           (mismatch Int None_) (mismatch Int None_) heapError_path_1 heapError_path_1
           (or_introl eq_refl) ltac:(simpl; lia)).
Defined.

Lemma Equals_short_operators_panic_witness :
  path heapBound (Function [TVariable 2; Int]) [] (Function [TVariable 2; Int]) /\
  length [TVariable 2; Int] = length [Int; Int] /\
  (1 <= length [TVariable 2; Int] <= 2)%nat /\
  Equals 2 (Function [TVariable 2; Int]) (Function [Int; Int]) heapBound = Panic /\
  LeastUpperBound 2 (Function [TVariable 2; Int]) (Function [Int; Int]) heapBound = Panic.
Proof.
  split; [apply path_operator|]. split; [reflexivity|]. split; [simpl; lia|].
  exact (Equals_short_operators_panic 1 heapBound (Function [TVariable 2; Int])
           (Function [Int; Int]) [] [] "→" [TVariable 2; Int] [Int; Int]
           (path_operator _ _ _) (path_operator _ _ _) eq_refl ltac:(simpl; lia)
           ltac:(simpl; lia) ltac:(simpl; lia)).
Defined.


(** ** Closed statements on the least upper bound *)

Lemma LeastUpperBound_builtin_table_witness :
  path heapBound (TVariable 2) [2%nat] Int /\
  path heapBound Float [] Float /\
  Int ∈ builtins /\ Float ∈ builtins /\
  exists h',
    LeastUpperBound 2 (TVariable 2) Float heapBound = Ok (Float, h') /\
    shortens heapBound h'.
Proof.
  assert (path heapBound (TVariable 2) [2%nat] Int) as Ha.
  { apply (path_bound heapBound 2 (mkVariable 11 (Some Int)) Int [] Int);
      [reflexivity | reflexivity | apply path_operator]. }
  assert (Int ∈ builtins) as Hi.
  { unfold builtins. apply list_elem_of_further, list_elem_of_further,
      list_elem_of_further, list_elem_of_here. }
  assert (Float ∈ builtins) as Hf.
  { unfold builtins. apply list_elem_of_further, list_elem_of_further,
      list_elem_of_further, list_elem_of_further, list_elem_of_here. }
  split; [exact Ha|]. split; [apply path_operator|]. split; [exact Hi|].
  split; [exact Hf|].
  exact (LeastUpperBound_builtin_table 2 heapBound (TVariable 2) Float [2%nat] []
           Int Float Ha (path_operator _ _ _) Hi Hf ltac:(simpl; lia) ltac:(simpl; lia)).
Defined.

Lemma LeastUpperBound_variable_operator_witness :
  path heapChain (TVariable 3) [3%nat; 2%nat] (TVariable 1) /\
  heapChain !! 1%nat = Some (mkVariable 10 None) /\
  resolves heapChain 2 1 (Function [TVariable 2]) (Function [TVariable 1]) /\
  exists b1 qs h1 h2,
    path heapChain (Function [TVariable 2]) qs b1 /\
    LeastUpperBound 10 (TVariable 3) (Function [TVariable 2]) heapChain =
      Ok (TVariable 1, h1) /\
    LeastUpperBound 10 (Function [TVariable 2]) (TVariable 3) heapChain = Ok (b1, h2) /\
    shortens heapChain h1 /\ shortens heapChain h2.
Proof.
  pose proof (resolves_unary heapChain 2 0 _ _ (heapChain_resolves_2 0)) as Hb.
  split; [exact heapChain_path_3|]. split; [reflexivity|]. split; [exact Hb|].
  exact (LeastUpperBound_variable_operator 2 1 heapChain (TVariable 3)
           (Function [TVariable 2]) [3%nat; 2%nat] 1 (mkVariable 10 None)
           (Function [TVariable 1]) 10 heapChain_path_3 ltac:(simpl; lia) eq_refl Hb
           eq_refl ltac:(simpl; lia)).
Defined.

Lemma LeastUpperBound_with_error_witness :
  path heapError (TVariable 1) [1%nat] (mismatch Int None_) /\
  path heapError Int [] Int /\
  path heapError (TVariable 2) [] (TVariable 2) /\
  (exists h',
     LeastUpperBound 5 (TVariable 1) Int heapError =
       Ok (mismatch (TVariable 1) Int, h') /\
     shortens heapError h') /\
  (exists h',
     LeastUpperBound 5 (TVariable 2) (TVariable 1) heapError =
       Ok (mismatch Int None_, h') /\
     shortens heapError h').
Proof.
  assert (path heapError (TVariable 2) [] (TVariable 2)) as H2
    by (apply (path_unbound heapError 2 (mkVariable 11 None)); reflexivity).
  split; [exact heapError_path_1|]. split; [apply path_operator|]. split; [exact H2|].
  split.
  - exact (LeastUpperBound_with_error 5 heapError (TVariable 1) Int [1%nat] []
             (mismatch Int None_) Int heapError_path_1 (path_operator _ _ _)
             (or_introl eq_refl) ltac:(simpl; lia)).
  - exact (LeastUpperBound_with_error 5 heapError (TVariable 2) (TVariable 1) [] [1%nat]
             (TVariable 2) (mismatch Int None_) H2 heapError_path_1
             (or_intror eq_refl) ltac:(simpl; lia)).
Defined.

(** ** Closed statements on printing *)

Lemma TypeString_of_resolved_witness :
  resolves heapBound 1 2 (Function [TVariable 2; TVariable 1])
    (Function [Int; TVariable 1]) /\
  (2 * 3 <= 6)%nat /\
  TypeString 6 (Function [TVariable 2; TVariable 1]) heapBound =
    Ok ("Int→typeVar10", heapBound).
Proof.
  assert (resolves heapBound 1 2 (Function [TVariable 2; TVariable 1])
            (Function [Int; TVariable 1])) as Hr.
  { apply (resolves_operator heapBound 1 1 (Function [TVariable 2; TVariable 1]) [] "→"
             [TVariable 2; TVariable 1] [Int; TVariable 1]);
      [apply path_operator | simpl; lia |].
    apply List.Forall2_cons; [exact heapBound_resolves_2|].
    apply List.Forall2_cons; [exact (heapBound_resolves_1 1) | apply List.Forall2_nil]. }
  split; [exact Hr|]. split; [lia|].
  exact (TypeString_of_resolved 1 2 heapBound _ _ Hr 6%nat ltac:(simpl; lia)).
Defined.

Lemma TypeError_String_message_witness :
  resolves heapBound 1 2 (TVariable 2) Int /\
  resolves heapBound 1 2 (Function [TVariable 1]) (Function [TVariable 1]) /\
  exists h',
    TypeString 8
      (TTypeError (Some ErrTypeMismatch) (Some (TVariable 2))
         (Some (Function [TVariable 1]))) heapBound =
      Ok ("type mismatch; expected Int received incomplete type", h') /\
    shortens heapBound h'.
Proof.
  assert (resolves heapBound 1 2 (TVariable 2) Int) as Hx.
  { apply (resolves_operator heapBound 1 1 (TVariable 2) [2%nat] "Int" [] []);
      [| simpl; lia | apply List.Forall2_nil].
    apply (path_bound heapBound 2 (mkVariable 11 (Some Int)) Int [] Int);
      [reflexivity | reflexivity | apply path_operator]. }
  pose proof (resolves_unary heapBound 1 1 _ _ (heapBound_resolves_1 1)) as Hy.
  split; [exact Hx|]. split; [exact Hy|].
  exact (TypeError_String_message 1 2 heapBound ErrTypeMismatch (TVariable 2) Int
           (Function [TVariable 1]) (Function [TVariable 1]) 8 Hx Hy ltac:(simpl; lia)).
Defined.


Lemma TypeError_String_nil_side_panics_witness :
  resolves heapBound 1 2 (TVariable 2) Int /\
  TypeString 8 InternalError heapBound = Panic /\
  TypeString 8 (TTypeError (Some ErrInternal) (Some (TVariable 2)) None) heapBound =
    Panic.
Proof.
  assert (resolves heapBound 1 2 (TVariable 2) Int) as Hx.
  { apply (resolves_operator heapBound 1 1 (TVariable 2) [2%nat] "Int" [] []);
      [| simpl; lia | apply List.Forall2_nil].
    apply (path_bound heapBound 2 (mkVariable 11 (Some Int)) Int [] Int);
      [reflexivity | reflexivity | apply path_operator]. }
  split; [exact Hx|].
  destruct (TypeError_String_nil_side_panics 1 2 heapBound ErrInternal (TVariable 2) Int
              8 Hx ltac:(simpl; lia)) as [H1 H2].
  split; [exact (H1 None) | exact H2].
Defined.

(** ** Closed statements on fresh variables *)

Lemma FreshType_renames_variables_witness :
  resolves heapBound 1 2 (Function [TVariable 1; TVariable 2; TVariable 1])
    (Function [TVariable 1; Int; TVariable 1]) /\
  exists m created h',
    FreshType (1 + 2 + 2) (Function [TVariable 1; TVariable 2; TVariable 1]) 7 heapBound =
      Ok (rename m (Function [TVariable 1; Int; TVariable 1]),
          Nat.iter (length created) incr 7, h') /\
    shortens heapBound h' /\
    (forall p, is_Some (m !! p) <-> p ∈ variables (Function [TVariable 1; Int; TVariable 1])) /\
    NoDup created /\
    (forall q, q ∈ created <-> exists p, m !! p = Some q) /\
    (forall i q, created !! i = Some q ->
       heapBound !! q = None /\
       h' !! q = Some (mkVariable (Nat.iter i incr 7) None)).
Proof.
  assert (resolves heapBound 1 2 (Function [TVariable 1; TVariable 2; TVariable 1])
            (Function [TVariable 1; Int; TVariable 1])) as Hr.
  { apply (resolves_operator heapBound 1 1 (Function [TVariable 1; TVariable 2; TVariable 1])
             [] "→" [TVariable 1; TVariable 2; TVariable 1] [TVariable 1; Int; TVariable 1]);
      [apply path_operator | simpl; lia |].
    apply List.Forall2_cons; [exact (heapBound_resolves_1 1)|].
    apply List.Forall2_cons; [exact heapBound_resolves_2|].
    apply List.Forall2_cons; [exact (heapBound_resolves_1 1) | apply List.Forall2_nil]. }
  split; [exact Hr|].
  destruct (FreshType_renames_variables 1 2 heapBound _ _ 7 Hr)
    as [m [created [h' [E [S1 [D [_ [N [R C]]]]]]]]].
  exists m, created, h'. split; [exact E|]. split; [exact S1|]. split; [exact D|].
  split; [exact N|]. split; [exact R | exact C].
Defined.

Lemma FreshType_complete_is_copy_witness :
  resolves heapBound 1 2 (Function [TVariable 2]) (Function [Int]) /\
  ground (Function [Int]) = true /\
  exists h',
    FreshType (1 + 2 + 2) (Function [TVariable 2]) 7 heapBound =
      Ok (Function [Int], 7, h') /\
    shortens heapBound h'.
Proof.
  pose proof (resolves_unary heapBound 1 1 _ _ heapBound_resolves_2) as Hr.
  split; [exact Hr|]. split; [reflexivity|].
  exact (FreshType_complete_is_copy 1 2 heapBound _ _ 7 Hr eq_refl).
Defined.

(** ** Closed statements on capture groups *)

Lemma getCaptureGroup_first_in_preorder_witness :
  wfRegexp reBytes = true /\
  getCaptureGroup reBytes 1 = Ok (head (omap (captured 1) (preorder reBytes))) /\
  head (omap (captured 1) (preorder reBytes)) = Some (plus digit).
Proof.
  split; [reflexivity|]. split; [|reflexivity].
  exact (getCaptureGroup_first_in_preorder reBytes 1 eq_refl).
Defined.

Lemma groupOnlyMatches_monotone_witness :
  runes "0123456789" ⊆ runes "+-0123456789" /\
  groupOnlyMatches (plus digit) (runes "0123456789") = Ok true /\
  groupOnlyMatches (plus digit) (runes "+-0123456789") = Ok true.
Proof.
  assert (runes "0123456789" ⊆ runes "+-0123456789") as Hs.
  { intros r Hr. apply list_elem_of_further, list_elem_of_further. exact Hr. }
  split; [exact Hs|]. split; [reflexivity|].
  exact (groupOnlyMatches_monotone (plus digit) _ _ Hs eq_refl).
Defined.

Lemma InferCaprefType_branch_order_witness :
  getCaptureGroup reDigitsOrX 1 = Ok (Some (alt [plus digit; plus (lit "x")])) /\
  getCaptureGroup reXOrDigits 1 = Ok (Some (alt [plus (lit "x"); plus digit])) /\
  [plus digit; plus (lit "x")] ≡ₚ [plus (lit "x"); plus digit] /\
  exists t,
    InferCaprefType syntaxString 1 reDigitsOrX 1 ∅ = Ok (t, ∅) /\
    InferCaprefType syntaxString 1 reXOrDigits 1 ∅ = Ok (t, ∅) /\
    t ∈ [Undef; Int; Float; String].
Proof.
  split; [reflexivity|]. split; [reflexivity|]. split; [apply perm_swap|].
  exact (InferCaprefType_branch_order syntaxString reDigitsOrX reXOrDigits 1
           (alt [plus digit; plus (lit "x")]) (alt [plus (lit "x"); plus digit]) 0 ∅
           eq_refl eq_refl eq_refl eq_refl eq_refl (perm_swap _ _ _)).
Defined.

(** ** Closed statements on the grammar *)

Lemma derives_unary_identifier name :
  derives unary_expr [ID name] (ident name).
Proof.
  apply unary_postfix, postfix_primary, primary_indexed, indexed_id, id_ID.
Qed.

Lemma mul_ops_share_one_level_witness :
  derives unary_expr [ID "a"] (ident "a") /\
  mul_op MUL = true /\ mul_op POW = true /\
  derives multiplicative_expr [ID "a"; MUL; ID "b"; POW; ID "c"]
    (BinaryExpr (BinaryExpr (ident "a") (ident "b") MUL) (ident "c") POW) /\
  forall n, derives multiplicative_expr [ID "a"; MUL; ID "b"; POW; ID "c"] n ->
    exists a' b' c', n = BinaryExpr (BinaryExpr a' b' MUL) c' POW /\
      derives unary_expr [ID "a"] a' /\ derives unary_expr [ID "b"] b' /\
      derives unary_expr [ID "c"] c'.
Proof.
  split; [apply derives_unary_identifier|]. split; [reflexivity|]. split; [reflexivity|].
  destruct (mul_ops_share_one_level [ID "a"] (ident "a") [ID "b"] (ident "b")
              [ID "c"] (ident "c") MUL POW (derives_unary_identifier "a")
              (derives_unary_identifier "b") (derives_unary_identifier "c")
              eq_refl eq_refl) as [Hd Hu].
  split; [exact Hd|]. apply Hu. repeat constructor.
Defined.

Lemma multiplicative_binds_tighter_witness :
  add_op PLUS = true /\ mul_op MUL = true /\
  Forall (fun t => bracket t = false) ([ID "a"] ++ [ID "b"] ++ [ID "c"]) /\
  derives additive_expr [ID "a"; PLUS; ID "b"; MUL; ID "c"]
    (BinaryExpr (ident "a") (BinaryExpr (ident "b") (ident "c") MUL) PLUS) /\
  derives additive_expr [ID "a"; MUL; ID "b"; PLUS; ID "c"]
    (BinaryExpr (BinaryExpr (ident "a") (ident "b") MUL) (ident "c") PLUS) /\
  (forall n, derives additive_expr [ID "a"; PLUS; ID "b"; MUL; ID "c"] n ->
     exists a' b' c', n = BinaryExpr a' (BinaryExpr b' c' MUL) PLUS /\
       derives unary_expr [ID "a"] a' /\ derives unary_expr [ID "b"] b' /\
       derives unary_expr [ID "c"] c').
Proof.
  assert (Forall (fun t => bracket t = false) ([ID "a"] ++ [ID "b"] ++ [ID "c"])) as Hp
    by (repeat constructor).
  split; [reflexivity|]. split; [reflexivity|]. split; [exact Hp|].
  destruct (multiplicative_binds_tighter [ID "a"] (ident "a") [ID "b"] (ident "b")
              [ID "c"] (ident "c") PLUS MUL (derives_unary_identifier "a")
              (derives_unary_identifier "b") (derives_unary_identifier "c")
              eq_refl eq_refl Hp) as [[Hd1 Hu1] [Hd2 _]].
  split; [exact Hd1|]. split; [exact Hd2 | exact Hu1].
Defined.

Lemma index_forms_build_same_node_witness :
  derives bitwise_expr [ID "x"] (ident "x") /\
  derives indexed_expr [ID "a"; LSQUARE; ID "x"; RSQUARE; LSQUARE; ID "y"; RSQUARE]
    (IndexedExpr (IdTerm "a") (ExprList [ident "x"; ident "y"])) /\
  derives indexed_expr [ID "a"; LSQUARE; ID "x"; COMMA; ID "y"; RSQUARE]
    (IndexedExpr (IdTerm "a") (ExprList [ident "x"; ident "y"])).
Proof.
  split; [apply derives_identifier|].
  exact (index_forms_build_same_node "a" [ID "x"] (ident "x") [ID "y"] (ident "y")
           (derives_identifier "x") (derives_identifier "y")).
Defined.

(** ** Closed statements on the fuzzing input *)

Lemma Fuzz_cut_round_trip_witness :
  Index bytesA SEP = -1 /\
  program (bytesA ++ SEP ++ bytesB ++ SEP) = bytesA /\
  input (bytesA ++ SEP ++ bytesB ++ SEP) = bytesB ++ SEP.
Proof.
  split; [reflexivity|].
  exact (Fuzz_cut_round_trip bytesA (bytesB ++ SEP) eq_refl).
Defined.

End MoreClosedStatements.
